(** * County health choropleth: classification, region tagging and labels

    A shallow embedding of the classification and label code of the
    Wisconsin county-health choropleth (js/data.js, js/map.js, js/chart.js,
    js/main.js) together with the properties of its specification.

    Conventions of the embedding.
    - A JavaScript number is a [jsnum]: NaN, the two infinities, or a finite
      value.  Finite values are exact rationals ([Qc]); every finite binary64
      is one, and comparison and equality of finite numbers are exact in
      JavaScript, so every statement that only compares numbers transfers
      as it stands.  The rounding of decimal literals and of the arithmetic
      of the display to binary64 is outside the model; statements about
      the digits of a number are made for whole numbers up to 2^53, which
      binary64 holds exactly.  The sums of the clustering routine are
      computed in binary64 ([B64], over the Standard Library's
      specification of IEEE 754 arithmetic).
    - [state.healthByCounty] is read through its own entries.  A plain
      object also answers the names it inherits from [Object.prototype]
      ([object_prototype_names]); a statement that depends on a name
      having no entry takes names outside that list.
    - Code of d3 and simple-statistics is not part of the repository.  The
      deterministic pieces the properties rest on (d3.scaleThreshold,
      d3.scaleQuantile, the bisector, ss.jenks) are modelled from the
      libraries' sources; the clustering routine, the force simulation,
      the trigonometric functions and the text measurements are fields of
      the record [Externals], and [SS.jenks] is the instance of the first.
    - Statements run in a state-and-exception monad over the module-level
      [state] object of js/main.js extended with the page effects (alert,
      console, the children of the map svg, the chart). *)

From Stdlib Require Import QArith Qcanon Qround ZArith Lia Lqa Ascii String
  List Sorted.
From Stdlib Require SpecFloat.
From stdpp Require Import gmap strings list fin_maps pretty.

Local Open Scope Z_scope.

(** ** Numbers *)

Module Num.

(** Leibniz equality on [Q] is decidable; the decision is transparent so
    that a closed canonicity proof evaluates to [eq_refl]. *)
Definition Q_leibniz_dec (x y : Q) : {x = y} + {x <> y}.
Proof. decide equality; [apply Pos.eq_dec | apply Z.eq_dec]. Defined.

Definition canon_eq {x y : Q} (H : x = y) : x = y :=
  match Q_leibniz_dec x y with left e => e | right _ => H end.

(** The canonical rational of a fraction. *)
Definition num (q : Q) : Qc := Qcmake (Qred q) (canon_eq (Qred_involutive q)).

Definition zq (z : Z) : Qc := num (inject_Z z).

Definition qadd (x y : Qc) : Qc := num (this x + this y).
Definition qsub (x y : Qc) : Qc := num (this x - this y).
Definition qmul (x y : Qc) : Qc := num (this x * this y).
Definition qdiv (x y : Qc) : Qc := num (this x / this y).
Definition qopp (x : Qc) : Qc := num (- this x).

Definition qleb (x y : Qc) : bool :=
  match Qccompare x y with Gt => false | _ => true end.
Definition qltb (x y : Qc) : bool :=
  match Qccompare x y with Lt => true | _ => false end.
Definition qeqb (x y : Qc) : bool :=
  match Qccompare x y with Eq => true | _ => false end.

Definition qmax (x y : Qc) : Qc := if qleb x y then y else x.
Definition qmin (x y : Qc) : Qc := if qleb x y then x else y.

(** [Math.floor] and truncation of a finite number. *)
Definition qfloor (x : Qc) : Z := Qfloor (this x).
Definition qtrunc (x : Qc) : Z :=
  if qltb x (zq 0) then - Qfloor (- this x) else Qfloor (this x).
Definition is_integer (x : Qc) : bool := qeqb x (zq (qfloor x)).

(** A JavaScript number. *)
Inductive jsnum : Type :=
| NaN
| NegInf
| Fin (q : Qc)
| PosInf.

Definition isNaN (n : jsnum) : bool :=
  match n with NaN => true | _ => false end.

Definition isFinite (n : jsnum) : bool :=
  match n with Fin _ => true | _ => false end.

(** [a <= b] on numbers: false as soon as one side is NaN. *)
Definition js_le (a b : jsnum) : bool :=
  match a, b with
  | NaN, _ | _, NaN => false
  | NegInf, _ => true
  | _, PosInf => true
  | Fin x, Fin y => qleb x y
  | _, _ => false
  end.

Definition js_lt (a b : jsnum) : bool :=
  match a, b with
  | NaN, _ | _, NaN => false
  | NegInf, NegInf => false
  | NegInf, _ => true
  | PosInf, PosInf => false
  | _, PosInf => true
  | Fin x, Fin y => qltb x y
  | _, _ => false
  end.

Definition js_ge (a b : jsnum) : bool := js_le b a.
Definition js_gt (a b : jsnum) : bool := js_lt b a.

(** Strict equality of two numbers. *)
Definition js_eq (a b : jsnum) : bool :=
  match a, b with
  | Fin x, Fin y => qeqb x y
  | NegInf, NegInf | PosInf, PosInf => true
  | _, _ => false
  end.

Definition sign_of (x : Qc) : comparison := Qccompare x (zq 0).

Definition js_neg (a : jsnum) : jsnum :=
  match a with
  | NaN => NaN
  | NegInf => PosInf
  | PosInf => NegInf
  | Fin x => Fin (qopp x)
  end.

Definition js_add (a b : jsnum) : jsnum :=
  match a, b with
  | NaN, _ | _, NaN => NaN
  | PosInf, NegInf | NegInf, PosInf => NaN
  | PosInf, _ | _, PosInf => PosInf
  | NegInf, _ | _, NegInf => NegInf
  | Fin x, Fin y => Fin (qadd x y)
  end.

Definition js_sub (a b : jsnum) : jsnum := js_add a (js_neg b).

Definition inf_of_sign (c : comparison) : jsnum :=
  match c with Gt => PosInf | Lt => NegInf | Eq => NaN end.

Definition js_mul (a b : jsnum) : jsnum :=
  match a, b with
  | NaN, _ | _, NaN => NaN
  | Fin x, Fin y => Fin (qmul x y)
  | Fin x, PosInf | PosInf, Fin x => inf_of_sign (sign_of x)
  | Fin x, NegInf | NegInf, Fin x => inf_of_sign (CompOpp (sign_of x))
  | PosInf, PosInf | NegInf, NegInf => PosInf
  | PosInf, NegInf | NegInf, PosInf => NegInf
  end.

(** Division; the sign of a zero divisor is not tracked, a finite non-zero
    number over zero is taken over positive zero. *)
Definition js_div (a b : jsnum) : jsnum :=
  match a, b with
  | NaN, _ | _, NaN => NaN
  | Fin x, Fin y =>
      match sign_of y with
      | Eq => inf_of_sign (sign_of x)
      | _ => Fin (qdiv x y)
      end
  | Fin _, _ => Fin (zq 0)
  | PosInf, Fin y =>
      match sign_of y with Lt => NegInf | _ => PosInf end
  | NegInf, Fin y =>
      match sign_of y with Lt => PosInf | _ => NegInf end
  | _, _ => NaN
  end.

(** [Math.max] and [Math.min] of two numbers. *)
Definition js_max (a b : jsnum) : jsnum :=
  match a, b with
  | NaN, _ | _, NaN => NaN
  | _, _ => if js_le a b then b else a
  end.

Definition js_min (a b : jsnum) : jsnum :=
  match a, b with
  | NaN, _ | _, NaN => NaN
  | _, _ => if js_le a b then a else b
  end.

(** [value % 1 !== 0]. *)
Definition has_fraction (a : jsnum) : bool :=
  match a with
  | Fin x => negb (is_integer x)
  | _ => true
  end.

End Num.

Export Num.

(** ** Binary64

    The arithmetic of JavaScript numbers where its rounding matters: the
    values are those of IEEE 754 binary64 as the Standard Library
    specifies them ([SpecFloat], precision 53, exponents up to 1024), with
    rounding to nearest, ties to even. *)

Module B64.

Abbreviation float := SpecFloat.spec_float.

Definition prec : Z := 53.
Definition emax : Z := 1024.

Definition zero : float := SpecFloat.S754_zero false.
Definition infinity : float := SpecFloat.S754_infinity false.

(** The binary64 of a whole number. *)
Definition of_Z (z : Z) : float :=
  SpecFloat.binary_normalize prec emax z 0 false.

(** The binary64 nearest to a fraction: the quotient is taken with at
    least 64 bits and one more bit that records a non-zero remainder, and
    rounded once. *)
Definition of_Q (q : Q) : float :=
  match Qnum q with
  | Z0 => zero
  | n =>
      let a := Z.abs n in
      let d := Zpos (Qden q) in
      let sh := Z.max 0 (64 + Z.log2 d - Z.log2 a) in
      let '(m, r) := Z.div_eucl (Z.shiftl a sh) d in
      let sticky := if r =? 0 then 0 else 1 in
      SpecFloat.binary_normalize prec emax
        (if n <? 0 then - (2 * m + sticky) else 2 * m + sticky)
        (- sh - 1) false
  end.

Definition of_Qc (x : Qc) : float := of_Q (this x).

Definition add : float -> float -> float := SpecFloat.SFadd prec emax.
Definition sub : float -> float -> float := SpecFloat.SFsub prec emax.
Definition mul : float -> float -> float := SpecFloat.SFmul prec emax.
Definition div : float -> float -> float := SpecFloat.SFdiv prec emax.

(** [x >= y]: false as soon as one side is NaN. *)
Definition geb (x y : float) : bool := SpecFloat.SFleb y x.

End B64.

(** ** Strings and values

    Strings are sequences of ASCII characters; white space is the ASCII
    white space (tab, line feed, vertical tab, form feed, carriage return,
    space). *)

Module Str.

Definition is_ws (c : ascii) : bool :=
  let n := nat_of_ascii c in
  ((9 <=? n)%nat && (n <=? 13)%nat) || (n =? 32)%nat.

Fixpoint trim_start (s : string) : string :=
  match s with
  | String c r => if is_ws c then trim_start r else s
  | EmptyString => EmptyString
  end.

Fixpoint trim_end (s : string) : string :=
  match s with
  | EmptyString => EmptyString
  | String c r =>
      match trim_end r with
      | EmptyString => if is_ws c then EmptyString else String c EmptyString
      | r' => String c r'
      end
  end.

Definition trim (s : string) : string := trim_end (trim_start s).

(** [s.includes(":")] *)
Fixpoint includes_colon (s : string) : bool :=
  match s with
  | EmptyString => false
  | String c r => if Ascii.eqb c ":"%char then true else includes_colon r
  end.

(** [s.split(":")[0]] *)
Fixpoint split_colon_head (s : string) : string :=
  match s with
  | EmptyString => EmptyString
  | String c r =>
      if Ascii.eqb c ":"%char then EmptyString else String c (split_colon_head r)
  end.

(** [s.replace(/,/g, '')] *)
Fixpoint remove_commas (s : string) : string :=
  match s with
  | EmptyString => EmptyString
  | String c r =>
      if Ascii.eqb c ","%char then remove_commas r else String c (remove_commas r)
  end.

Fixpoint starts_with (p s : string) : option string :=
  match p, s with
  | EmptyString, _ => Some s
  | String a p', String b s' =>
      if Ascii.eqb a b then starts_with p' s' else None
  | String _ _, EmptyString => None
  end.

(** The value of a digit in a base up to 16. *)
Definition digit_value (base : Z) (c : ascii) : option Z :=
  let n := Z.of_nat (nat_of_ascii c) in
  let v :=
    if (48 <=? n) && (n <=? 57) then Some (n - 48)
    else if (97 <=? n) && (n <=? 102) then Some (n - 87)
    else if (65 <=? n) && (n <=? 70) then Some (n - 55)
    else None in
  match v with
  | Some d => if d <? base then Some d else None
  | None => None
  end.

(** The longest run of digits at the head of a string, most significant
    first, and what follows it. *)
Fixpoint take_digits (base : Z) (s : string) : list Z * string :=
  match s with
  | EmptyString => ([], EmptyString)
  | String c r =>
      match digit_value base c with
      | Some d => let '(ds, rest) := take_digits base r in (d :: ds, rest)
      | None => ([], s)
      end
  end.

Definition digits_value (base : Z) (ds : list Z) : Z :=
  fold_left (fun acc d => acc * base + d) ds 0.

(** [m * 10 ^ e] *)
Definition scale10 (m e : Z) : Qc :=
  if 0 <=? e then zq (m * 10 ^ e)
  else num (Qmake m (Z.to_pos (10 ^ (- e)))).

Definition parse_sign (s : string) : bool * string :=
  match s with
  | String "-" r => (true, r)
  | String "+" r => (false, r)
  | _ => (false, s)
  end.

(** ExponentPart, when one is there. *)
Definition parse_exponent (s : string) : Z * string :=
  match s with
  | String c r =>
      if Ascii.eqb c "e"%char || Ascii.eqb c "E"%char then
        let '(neg, r1) := parse_sign r in
        match take_digits 10 r1 with
        | ([], _) => (0, s)
        | (ds, r2) =>
            let e := digits_value 10 ds in
            (if neg then - e else e, r2)
        end
      else (0, s)
  | EmptyString => (0, s)
  end.

Definition decimal_value (ip fp : list Z) (e : Z) : jsnum :=
  Fin (scale10 (digits_value 10 (ip ++ fp)) (e - Z.of_nat (length fp))).

(** The longest StrUnsignedDecimalLiteral at the head of a string. *)
Definition parse_unsigned (s : string) : option (jsnum * string) :=
  match starts_with "Infinity"%string s with
  | Some r => Some (PosInf, r)
  | None =>
      let '(ip, r1) := take_digits 10 s in
      match r1 with
      | String "." r2 =>
          let '(fp, r3) := take_digits 10 r2 in
          match ip, fp with
          | [], [] => None
          | _, _ =>
              let '(e, r4) := parse_exponent r3 in
              Some (decimal_value ip fp e, r4)
          end
      | _ =>
          match ip with
          | [] => None
          | _ =>
              let '(e, r4) := parse_exponent r1 in
              Some (decimal_value ip [] e, r4)
          end
      end
  end.

(** The longest StrDecimalLiteral at the head of a string. *)
Definition parse_decimal (s : string) : option (jsnum * string) :=
  let '(neg, r) := parse_sign s in
  match parse_unsigned r with
  | Some (n, rest) => Some (if neg then js_neg n else n, rest)
  | None => None
  end.

Definition parse_radix (base : Z) (s : string) : jsnum :=
  match take_digits base s with
  | (d :: ds, EmptyString) => Fin (zq (digits_value base (d :: ds)))
  | _ => NaN
  end.

(** StringToNumber: what unary [+] and [Number] do to a string. *)
Definition string_to_number (s : string) : jsnum :=
  match trim s with
  | EmptyString => Fin (zq 0)
  | String "0" (String c r) as t =>
      if Ascii.eqb c "x"%char || Ascii.eqb c "X"%char then parse_radix 16 r
      else if Ascii.eqb c "o"%char || Ascii.eqb c "O"%char then parse_radix 8 r
      else if Ascii.eqb c "b"%char || Ascii.eqb c "B"%char then parse_radix 2 r
      else
        match parse_decimal t with
        | Some (n, EmptyString) => n
        | _ => NaN
        end
  | t =>
      match parse_decimal t with
      | Some (n, EmptyString) => n
      | _ => NaN
      end
  end.

(** [parseFloat] *)
Definition parseFloat (s : string) : jsnum :=
  match parse_decimal (trim_start s) with
  | Some (n, _) => n
  | None => NaN
  end.

End Str.

Export Str.

(** A value held by a row of the table or read from it: every cell loaded
    by d3.csv is a string, a missing property reads as undefined, and
    [callback] overwrites the selected cell with a number. *)
Inductive jsval : Type :=
| VUndef
| VStr (s : string)
| VNum (n : jsnum).

(** ToNumber, as applied by unary [+], [isNaN], [isFinite] and [Number]. *)
Definition to_number (v : jsval) : jsnum :=
  match v with
  | VUndef => NaN
  | VStr s => string_to_number s
  | VNum n => n
  end.

(** Strict inequality with the empty string, [v !== ""]. *)
Definition is_not_empty_string (v : jsval) : bool :=
  match v with
  | VStr EmptyString => false
  | _ => true
  end.

(** ** Display of numbers (js/data.js, [formatNumber])

    [toLocaleString(undefined, ...)] formats for the locale of the page; the
    model is the en-US one: groups of three digits separated by commas, a
    decimal point, rounding half away from zero to two places. *)

Module Format.

Fixpoint group_from (s : string) (n : nat) : string :=
  match s with
  | EmptyString => EmptyString
  | String c r =>
      let rest := group_from r (n - 1) in
      if (1 <? n)%nat && ((n - 1) mod 3 =? 0)%nat
      then String c (String "," rest)
      else String c rest
  end.

Definition group_thousands (s : string) : string :=
  group_from s (String.length s).

Definition two_digits (n : Z) : string :=
  if n <? 10 then String "0" (pretty n) else pretty n.

(** [Number(value).toLocaleString(undefined, { minimumFractionDigits: 2 or
    0, maximumFractionDigits: 2 })] *)
Definition toLocaleString (n : jsnum) (two_places : bool) : string :=
  match n with
  | NaN => "NaN"
  | PosInf => "∞"
  | NegInf => "-∞"
  | Fin x =>
      let neg := qltb x (zq 0) in
      let a := if neg then qopp x else x in
      let r := Qfloor (this a * 100 + (1 # 2)) in
      let ip := r / 100 in
      let fp := r mod 100 in
      let frac :=
        if two_places then String "." (two_digits fp)
        else if fp =? 0 then EmptyString
        else if fp mod 10 =? 0 then String "." (pretty (fp / 10))
        else String "." (two_digits fp) in
      ((if neg then "-" else "") ++ group_thousands (pretty ip) ++ frac)%string
  end.

Definition formatNumber (value : jsval) : string :=
  toLocaleString (to_number value) (has_fraction (to_number value)).

End Format.

Export Format.

(** ** The pieces of d3 the classification uses *)

Module D3.

(** d3-array, [bisector(ascending).right(a, x, lo, hi)]: binary search for
    the insertion point after the entries that compare [<= x]. *)
Definition entry_le (e : option Qc) (x : jsnum) : bool :=
  match e with
  | Some v => js_le (Fin v) x
  | None => false
  end.

Fixpoint bisect_loop (fuel : nat) (a : list Qc) (x : jsnum) (lo hi : nat)
  : nat :=
  match fuel with
  | O => lo
  | S fuel' =>
      if (lo <? hi)%nat then
        let mid := ((lo + hi) / 2)%nat in
        if entry_le (a !! mid) x
        then bisect_loop fuel' a x (mid + 1) hi
        else bisect_loop fuel' a x lo mid
      else lo
  end.

Definition bisectRight (a : list Qc) (x : jsnum) (lo hi : nat) : nat :=
  if (lo <? hi)%nat then
    if isNaN x then hi else bisect_loop (hi - lo) a x lo hi
  else lo.

(** A colour of a palette: entry [i] of [d3.schemeReds[k]], the ramp
    [d3.interpolateReds] at [t], or the literal "#ccc". *)
Inductive color : Type :=
| SchemeReds (k i : nat)
| InterpolateReds (t : Qc)
| Gray.

(** [d3.schemeReds[k]]: defined for 3 <= k <= 9, undefined elsewhere. *)
Definition schemeReds (k : nat) : option (list color) :=
  if (3 <=? k)%nat && (k <=? 9)%nat
  then Some (map (SchemeReds k) (seq 0 k))
  else None.

(** [d3.scaleThreshold().domain(d).range(r)] *)
Record ThresholdScale : Type := {
  domain : list Qc;
  range : list color
}.

(** Applying a threshold scale; [None] is the scale's unknown value,
    undefined. *)
Definition scale_apply (sc : ThresholdScale) (x : jsnum) : option color :=
  if isNaN x then None
  else
    let n := Nat.min (length (domain sc)) (length (range sc) - 1) in
    range sc !! bisectRight (domain sc) x 0 n.

(** d3-array, [quantileSorted(values, p)] on a non-empty sorted array
    [v0 :: rest], for p = i / n. *)
Definition quantileSorted (v0 : Qc) (rest : list Qc) (i n : nat) : Qc :=
  let values := v0 :: rest in
  let len := length values in
  let p := qdiv (zq (Z.of_nat i)) (zq (Z.of_nat n)) in
  if qleb p (zq 0) || (len <? 2)%nat then v0
  else if qleb (zq 1) p then List.last values v0
  else
    let h := qmul (zq (Z.of_nat (len - 1))) p in
    let i0 := Z.to_nat (qfloor h) in
    let value0 := nth i0 values v0 in
    let value1 := nth (i0 + 1) values v0 in
    qadd value0 (qmul (qsub value1 value0) (qsub h (zq (Z.of_nat i0)))).

(** [d3.scaleQuantile().domain(values).range(r).quantiles()] for a range of
    [n] entries: the thresholds at 1/n, ..., (n-1)/n. *)
Definition quantiles (v0 : Qc) (rest : list Qc) (n : nat) : list Qc :=
  map (fun i => quantileSorted v0 rest i n) (seq 1 (Nat.max 1 n - 1)).

End D3.

Export D3.

(** ** Array helpers of the language *)

(** [[...new Set(xs)]]: the distinct values in order of first occurrence. *)
Definition set_add (acc : list Qc) (x : Qc) : list Qc :=
  if existsb (qeqb x) acc then acc else acc ++ [x].

Definition set_values (xs : list Qc) : list Qc := fold_left set_add xs [].

(** [xs.sort((a, b) => a - b)] on finite numbers. *)
Fixpoint insert_asc (x : Qc) (xs : list Qc) : list Qc :=
  match xs with
  | [] => [x]
  | y :: ys => if qleb x y then x :: xs else y :: insert_asc x ys
  end.

Definition sort_asc (xs : list Qc) : list Qc := fold_right insert_asc [] xs.

(** [xs.slice(1)] *)
Definition slice1 {A} (xs : list A) : list A := drop 1 xs.

(** ** simple-statistics: [ss.jenks]

    The natural-breaks routine of the library (jenks.js, jenks_matrices.js,
    jenks_breaks.js): a dynamic program over the sorted data whose sums
    are JavaScript numbers, hence binary64.  The boundaries it returns are
    entries of the data. *)

Module SS.

Abbreviation matrix A := (list (list A)).

Definition mget {A} (d : A) (m : matrix A) (i j : nat) : A :=
  nth j (nth i m []) d.

Definition mset {A} (m : matrix A) (i j : nat) (x : A) : matrix A :=
  alter (fun row => <[j := x]> row) i m.

(** The running sums of the inner loop of [jenksMatrices]. *)
Record sums : Type := {
  sum : B64.float;
  sumSquares : B64.float;
  w : Z;
  variance : B64.float
}.

(** The matrices after the first loop: zeroes, row 1 set to class limit 1
    and variance 0, the other rows of the variances set to Infinity. *)
Definition init_matrices (n nClasses : nat)
  : matrix nat * matrix B64.float :=
  let zeroL := replicate (S n) (replicate (S nClasses) 0%nat) in
  let zeroV := replicate (S n) (replicate (S nClasses) B64.zero) in
  fold_left
    (fun '(lc, vc) i =>
       (mset lc 1 i 1%nat,
        fold_left (fun vc' j => mset vc' j i B64.infinity) (seq 2 (n - 1))
                  (mset vc 1 i B64.zero)))
    (seq 1 nClasses) (zeroL, zeroV).

(** The loop over the classes [j]: a class that may start at
    [lowerClassLimit] without raising the variance starts there.  The
    comparison is false when the candidate is NaN. *)
Definition step_j (l i4 lowerClassLimit : nat) (var : B64.float)
    (st : matrix nat * matrix B64.float) (j : nat)
  : matrix nat * matrix B64.float :=
  let '(lc, vc) := st in
  let cand := B64.add var (mget B64.zero vc i4 (j - 1)) in
  if B64.geb (mget B64.zero vc l j) cand
  then (mset lc l j lowerClassLimit, mset vc l j cand)
  else (lc, vc).

(** The loop over [m]: the data from [l - m + 1] to [l] as one class,
    [variance = sumSquares - (sum * sum) / w]. *)
Definition step_m (data : list B64.float) (nClasses l : nat)
    (st : matrix nat * matrix B64.float * sums) (m : nat)
  : matrix nat * matrix B64.float * sums :=
  let '(lc, vc, acc) := st in
  let lowerClassLimit := (l - m + 1)%nat in
  let val := nth (lowerClassLimit - 1) data B64.zero in
  let w' := w acc + 1 in
  let sum' := B64.add (sum acc) val in
  let sq' := B64.add (sumSquares acc) (B64.mul val val) in
  let var' := B64.sub sq' (B64.div (B64.mul sum' sum') (B64.of_Z w')) in
  let acc' :=
    {| sum := sum'; sumSquares := sq'; w := w'; variance := var' |} in
  let i4 := (lowerClassLimit - 1)%nat in
  if (i4 =? 0)%nat then (lc, vc, acc')
  else
    let '(lc', vc') :=
      fold_left (step_j l i4 lowerClassLimit var') (seq 2 (nClasses - 1))
                (lc, vc) in
    (lc', vc', acc').

(** The loop over [l]: the first [l] data. *)
Definition step_l (data : list B64.float) (nClasses : nat)
    (st : matrix nat * matrix B64.float * B64.float) (l : nat)
  : matrix nat * matrix B64.float * B64.float :=
  let '(lc, vc, var0) := st in
  let '(lc', vc', acc) :=
    fold_left (step_m data nClasses l) (seq 1 l)
      (lc, vc,
       {| sum := B64.zero; sumSquares := B64.zero; w := 0;
          variance := var0 |}) in
  (mset lc' l 1 1%nat, mset vc' l 1 (variance acc), variance acc).

Definition jenksMatrices (data : list B64.float) (nClasses : nat)
  : matrix nat * matrix B64.float :=
  let n := length data in
  let '(lc, vc, _) :=
    fold_left (step_l data nClasses) (seq 2 (n - 1))
              (init_matrices n nClasses, B64.zero) in
  (lc, vc).

(** [jenksBreaks]: walk the lower class limits back from the last row.
    [k] is the row to read, [None] for -1; a class limit 0 reads
    [data[-1]], undefined, and leaves -1 as the next row, whose read
    throws.  The result is [None] where the walk throws; an entry is
    [None] where it is undefined, which only the first one can be. *)
Fixpoint jenksBreaks_loop (data : list Qc) (lc : matrix nat)
    (countNum : nat) (k : option nat) (kclass : list (option Qc))
  : option (list (option Qc)) :=
  match countNum with
  | O => Some kclass
  | S c =>
      match k with
      | None => None
      | Some row =>
          match mget 0%nat lc row countNum with
          | O => jenksBreaks_loop data lc c None (None :: kclass)
          | S idx =>
              jenksBreaks_loop data lc c (Some idx) (data !! idx :: kclass)
          end
      end
  end.

Definition jenksBreaks (data : list Qc) (lc : matrix nat) (nClasses : nat)
  : option (list (option Qc)) :=
  jenksBreaks_loop data lc nClasses (Some (length data)) [last data].

(** [ss.jenks(data, nClasses)].  [None] where the call throws or returns
    null, which [callback] cannot slice.  The data are sorted, the class
    limits are computed from their binary64 values, and the boundaries
    are read from the data.  The caller drops the first boundary; where
    the library leaves it undefined it stands here as the smallest
    datum. *)
Definition jenks (data : list Qc) (nClasses : nat) : option (list Qc) :=
  if (length data <? nClasses)%nat then None
  else
    let sorted := sort_asc data in
    let lc := fst (jenksMatrices (map B64.of_Qc sorted) nClasses) in
    map (fun b => default (default (zq 0) (head sorted)) b)
      <$> jenksBreaks sorted lc nClasses.

End SS.

(** ** Geometry, labels and the environment *)

(** A county feature: its [properties.NAME] and the centroid of its
    projected outline, [state.path.centroid(d)]. *)
Record Feature : Type := {
  NAME : string;
  centroid : jsnum * jsnum
}.

(** An entry of [labelData] in [highlightCounties]. *)
Record Label : Type := {
  countyName : string;
  value : string;
  anchor : jsnum * jsnum;
  x : jsnum;
  y : jsnum
}.

(** What the code takes from outside the repository and from the
    browser. *)
Record Externals : Type := {
  (** [ss.jenks(data, nClasses)]; [None] where the call throws or returns
      null. *)
  ss_jenks : list Qc -> nat -> option (list Qc);
  (** [Math.cos(angle * Math.PI / 180)], [Math.sin(angle * Math.PI / 180)] *)
  cosDeg : Qc -> Qc;
  sinDeg : Qc -> Qc;
  (** 250 ticks of the d3 force simulation with forceX, forceY at strength
      0.02 toward the anchor and forceCollide(60). *)
  simulate250 : list Label -> list Label;
  (** [getBBox().width] of an 11px text. *)
  textWidth : string -> Qc;
  (** Number::toString of a finite number that is not an integer below
      10^21: the shortest decimal that reads back as the same binary64. *)
  fractionToString : Qc -> string
}.

(** Number::toString *)
Definition number_to_string (ext : Externals) (n : jsnum) : string :=
  match n with
  | NaN => "NaN"%string
  | PosInf => "Infinity"%string
  | NegInf => "-Infinity"%string
  | Fin q =>
      let a := if qltb q (zq 0) then qopp q else q in
      if is_integer q && qltb a (zq (10 ^ 21)) then
        ((if qltb q (zq 0) then "-" else "") ++ pretty (qfloor a))%string
      else fractionToString ext q
  end.

(** ** The shared state and the page *)

(** The value of the [data-break] attribute of a county path. *)
Inductive BucketTag : Type :=
| TagBreak (b : Qc)
| TagOverflow
| TagNone.

(** A [.county] path of the map: its feature, its fill style (absent, or
    removed by an undefined value: [None]), its [data-break] attribute
    (absent: [None]) and its [glowing] class. *)
Record CountyPath : Type := {
  feature : Feature;
  fill : option color;
  data_break : option BucketTag;
  glowing : bool
}.

Record Rect : Type := {
  rect_x : jsnum;
  rect_y : jsnum;
  rect_width : jsnum;
  rect_height : jsnum
}.

(** A callout: the leader line from the anchor to the label position at
    the time the line was drawn, the label itself and, once the animation
    frame has run, the bubble behind the two texts. *)
Record Callout : Type := {
  line_end : jsnum * jsnum;
  label : Label;
  bubble : option Rect
}.

Abbreviation row := (gmap string jsval).

(** The [state] object of js/main.js. [healthByCounty] is null until the
    first [callback]; every reader runs after it, and null is the empty
    table here. *)
Record AppState : Type := {
  colorScale : option ThresholdScale;
  healthByCounty : gmap string row;
  attrArray : list string;
  expressed : option string;
  isRatioField : bool
}.

(** The page as far as the code writes to it. *)
Record Page : Type := {
  (** names bound on the global object *)
  globalNames : list string;
  (** width and height of the view box of the map svg *)
  viewBox : Qc * Qc;
  alerts : list string;
  warnings : list string;
  statesPaths : nat;
  counties : list CountyPath;
  callouts : list Callout;
  (** the breaks drawn by [setChart] and the fill of each circle *)
  chart : option (list (Qc * option color));
  (** the options of the dropdown *)
  dropdown : option (list string)
}.

Record World : Type := {
  app : AppState;
  page : Page
}.

Definition with_app (f : AppState -> AppState) (wd : World) : World :=
  {| app := f (app wd); page := page wd |}.

Definition with_page (f : Page -> Page) (wd : World) : World :=
  {| app := app wd; page := f (page wd) |}.

Definition set_colorScale (v : option ThresholdScale) (s : AppState) :=
  {| colorScale := v; healthByCounty := healthByCounty s;
     attrArray := attrArray s; expressed := expressed s;
     isRatioField := isRatioField s |}.

Definition set_healthByCounty (v : gmap string row) (s : AppState) :=
  {| colorScale := colorScale s; healthByCounty := v;
     attrArray := attrArray s; expressed := expressed s;
     isRatioField := isRatioField s |}.

Definition set_attrArray (v : list string) (s : AppState) :=
  {| colorScale := colorScale s; healthByCounty := healthByCounty s;
     attrArray := v; expressed := expressed s;
     isRatioField := isRatioField s |}.

Definition set_expressed (v : option string) (s : AppState) :=
  {| colorScale := colorScale s; healthByCounty := healthByCounty s;
     attrArray := attrArray s; expressed := v;
     isRatioField := isRatioField s |}.

Definition set_isRatioField (v : bool) (s : AppState) :=
  {| colorScale := colorScale s; healthByCounty := healthByCounty s;
     attrArray := attrArray s; expressed := expressed s;
     isRatioField := v |}.

Definition set_alerts (v : list string) (p : Page) :=
  {| globalNames := globalNames p; viewBox := viewBox p; alerts := v;
     warnings := warnings p; statesPaths := statesPaths p;
     counties := counties p; callouts := callouts p; chart := chart p;
     dropdown := dropdown p |}.

Definition set_warnings (v : list string) (p : Page) :=
  {| globalNames := globalNames p; viewBox := viewBox p; alerts := alerts p;
     warnings := v; statesPaths := statesPaths p;
     counties := counties p; callouts := callouts p; chart := chart p;
     dropdown := dropdown p |}.

Definition set_statesPaths (v : nat) (p : Page) :=
  {| globalNames := globalNames p; viewBox := viewBox p; alerts := alerts p;
     warnings := warnings p; statesPaths := v;
     counties := counties p; callouts := callouts p; chart := chart p;
     dropdown := dropdown p |}.

Definition set_counties (v : list CountyPath) (p : Page) :=
  {| globalNames := globalNames p; viewBox := viewBox p; alerts := alerts p;
     warnings := warnings p; statesPaths := statesPaths p;
     counties := v; callouts := callouts p; chart := chart p;
     dropdown := dropdown p |}.

Definition set_callouts (v : list Callout) (p : Page) :=
  {| globalNames := globalNames p; viewBox := viewBox p; alerts := alerts p;
     warnings := warnings p; statesPaths := statesPaths p;
     counties := counties p; callouts := v; chart := chart p;
     dropdown := dropdown p |}.

Definition set_chart (v : option (list (Qc * option color))) (p : Page) :=
  {| globalNames := globalNames p; viewBox := viewBox p; alerts := alerts p;
     warnings := warnings p; statesPaths := statesPaths p;
     counties := counties p; callouts := callouts p; chart := v;
     dropdown := dropdown p |}.

Definition set_dropdown (v : option (list string)) (p : Page) :=
  {| globalNames := globalNames p; viewBox := viewBox p; alerts := alerts p;
     warnings := warnings p; statesPaths := statesPaths p;
     counties := counties p; callouts := callouts p; chart := chart p;
     dropdown := v |}.

(** ** Statements: state and exceptions *)

Inductive jsError : Type :=
| TypeError
| ReferenceError (name : string)
| Error (message : string).

Inductive outcome (A : Type) : Type :=
| Return (a : A)
| Throw (e : jsError).

Arguments Return {A} a.
Arguments Throw {A} e.

Definition M (A : Type) : Type := World -> World * outcome A.

Definition ret {A} (a : A) : M A := fun wd => (wd, Return a).

Definition throw {A} (e : jsError) : M A := fun wd => (wd, Throw e).

Definition bind {A B} (m : M A) (k : A -> M B) : M B :=
  fun wd =>
    match m wd with
    | (wd', Return a) => k a wd'
    | (wd', Throw e) => (wd', Throw e)
    end.

Definition get : M World := fun wd => (wd, Return wd).

Definition modify (f : World -> World) : M unit :=
  fun wd => (f wd, Return tt).

(** Whether a statement returned, and what it returned. *)
Definition is_Return {A} (o : outcome A) : bool :=
  match o with
  | Return _ => true
  | Throw _ => false
  end.

Definition returned {A} (d : A) (o : outcome A) : A :=
  match o with
  | Return a => a
  | Throw _ => d
  end.

#[global] Instance M_ret : MRet M := @ret.
#[global] Instance M_bind : MBind M := fun A B k m => bind m k.

(** Running a statement for each element of an array, in order. *)
Fixpoint forEach {A} (f : A -> M unit) (xs : list A) : M unit :=
  match xs with
  | [] => ret tt
  | a :: rest => f a;; forEach f rest
  end.

(** Keeping the elements a callback that may throw accepts. *)
Fixpoint filterM {A} (f : A -> M bool) (xs : list A) : M (list A) :=
  match xs with
  | [] => ret []
  | a :: rest =>
      keep ← f a;
      kept ← filterM f rest;
      ret (if keep : bool then a :: kept else kept)
  end.

Definition alert (message : string) : M unit :=
  modify (with_page (fun p => set_alerts (alerts p ++ [message]) p)).

Definition console_warn (message : string) : M unit :=
  modify (with_page (fun p => set_warnings (warnings p ++ [message]) p)).

(** Assignment to an identifier that no scope of the module declares.  The
    files are ES modules, hence strict code: the assignment creates no
    global and throws a ReferenceError unless the global object already
    has the name. *)
Definition assign_undeclared (name : string) : M unit :=
  wd ← get;
  if existsb (String.eqb name) (globalNames (page wd))
  then ret tt
  else throw (ReferenceError name).

(** ** js/data.js *)

Definition dquote : string := String (ascii_of_nat 34) EmptyString.

(** Reading a property of a row. *)
Definition prop_get (r : row) (key : string) : jsval :=
  default VUndef (r !! key).

(** The property key [state.expressed] stands for. *)
Definition key_of (e : option string) : string := default "undefined"%string e.

(** [v.toString()] *)
Definition toString (ext : Externals) (v : jsval) : M string :=
  match v with
  | VUndef => throw TypeError
  | VStr s => ret s
  | VNum n => ret (number_to_string ext n)
  end.

(** The key under which a row is stored, [d.county] as a property key. *)
Definition county_key (ext : Externals) (d : row) : string :=
  match prop_get d "county" with
  | VStr s => s
  | VUndef => "undefined"%string
  | VNum n => number_to_string ext n
  end.

(** The test of the filter that selects the numeric columns. *)
Definition is_numeric_column (ext : Externals) (first : option row)
    (col : string) : M bool :=
  if String.eqb col "county" || String.eqb col "fips"
     || String.eqb col "deaths"
  then ret false
  else
    match first with
    | None => throw TypeError
    | Some r =>
        s ← toString ext (prop_get r col);
        ret (negb (isNaN
               (string_to_number (split_colon_head (remove_commas s)))))
    end.

(** The body of [csvData.forEach] without the store into the lookup: the
    row keeps the cell as [rawValue] and the cell becomes a number. *)
Definition parse_row (ext : Externals) (key : string) (d : row) : M row :=
  let d1 := <["rawValue"%string := prop_get d key]> d in
  match prop_get d1 key with
  | VStr s =>
      if includes_colon s
      then ret (<[key := VNum (parseFloat (split_colon_head s))]> d1)
      else ret (<[key := VNum (string_to_number (remove_commas s))]> d1)
  | v =>
      s ← toString ext v;
      ret (<[key := VNum (string_to_number (remove_commas s))]> d1)
  end.

Fixpoint parse_rows (ext : Externals) (key : string) (csvData : list row)
  : M (list row) :=
  match csvData with
  | [] => ret []
  | d :: rest =>
      d' ← parse_row ext key d;
      modify (with_app (fun s =>
        set_healthByCounty (<[county_key ext d' := d']> (healthByCounty s)) s));;
      ds ← parse_rows ext key rest;
      ret (d' :: ds)
  end.

(** An element the filter [!isNaN(v) && isFinite(v)] keeps. *)
Definition finite_value (v : jsval) : option Qc :=
  match to_number v with
  | Fin q => Some q
  | _ => None
  end.

(** [expressedValues]: the finite values of the selected column in
    ascending order.  Every cell is a number once [parse_rows] has run. *)
Definition expressedValues_of (key : string) (csvData : list row)
  : list Qc :=
  sort_asc (omap (fun d => finite_value (prop_get d key)) csvData).

(** The colours of the threshold scale, [colorRange]; [None] is the
    undefined entry of [d3.schemeReds]. *)
Definition colorRange_of (numColors : nat) : option (list color) :=
  if (numColors <=? 9)%nat then schemeReds numColors
  else
    Some (map (fun i => InterpolateReds
                 (qdiv (zq (Z.of_nat i)) (zq (Z.of_nat (numColors - 1)))))
              (seq 0 numColors)).

(** The boundaries [ss.jenks] returned, [rawBreaks]. *)
Definition jenks (ext : Externals) (data : list Qc) (nClasses : nat)
  : list Qc :=
  default [] (ss_jenks ext data nClasses).

(** The natural-breaks branch up to [breaksArray]. *)
Definition natural_breaks (ext : Externals) (expressedValues : list Qc)
  : list Qc :=
  let unique := set_values expressedValues in
  let numBreaks := Nat.min 9 (length unique - 1) in
  let rawBreaks := jenks ext expressedValues numBreaks in
  set_values (slice1 rawBreaks).

(** Lines 61 to 88: from [expressedValues] to [breaksArray]. *)
Definition classify (ext : Externals) (key : string)
    (expressedValues : list Qc) : M (list Qc) :=
  match expressedValues with
  | [] | [_] =>
      alert ("Not enough valid data for " ++ dquote ++ key ++ dquote);;
      throw (Error "Bad data column selected")
  | v0 :: rest =>
      let unique := set_values expressedValues in
      if (length unique <? 5)%nat then
        console_warn "Too few unique values — using quantile";;
        assign_undeclared "colorScale";;
        ret (quantiles v0 rest 5)
      else
        match ss_jenks ext expressedValues
                (Nat.min 9 (length unique - 1)) with
        | None => throw TypeError
        | Some _ =>
            let breaksArray := natural_breaks ext expressedValues in
            let numColors := (length breaksArray + 1)%nat in
            match colorRange_of numColors with
            | Some colorRange =>
                modify (with_app (set_colorScale
                  (Some {| domain := breaksArray; range := colorRange |})));;
                ret breaksArray
            | None => throw TypeError
            end
        end
  end.

(** ** js/map.js: [setCounties] *)

(** The names every object inherits from [Object.prototype]:
    [state.healthByCounty[name]] answers them although no row was stored
    under them. *)
Definition object_prototype_names : list string :=
  ["constructor"; "__defineGetter__"; "__defineSetter__"; "hasOwnProperty";
   "__lookupGetter__"; "__lookupSetter__"; "isPrototypeOf";
   "propertyIsEnumerable"; "toString"; "valueOf"; "__proto__";
   "toLocaleString"]%string.

(** A name that [Object.prototype] does not answer. *)
Definition is_plain_name (name : string) : bool :=
  negb (existsb (String.eqb name) object_prototype_names).

(** A table whose entries were all stored as own properties: the
    assignment [state.healthByCounty[d.county] = d] under the county
    "__proto__" stores no entry, it replaces the prototype of the table. *)
Definition plain_object (t : gmap string row) : Prop :=
  t !! "__proto__"%string = None.

(** The [fill] callback: the colour of the county's value, "#ccc" when no
    record matches.  Calling [state.colorScale] while it is null throws.
    The record is looked up among the own entries of the table, which is
    what [state.healthByCounty[countyName]] does for a plain name on a
    plain table ([is_plain_name], [plain_object]). *)
Definition county_fill (s : AppState) (f : Feature)
  : outcome (option color) :=
  match healthByCounty s !! NAME f with
  | Some record =>
      match colorScale s with
      | Some sc =>
          Return (scale_apply sc
                    (to_number (prop_get record (key_of (expressed s)))))
      | None => Throw TypeError
      end
  | None => Return (Some Gray)
  end.

(** The loop over [breaksArray] of the [data-break] callback. *)
Fixpoint scan_breaks (value : jsnum) (breaksArray : list Qc) : BucketTag :=
  match breaksArray with
  | [] => TagOverflow
  | b :: rest =>
      if js_le value (Fin b) then TagBreak b else scan_breaks value rest
  end.

(** The [data-break] callback. *)
Definition county_data_break (s : AppState) (breaksArray : list Qc)
    (f : Feature) : BucketTag :=
  match healthByCounty s !! NAME f with
  | Some record =>
      let value := to_number (prop_get record (key_of (expressed s))) in
      if negb (isNaN value) then scan_breaks value breaksArray
      else TagNone
  | None => TagNone
  end.

Definition new_path (f : Feature) : CountyPath :=
  {| feature := f; fill := None; data_break := None; glowing := false |}.

Definition with_fill (c : CountyPath) (col : option color) : CountyPath :=
  {| feature := feature c; fill := col; data_break := data_break c;
     glowing := glowing c |}.

Definition with_tag (c : CountyPath) (t : BucketTag) : CountyPath :=
  {| feature := feature c; fill := fill c; data_break := Some t;
     glowing := glowing c |}.

Definition with_glowing (c : CountyPath) (g : bool) : CountyPath :=
  {| feature := feature c; fill := fill c; data_break := data_break c;
     glowing := g |}.

Definition with_feature (c : CountyPath) (f : Feature) : CountyPath :=
  {| feature := f; fill := fill c; data_break := data_break c;
     glowing := glowing c |}.

(** [selection.data(values)] without a key function: the datum of the
    i-th selected node becomes the i-th value; the nodes beyond the values
    keep theirs (they are the exit selection). *)
Definition rebind (nodes : list CountyPath) (values : list Feature)
  : list CountyPath :=
  imap (fun i c =>
          match values !! i with
          | Some f => with_feature c f
          | None => c
          end) nodes.

(** The fills are set path by path; a throw leaves the later paths as
    they were appended. *)
Fixpoint fill_paths (s : AppState) (cs : list CountyPath)
  : list CountyPath * option jsError :=
  match cs with
  | [] => ([], None)
  | c :: rest =>
      match county_fill s (feature c) with
      | Return col =>
          let '(rest', e) := fill_paths s rest in
          (with_fill c col :: rest', e)
      | Throw e => (c :: rest, Some e)
      end
  end.

(** [setCounties(countiesFeatures, map, path, breaksArray)]: the data join
    is by index.  The county paths the svg already has are bound to the
    features at their positions and keep their fill and their tag; the
    entering paths are those of the features beyond them, and only these
    are styled. *)
Definition setCounties (countiesFeatures : list Feature)
    (breaksArray : list Qc) : M unit :=
  fun wd =>
    let s := app wd in
    let old := rebind (counties (page wd)) countiesFeatures in
    let entering := map new_path (drop (length old) countiesFeatures) in
    let '(filled, err) := fill_paths s entering in
    match err with
    | Some e =>
        (with_page (set_counties (old ++ filled)) wd, Throw e)
    | None =>
        let tagged :=
          map (fun c =>
                 with_tag c (county_data_break s breaksArray (feature c)))
              filled in
        (with_page (set_counties (old ++ tagged)) wd, Return tt)
    end.

(** ** js/chart.js *)

(** [formatDisplay] of the break handlers. *)
Definition formatDisplay (s : AppState) (v : jsval) : string :=
  if isRatioField s then (formatNumber v ++ ":1")%string
  else formatNumber v.

(** [setChart], as far as the circles of the breaks go: one circle per
    break, filled by the scale passed in. *)
Definition setChart (sc : option ThresholdScale) (breaksArray : list Qc)
  : M unit :=
  match sc, breaksArray with
  | None, _ :: _ =>
      modify (with_page (set_chart
        (Some (map (fun b => (b, None)) breaksArray))));;
      throw TypeError
  | None, [] => modify (with_page (set_chart (Some [])))
  | Some scale, _ =>
      modify (with_page (set_chart
        (Some (map (fun b => (b, scale_apply scale (Fin b))) breaksArray))))
  end.

(** ** js/data.js: [callback], [createDropdown], [updateVis] *)

(** The loaded files: the rows and the header of the table and the county
    features. *)
Record Data : Type := {
  csvData : list row;
  columns : list string;
  countiesFeatures : list Feature
}.

Definition createDropdown : M unit :=
  wd ← get;
  modify (with_page (set_dropdown (Some (attrArray (app wd))))).

Definition is_falsy (e : option string) : bool :=
  match e with
  | None | Some EmptyString => true
  | Some _ => false
  end.

(** The first part of [callback]: the numeric columns, the selected
    column, the ratio flag and the parsed rows with their lookup.  It
    returns the rows as the loop leaves them. *)
Definition prepare (ext : Externals) (data : Data) : M (list row) :=
  let first := head (csvData data) in
  (* identify numeric columns *)
  attrs ← filterM (is_numeric_column ext first) (columns data);
  modify (with_app (set_attrArray attrs));;
  wd ← get;
  (if is_falsy (expressed (app wd))
   then modify (with_app (set_expressed (head attrs)))
   else ret tt);;
  wd ← get;
  let key := key_of (expressed (app wd)) in
  (* check for ratio-style values *)
  cell ← match first with
         | Some r => toString ext (prop_get r key)
         | None => throw TypeError
         end;
  modify (with_app (set_isRatioField (includes_colon cell)));;
  (* parse values and build lookup *)
  modify (with_app (set_healthByCounty ∅));;
  parse_rows ext key (csvData data).

(** The last part of [callback]: states, counties, chart, dropdown. *)
Definition render (data : Data) (breaksArray : list Qc) : M unit :=
  (* draw states *)
  modify (with_page (fun p => set_statesPaths (S (statesPaths p)) p));;
  (* draw counties *)
  setCounties (countiesFeatures data) breaksArray;;
  (* draw chart + dropdown *)
  wd ← get;
  setChart (colorScale (app wd)) breaksArray;;
  createDropdown.

Definition callback (ext : Externals) (data : Data) : M unit :=
  parsed ← prepare ext data;
  wd ← get;
  let key := key_of (expressed (app wd)) in
  (* filter and sort numeric values *)
  let expressedValues := expressedValues_of key parsed in
  (* create color scale and breaks *)
  breaksArray ← classify ext key expressedValues;
  render data breaksArray.

(** [setMap]: a new, empty map svg of the size of its container, then
    [callback] on the loaded files. *)
Definition setMap (ext : Externals) (size : Qc * Qc) (data : Data)
  : M unit :=
  modify (with_page (fun p =>
    {| globalNames := globalNames p; viewBox := size; alerts := alerts p;
       warnings := warnings p; statesPaths := 0; counties := [];
       callouts := []; chart := chart p; dropdown := dropdown p |}));;
  callback ext data.

(** [updateVis]: both svgs are removed and the map is rebuilt. *)
Definition updateVis (ext : Externals) (size : Qc * Qc) (data : Data)
  : M unit :=
  modify (with_page (set_chart None));;
  setMap ext size data.

(** The change handler of the dropdown. *)
Definition dropdown_change (ext : Externals) (size : Qc * Qc) (data : Data)
    (selected : string) : M unit :=
  modify (with_app (set_expressed (Some selected)));;
  updateVis ext size data.

(** ** js/map.js: [highlightCounties], [unhighlightCounties] *)

Definition F (z : Z) : jsnum := Fin (zq z).

(** [d3.select(this).attr("data-break") == breakValue]: the attribute is
    the text of a number, "overflow", "none", or absent; the loose
    comparison with the numeric break turns the text back into a number. *)
Definition tag_matches (breakValue : Qc) (c : CountyPath) : bool :=
  match data_break c with
  | Some (TagBreak b) => qeqb b breakValue
  | _ => false
  end.

(** The radius walk: from 60 down in steps of 5 while above 10, leaving
    at the first point inside the padded view box.  The result is the last
    point computed. *)
Fixpoint seed_walk (fuel : nat) (radius : Z) (c : jsnum * jsnum)
    (cosA sinA : Qc) (maxX maxY : Qc) (last : option (jsnum * jsnum))
  : option (jsnum * jsnum) :=
  match fuel with
  | O => last
  | S fuel' =>
      if 10 <? radius then
        let px := js_add (fst c) (js_mul (F radius) (Fin cosA)) in
        let py := js_add (snd c) (js_mul (F radius) (Fin sinA)) in
        let padding := F 10 in
        if js_ge px padding && js_le px (js_sub (Fin maxX) padding)
           && js_ge py padding && js_le py (js_sub (Fin maxY) padding)
        then Some (px, py)
        else seed_walk fuel' (radius - 5) c cosA sinA maxX maxY
                       (Some (px, py))
      else last
  end.

(** The angle of the i-th highlighted county, [(i - 1.5) * 12]. *)
Definition seed_angle (i : nat) : Qc :=
  qmul (qsub (zq (Z.of_nat i)) (num (3 # 2))) (zq 12).

(** The seed of the label of the i-th highlighted county. *)
Definition seed_position (ext : Externals) (size : Qc * Qc) (i : nat)
    (c : jsnum * jsnum) : jsnum * jsnum :=
  let angle := seed_angle i in
  let '(maxX, maxY) := size in
  let padding := F 10 in
  let walked :=
    seed_walk 11 60 c (cosDeg ext angle) (sinDeg ext angle) maxX maxY None in
  let px := match walked with Some p => fst p | None => NaN end in
  let py := match walked with Some p => snd p | None => NaN end in
  (js_max padding (js_min px (js_sub (Fin maxX) padding)),
   js_max padding (js_min py (js_sub (Fin maxY) padding))).

(** The text shown for a value that is kept as it is. *)
Definition display_text (ext : Externals) (v : jsval) : string :=
  match v with
  | VStr s => s
  | VNum n => number_to_string ext n
  | VUndef => "undefined"%string
  end.

(** The body of [highlighted.each]: the label pushed for the i-th
    highlighted county, if any. *)
Definition label_of (ext : Externals) (s : AppState) (size : Qc * Qc)
    (i : nat) (c : CountyPath) : option Label :=
  let name := NAME (feature c) in
  let rawValue :=
    match healthByCounty s !! name with
    | Some record => prop_get record (key_of (expressed s))
    | None => VUndef
    end in
  match rawValue with
  | VUndef => None
  | _ =>
      if is_not_empty_string rawValue then
        let shown :=
          if isNaN (to_number rawValue) then display_text ext rawValue
          else formatNumber rawValue in
        let p := seed_position ext size i (centroid (feature c)) in
        Some {| countyName := name; value := shown;
                anchor := centroid (feature c); x := fst p; y := snd p |}
      else None
  end.

Definition labelData_of (ext : Externals) (s : AppState) (size : Qc * Qc)
    (highlighted : list CountyPath) : list Label :=
  omap (fun ic => label_of ext s size (fst ic) (snd ic))
       (imap (fun i c => (i, c)) highlighted).

Definition new_callout (d : Label) : Callout :=
  {| line_end := (x d, y d); label := d; bubble := None |}.

(** [highlightCounties(breakValue)]: the matching paths glow and are
    raised to the end of the svg, the labels are seeded and relaxed, and a
    leader line and a label group are appended for each. *)
Definition highlightCounties (ext : Externals) (breakValue : Qc) : M unit :=
  wd ← get;
  let all := counties (page wd) in
  let highlighted := filter (fun c => tag_matches breakValue c = true) all in
  let others := filter (fun c => tag_matches breakValue c = false) all in
  modify (with_page (set_counties
    (others ++ map (fun c => with_glowing c true) highlighted)));;
  let labelData :=
    labelData_of ext (app wd) (viewBox (page wd)) highlighted in
  let placed := simulate250 ext labelData in
  modify (with_page (fun p =>
    set_callouts (callouts p ++ map new_callout placed) p)).

(** [bubbleWidth]: the wider of the two texts plus the bubble padding on
    both sides. *)
Definition bubbleWidth_of (ext : Externals) (d : Label) : Qc :=
  let textW := qmax (textWidth ext (countyName d)) (textWidth ext (value d)) in
  let bubblePadding := zq 6 in
  qadd textW (qmul bubblePadding (zq 2)).

(** The deferred part of a label, run on the next animation frame: the
    bubble is sized from the two texts and the label is clamped again. *)
Definition reclamp (ext : Externals) (size : Qc * Qc) (d : Label)
  : Label * Rect :=
  let bubbleWidth := Fin (bubbleWidth_of ext d) in
  let bubbleHeight := F 28 in
  let padding := F 6 in
  let maxX := Fin (fst size) in
  let maxY := Fin (snd size) in
  let half_w := js_div bubbleWidth (F 2) in
  let half_h := js_div bubbleHeight (F 2) in
  let x' := js_max (js_add half_w padding)
                   (js_min (x d) (js_sub (js_sub maxX half_w) padding)) in
  let y' := js_max (js_add half_h padding)
                   (js_min (y d) (js_sub (js_sub maxY half_h) padding)) in
  ({| countyName := countyName d; value := value d; anchor := anchor d;
      x := x'; y := y' |},
   {| rect_x := js_sub x' half_w; rect_y := js_sub y' (F 16);
      rect_width := bubbleWidth; rect_height := bubbleHeight |}).

Definition frame_callout (ext : Externals) (size : Qc * Qc) (c : Callout)
  : Callout :=
  match bubble c with
  | Some _ => c
  | None =>
      let '(d, r) := reclamp ext size (label c) in
      {| line_end := line_end c; label := d; bubble := Some r |}
  end.

Definition animationFrame (ext : Externals) : M unit :=
  modify (with_page (fun p =>
    set_callouts (map (frame_callout ext (viewBox p)) (callouts p)) p)).

Definition unhighlightCounties : M unit :=
  modify (with_page (fun p =>
    set_callouts []
      (set_counties (map (fun c => with_glowing c false) (counties p)) p))).

(** ** The contract of [ss.jenks]

    What simple-statistics documents for [ss.jenks(data, k)]: k + 1 class
    boundaries in ascending order, the last one being the largest datum. *)
Definition jenks_contract (data : list Qc) (k : nat) (raw : list Qc) : Prop :=
  length raw = S k /\
  Sorted.StronglySorted Qcle raw /\
  exists top, last raw = Some top /\ top ∈ data /\
              forall v, v ∈ data -> (v <= top)%Qc.

(** No lower class limit of row [i] is beyond [i]. *)
Definition lc_bounded (lc : SS.matrix nat) : Prop :=
  forall i j, (SS.mget 0%nat lc i j <= i)%nat.

(** The number of target classes of the natural-breaks branch. *)
Definition numBreaks_of (expressedValues : list Qc) : nat :=
  Nat.min 9 (length (set_values expressedValues) - 1).

(** The alert of [callback] for a column without two finite values. *)
Definition insufficient_message (key : string) : string :=
  ("Not enough valid data for " ++ dquote ++ key ++ dquote)%string.

(** ** A runnable environment and sample tables

    The clustering routine of the library, one seed direction for all
    angles, no relaxation, six units of width per character. *)
Definition sample_env : Externals :=
  {| ss_jenks := SS.jenks;
     cosDeg := fun _ => zq 1;
     sinDeg := fun _ => zq 0;
     simulate250 := fun labels => labels;
     textWidth := fun s => zq (6 * Z.of_nat (String.length s));
     fractionToString := fun _ => "?"%string |}.

(** The state of js/main.js as the module leaves it, on a page with the
    globals of the three libraries and an empty 400 by 300 map. *)
Definition initial_world : World :=
  {| app := {| colorScale := None; healthByCounty := ∅; attrArray := [];
               expressed := None; isRatioField := false |};
     page := {| globalNames := ["d3"; "ss"; "topojson"]%string;
                viewBox := (zq 400, zq 300); alerts := []; warnings := [];
                statesPaths := 0; counties := []; callouts := [];
                chart := None; dropdown := None |} |}.

Definition table_row (county rate note : string) : row :=
  <["county"%string := VStr county]>
    (<["rate"%string := VStr rate]> (<["note"%string := VStr note]> ∅)).

Definition county_at (name : string) (cx cy : Z) : Feature :=
  {| NAME := name; centroid := (F cx, F cy) |}.

Definition sample_features : list Feature :=
  [county_at "Adams" 100 100; county_at "Brown" 200 100;
   county_at "Clark" 300 100; county_at "Dane" 100 200;
   county_at "Eau Claire" 200 200; county_at "Forest" 300 200;
   county_at "Grant" 50 50]%string.

(** Seven counties: an empty cell, five numbers, a cell that is no
    number.  The column "note" has one number only. *)
Definition sample_data : Data :=
  {| csvData :=
       [table_row "Adams" "" "7"; table_row "Brown" "1" "low";
        table_row "Clark" "2" "low"; table_row "Dane" "3" "mid";
        table_row "Eau Claire" "4" "mid"; table_row "Forest" "5" "high";
        table_row "Grant" "n/a" "high"]%string;
     columns := ["county"; "rate"; "note"]%string;
     countiesFeatures := sample_features |}.

(** The sample of the specification for the quantile branch: 3, 3, 3,
    5. *)
Definition few_values_data : Data :=
  {| csvData :=
       [table_row "Adams" "3" ""; table_row "Brown" "3" "";
        table_row "Clark" "3" ""; table_row "Dane" "5" ""]%string;
     columns := ["county"; "rate"]%string;
     countiesFeatures := sample_features |}.

(** ** Statements that leave the page alone *)

(** The page and the installed colour scale are the same in both
    worlds. *)
Definition same_page_and_scale (wd wd' : World) : Prop :=
  page wd' = page wd /\ colorScale (app wd') = colorScale (app wd).

(** A statement that writes neither to the page nor to the colour
    scale. *)
Definition quiet {A} (m : M A) : Prop :=
  forall wd, same_page_and_scale wd (fst (m wd)).

(** The lookup [parse_rows] builds: each row under its county, later rows
    over earlier ones. *)
Definition lookup_of (ext : Externals) (parsed : list row)
    (start : gmap string row) : gmap string row :=
  fold_left (fun m d => <[county_key ext d := d]> m) parsed start.

(** The sample of the specification, 1, 2, 3, 4, 4, 5, 6, 7, 8, 9, 100. *)
Definition spec_sample : list Qc :=
  map zq [1; 2; 3; 4; 4; 5; 6; 7; 8; 9; 100].

(** The rates of the sample table, 0 to 5. *)
Definition rate_sample : list Qc := map zq [0; 1; 2; 3; 4; 5].

(** Ten whole numbers in two groups a thousand million apart.  The
    variances of the clustering routine, differences of sums near 10^18,
    cancel in binary64. *)
Definition split_sample : list Qc :=
  map zq [1; 2; 3; 4; 5; 1000000001; 1000000002; 1000000003; 1000000004;
          1000000005].

(** Four small numbers and three times the binary64 number 3 * 2^510,
    whose square is finite and the sum of two such squares is not. *)
Definition flat_sample : list Qc :=
  map zq [1; 2; 3; 4; 3 * 2 ^ 510; 3 * 2 ^ 510; 3 * 2 ^ 510].

(** A state whose lookup has one county, with a number in the selected
    column. *)
Definition one_county (v : Z) : AppState :=
  {| colorScale := None;
     healthByCounty :=
       {[ "Dane"%string := <["rate"%string := VNum (F v)]> ∅ ]};
     attrArray := ["rate"%string]; expressed := Some "rate"%string;
     isRatioField := false |}.

(** ** js/chart.js: the handlers of a break *)

(** [breaksArray.indexOf(d)]; [None] is -1. *)
Fixpoint indexOf (xs : list Qc) (d : Qc) : option nat :=
  match xs with
  | [] => None
  | b :: rest => if qeqb b d then Some 0%nat else S <$> indexOf rest d
  end.

(** [d3.min(values)] of finite numbers; [None] is undefined, for an empty
    array. *)
Definition d3_min (values : list Qc) : option Qc :=
  match values with
  | [] => None
  | v :: rest => Some (fold_left qmin rest v)
  end.

(** [lowerBound] of the mouseover handlers: the smallest value for the
    first break, the break before for the others.  A break that is not in
    the array reads [breaksArray[-2]], undefined. *)
Definition lowerBound_of (breaksArray expressedValues : list Qc) (d : Qc)
  : jsval :=
  match indexOf breaksArray d with
  | Some O =>
      match d3_min expressedValues with
      | Some m => VNum (Fin m)
      | None => VUndef
      end
  | Some (S i) =>
      match breaksArray !! i with
      | Some b => VNum (Fin b)
      | None => VUndef
      end
  | None => VUndef
  end.

(** The text of the tooltip of a break. *)
Definition tooltip_html (s : AppState) (breaksArray expressedValues : list Qc)
    (d : Qc) : string :=
  ("Range: " ++ formatDisplay s (lowerBound_of breaksArray expressedValues d)
   ++ " – " ++ formatDisplay s (VNum (Fin d)))%string.

(** The mouseover and mouseout handlers of a stem or circle, as far as the
    map goes. *)
Definition break_mouseover (ext : Externals) (d : Qc) : M unit :=
  highlightCounties ext d.

Definition break_mouseout : M unit := unhighlightCounties.

(** ** Readings of the model used by the properties *)

(** What [setCounties] draws for a feature under a colour scale, the
    record being looked up as in [county_fill]. *)
Definition drawn_path (s : AppState) (sc : ThresholdScale)
    (breaksArray : list Qc) (f : Feature) : CountyPath :=
  {| feature := f;
     fill := match healthByCounty s !! NAME f with
             | Some record =>
                 scale_apply sc
                   (to_number (prop_get record (key_of (expressed s))))
             | None => Some Gray
             end;
     data_break := Some (county_data_break s breaksArray f);
     glowing := false |}.

(** A county path without its [glowing] class. *)
Definition path_look (c : CountyPath)
  : Feature * option color * option BucketTag :=
  (feature c, fill c, data_break c).

(** The number [callback] makes of the text of a cell. *)
Definition cell_number (s : string) : jsnum :=
  if includes_colon s then parseFloat (split_colon_head s)
  else string_to_number (remove_commas s).

(** ** Readings of the statements of [callback] *)

(** The test of the filter as a function of the column alone. *)
Definition numeric_test (ext : Externals) (first : option row)
    (col : string) : outcome bool :=
  snd (is_numeric_column ext first col initial_world).

Definition is_numeric (ext : Externals) (first : option row)
    (col : string) : bool :=
  match numeric_test ext first col with
  | Return keep => keep
  | Throw _ => false
  end.

(** The row the loop makes of a row of the table. *)
Definition parsed_row (ext : Externals) (key : string) (d : row)
  : outcome row :=
  snd (parse_row ext key d initial_world).

(** The state in which the loop over the rows starts. *)
Definition loop_start (wd : World) (attrs : list string)
    (e : option string) (ratio : bool) : World :=
  {| app := {| colorScale := colorScale (app wd); healthByCounty := ∅;
               attrArray := attrs; expressed := e; isRatioField := ratio |};
     page := page wd |}.

(** ** Invariants of statements *)

(** A statement keeps [I], whether it returns or throws. *)
Definition invariant {A} (I : World -> Prop) (m : M A) : Prop :=
  forall wd, I wd -> I (fst (m wd)).

(** A map under construction for the column [selected]: the view box has
    the size of the container, no callout is drawn, no path glows, and
    there is at most one path per feature. *)
Definition rebuilding (size : Qc * Qc) (n : nat) (selected : string)
    (wd : World) : Prop :=
  expressed (app wd) = Some selected /\
  viewBox (page wd) = size /\
  callouts (page wd) = [] /\
  Forall (fun c => glowing c = false) (counties (page wd)) /\
  (length (counties (page wd)) <= n)%nat.

(** ** Texts of digits *)

Definition is_digit (c : ascii) : bool :=
  let n := nat_of_ascii c in (48 <=? n)%nat && (n <=? 57)%nat.

Fixpoint all_digits (s : string) : bool :=
  match s with
  | EmptyString => true
  | String c r => is_digit c && all_digits r
  end.

(** ** A drawn sample map *)

(** The scale of the sample table: five breaks, six reds. *)
Definition sample_scale : ThresholdScale :=
  {| domain := map zq [1; 2; 3; 4; 5];
     range := map (SchemeReds 6) (seq 0 6) |}.

(** A state with that scale whose lookup has one county, with the number
    [n] in the selected column, on the empty page. *)
Definition scaled_world (n : jsnum) : World :=
  {| app := {| colorScale := Some sample_scale;
               healthByCounty :=
                 {[ "Dane"%string := <["rate"%string := VNum n]> ∅ ]};
               attrArray := ["rate"%string]; expressed := Some "rate"%string;
               isRatioField := false |};
     page := page initial_world |}.

(** The same with the paths of the sample features drawn. *)
Definition painted_world (n : jsnum) : World :=
  with_page
    (set_counties
       (map (drawn_path (app (scaled_world n)) sample_scale
                        (domain sample_scale))
            sample_features))
    (scaled_world n).

(** Case analysis on the bits of a character. *)
Ltac ascii_cases c :=
  destruct c as [[] [] [] [] [] [] [] []]; try discriminate; try reflexivity.

(** Closing goals about explicit lists of numbers. *)
Ltac list_facts :=
  repeat match goal with
  | |- StronglySorted _ _ => constructor
  | |- Forall _ _ => constructor
  | |- (_ < _)%Qc => reflexivity
  | |- (_ <= _)%Qc => discriminate
  | |- _ ∈ _ :: _ => first [ apply list_elem_of_here | apply list_elem_of_further ]
  end.


(** Turning a comparison of finite numbers into one of fractions. *)
Ltac to_Q :=
  unfold Qcle, Qclt, qadd, qsub, qmul, qdiv, qopp, zq, num in *;
  cbn [this] in *;
  rewrite ?Qred_correct in *;
  unfold inject_Z, Qdiv in *;
  change (Qinv (2 # 1)) with (1 # 2)%Q in *.

(** * Properties *)


(** ** Order on finite numbers *)

Lemma qleb_le (x y : Qc) : qleb x y = true <-> (x <= y)%Qc.
Proof.
  unfold qleb. rewrite Qcle_alt.
  destruct (x ?= y)%Qc; split; intros; congruence.
Qed.

Lemma qltb_lt (x y : Qc) : qltb x y = true <-> (x < y)%Qc.
Proof.
  unfold qltb. rewrite Qclt_alt.
  destruct (x ?= y)%Qc; split; intros; congruence.
Qed.

Lemma qeqb_eq (x y : Qc) : qeqb x y = true <-> x = y.
Proof.
  unfold qeqb. rewrite Qceq_alt.
  destruct (x ?= y)%Qc; split; intros; congruence.
Qed.

Lemma qleb_gt (x y : Qc) : qleb x y = false <-> (y < x)%Qc.
Proof.
  split; intros H.
  - apply Qcnot_le_lt. intros Hle. apply qleb_le in Hle. congruence.
  - destruct (qleb x y) eqn:E; [|reflexivity].
    apply qleb_le in E. exfalso. eapply Qclt_not_le; eauto.
Qed.

Lemma existsb_qeqb (x : Qc) (l : list Qc) :
  existsb (qeqb x) l = true <-> x ∈ l.
Proof.
  rewrite existsb_exists, list_elem_of_In. split.
  - intros (y & Hy & E). apply qeqb_eq in E. congruence.
  - intros H. exists x. split; [assumption|]. now apply qeqb_eq.
Qed.

(** ** The values of a Set *)

Lemma set_add_elem (acc : list Qc) (x y : Qc) :
  y ∈ set_add acc x <-> y ∈ acc \/ y = x.
Proof.
  unfold set_add. destruct (existsb (qeqb x) acc) eqn:E.
  - apply existsb_qeqb in E. split; [tauto|]. intros [H | ->]; assumption.
  - rewrite elem_of_app, list_elem_of_singleton. tauto.
Qed.

Lemma fold_set_add_elem (xs acc : list Qc) (y : Qc) :
  y ∈ fold_left set_add xs acc <-> y ∈ acc \/ y ∈ xs.
Proof.
  revert acc. induction xs as [|x xs IH]; intros acc; simpl.
  - rewrite elem_of_nil. tauto.
  - rewrite IH, set_add_elem, elem_of_cons. tauto.
Qed.

Lemma set_values_elem (xs : list Qc) (y : Qc) :
  y ∈ set_values xs <-> y ∈ xs.
Proof.
  unfold set_values. rewrite fold_set_add_elem, elem_of_nil. tauto.
Qed.

Lemma set_add_length (acc : list Qc) (x : Qc) :
  (length (set_add acc x) <= S (length acc))%nat.
Proof.
  unfold set_add. destruct (existsb (qeqb x) acc).
  - lia.
  - rewrite length_app. simpl. lia.
Qed.

Lemma fold_set_add_length (xs acc : list Qc) :
  (length (fold_left set_add xs acc) <= length acc + length xs)%nat.
Proof.
  revert acc. induction xs as [|x xs IH]; intros acc; simpl.
  - lia.
  - specialize (IH (set_add acc x)). pose proof (set_add_length acc x). lia.
Qed.

Lemma set_values_length (xs : list Qc) :
  (length (set_values xs) <= length xs)%nat.
Proof. unfold set_values. pose proof (fold_set_add_length xs []). simpl in *. lia. Qed.

Lemma StronglySorted_snoc_lt (acc : list Qc) (x : Qc) :
  StronglySorted Qclt acc ->
  (forall a, a ∈ acc -> (a < x)%Qc) ->
  StronglySorted Qclt (acc ++ [x]).
Proof.
  induction 1 as [|a l Hl IH Ha]; intros Hx; simpl.
  - repeat constructor.
  - constructor.
    + apply IH. intros b Hb. apply Hx. now right.
    + rewrite Forall_app. split; [assumption|].
      constructor; [|constructor]. apply Hx. now left.
Qed.

Lemma fold_set_add_sorted (xs acc : list Qc) :
  StronglySorted Qclt acc ->
  StronglySorted Qcle xs ->
  (forall a x, a ∈ acc -> x ∈ xs -> (a <= x)%Qc) ->
  StronglySorted Qclt (fold_left set_add xs acc).
Proof.
  revert acc. induction xs as [|x xs IH]; intros acc Hacc Hxs Hle; simpl.
  - assumption.
  - apply StronglySorted_inv in Hxs as [Hxs Hx].
    rewrite Forall_forall in Hx.
    apply IH; [|assumption|].
    + unfold set_add. destruct (existsb (qeqb x) acc) eqn:E; [assumption|].
      apply StronglySorted_snoc_lt; [assumption|].
      intros a Ha.
      assert (Hax : (a <= x)%Qc) by (apply Hle; [assumption | now left]).
      apply Qcle_lt_or_eq in Hax as [Hlt | Heq]; [assumption|].
      subst a. apply existsb_qeqb in Ha. congruence.
    + intros a y Ha Hy. apply set_add_elem in Ha as [Ha | ->].
      * apply Hle; [assumption | now right].
      * now apply Hx.
Qed.

Lemma set_values_sorted (xs : list Qc) :
  StronglySorted Qcle xs -> StronglySorted Qclt (set_values xs).
Proof.
  intros H. apply fold_set_add_sorted; [constructor | assumption |].
  intros a x Ha. now apply elem_of_nil in Ha.
Qed.

(** ** Sorted lists and positions *)

Lemma sorted_lookup_lt (l : list Qc) (i j : nat) (a b : Qc) :
  StronglySorted Qclt l -> (i < j)%nat ->
  l !! i = Some a -> l !! j = Some b -> (a < b)%Qc.
Proof.
  intros Hs. revert i j. induction Hs as [|x l Hl IH Hx]; intros i j Hij Hi Hj.
  - discriminate.
  - destruct j as [|j]; [lia|]. simpl in Hj.
    destruct i as [|i]; simpl in Hi.
    + injection Hi as ->. rewrite Forall_forall in Hx. apply Hx.
      eapply list_elem_of_lookup_2; eauto.
    + eapply IH; [|eassumption..]. lia.
Qed.

Lemma sorted_lookup_le (l : list Qc) (i j : nat) (a b : Qc) :
  StronglySorted Qcle l -> (i <= j)%nat ->
  l !! i = Some a -> l !! j = Some b -> (a <= b)%Qc.
Proof.
  intros Hs. revert i j. induction Hs as [|x l Hl IH Hx]; intros i j Hij Hi Hj.
  - discriminate.
  - destruct i as [|i]; simpl in Hi.
    + injection Hi as ->. destruct j as [|j]; simpl in Hj.
      * injection Hj as ->. apply Qcle_refl.
      * rewrite Forall_forall in Hx. apply Hx.
        eapply list_elem_of_lookup_2; eauto.
    + destruct j as [|j]; [lia|]. simpl in Hj.
      eapply IH; [|eassumption..]. lia.
Qed.

Lemma sorted_lt_le (l : list Qc) :
  StronglySorted Qclt l -> StronglySorted Qcle l.
Proof.
  induction 1 as [|x l Hl IH Hx]; constructor; [assumption|].
  eapply Forall_impl; [eassumption|]. intros y. apply Qclt_le_weak.
Qed.

(** In a strictly increasing list an upper bound that occurs is the last
    entry. *)
Lemma sorted_last_max (l : list Qc) (top : Qc) :
  StronglySorted Qclt l -> top ∈ l ->
  (forall b, b ∈ l -> (b <= top)%Qc) ->
  last l = Some top.
Proof.
  induction 1 as [|x l Hl IH Hx]; intros Hin Hmax.
  - now apply elem_of_nil in Hin.
  - destruct l as [|y l'].
    + apply list_elem_of_singleton in Hin. now subst.
    + change (last (x :: y :: l')) with (last (y :: l')).
      apply IH.
      * apply elem_of_cons in Hin as [-> | Hin]; [|assumption].
        exfalso. rewrite Forall_forall in Hx.
        assert (Hlt : (top < y)%Qc) by (apply Hx; now left).
        assert (Hle : (y <= top)%Qc) by (apply Hmax; right; now left).
        eapply Qclt_not_le; eauto.
      * intros b Hb. apply Hmax. now right.
Qed.

(** ** The loop over the breaks *)

Lemma js_le_fin (x y : Qc) : js_le (Fin x) (Fin y) = qleb x y.
Proof. reflexivity. Qed.

Lemma scan_breaks_break (value : jsnum) (breaksArray : list Qc) (b : Qc) :
  scan_breaks value breaksArray = TagBreak b <->
  exists i, breaksArray !! i = Some b /\ js_le value (Fin b) = true /\
    forall j b', (j < i)%nat -> breaksArray !! j = Some b' ->
                 js_le value (Fin b') = false.
Proof.
  induction breaksArray as [|b0 rest IH]; simpl.
  - split; [discriminate|]. intros (i & Hi & _). discriminate.
  - destruct (js_le value (Fin b0)) eqn:E.
    + split.
      * intros [= <-]. exists 0%nat. repeat split; [assumption|]. intros; lia.
      * intros (i & Hi & Hle & Hbefore). destruct i as [|i].
        -- simpl in Hi. congruence.
        -- specialize (Hbefore 0%nat b0 ltac:(lia) eq_refl). congruence.
    + rewrite IH. split.
      * intros (i & Hi & Hle & Hbefore). exists (S i).
        repeat split; [assumption..|].
        intros [|j] b' Hj Hb'; simpl in Hb'.
        -- congruence.
        -- eapply Hbefore; [|eassumption]. lia.
      * intros (i & Hi & Hle & Hbefore). destruct i as [|i].
        -- simpl in Hi. congruence.
        -- exists i. repeat split; [assumption..|].
           intros j b' Hj Hb'. apply (Hbefore (S j) b'); [lia | assumption].
Qed.

Lemma scan_breaks_overflow (value : jsnum) (breaksArray : list Qc) :
  scan_breaks value breaksArray = TagOverflow <->
  forall b, b ∈ breaksArray -> js_le value (Fin b) = false.
Proof.
  induction breaksArray as [|b0 rest IH]; simpl.
  - split; [|reflexivity]. intros _ b Hb. now apply elem_of_nil in Hb.
  - destruct (js_le value (Fin b0)) eqn:E.
    + split; [discriminate|]. intros H.
      specialize (H b0 ltac:(now left)). congruence.
    + rewrite IH. split.
      * intros H b Hb. apply elem_of_cons in Hb as [-> | Hb]; auto.
      * intros H b Hb. apply H. now right.
Qed.

Lemma scan_breaks_not_none (value : jsnum) (breaksArray : list Qc) :
  scan_breaks value breaksArray <> TagNone.
Proof.
  induction breaksArray as [|b0 rest IH]; simpl; [discriminate|].
  destruct (js_le value (Fin b0)); [discriminate | assumption].
Qed.

Lemma scan_breaks_boundary (breaksArray : list Qc) (i : nat) (b : Qc) :
  StronglySorted Qclt breaksArray -> breaksArray !! i = Some b ->
  scan_breaks (Fin b) breaksArray = TagBreak b.
Proof.
  intros Hs Hi. apply scan_breaks_break. exists i.
  repeat split; [assumption | |].
  - rewrite js_le_fin. apply qleb_le, Qcle_refl.
  - intros j b' Hj Hb'. rewrite js_le_fin. apply qleb_gt.
    eapply sorted_lookup_lt; eauto.
Qed.

(** A value below or at some break is tagged with a break at or above
    it. *)
Lemma scan_breaks_bounded (v : Qc) (breaksArray : list Qc) (top : Qc) :
  top ∈ breaksArray -> (v <= top)%Qc ->
  exists b, b ∈ breaksArray /\ scan_breaks (Fin v) breaksArray = TagBreak b
            /\ (v <= b)%Qc.
Proof.
  intros Hin Hle.
  destruct (scan_breaks (Fin v) breaksArray) as [b| |] eqn:E.
  - exists b. pose proof E as E'.
    apply scan_breaks_break in E' as (i & Hi & Hb & _).
    repeat split.
    + eapply list_elem_of_lookup_2; eauto.
    + rewrite js_le_fin in Hb. now apply qleb_le.
  - exfalso. rewrite scan_breaks_overflow in E.
    specialize (E top Hin). rewrite js_le_fin in E.
    apply qleb_gt in E. eapply Qclt_not_le; eauto.
  - exfalso. eapply scan_breaks_not_none; eauto.
Qed.

Lemma county_data_break_value (s : AppState) (breaksArray : list Qc)
    (f : Feature) (record : row) (value : jsnum) :
  healthByCounty s !! NAME f = Some record ->
  to_number (prop_get record (key_of (expressed s))) = value ->
  isNaN value = false ->
  county_data_break s breaksArray f = scan_breaks value breaksArray.
Proof.
  intros Hrec Hval Hnan. unfold county_data_break.
  rewrite Hrec, Hval, Hnan. reflexivity.
Qed.

(** C4. For a region whose record holds a valid number and for any breaks,
    the [data-break] callback walks the breaks in index order and returns
    the first break at or above the value, "overflow" when there is none,
    and never "none"; a value equal to a break of a strictly increasing
    break set is tagged with that very break; the tag depends on nothing
    but the value and the breaks. *)
Theorem assignBucket_first_break_at_or_above
    (s : AppState) (breaksArray : list Qc) (f : Feature) (record : row)
    (value : jsnum) :
  healthByCounty s !! NAME f = Some record ->
  to_number (prop_get record (key_of (expressed s))) = value ->
  isNaN value = false ->
  (forall b, county_data_break s breaksArray f = TagBreak b <->
     exists i, breaksArray !! i = Some b /\ js_le value (Fin b) = true /\
       forall j b', (j < i)%nat -> breaksArray !! j = Some b' ->
                    js_le value (Fin b') = false) /\
  (county_data_break s breaksArray f = TagOverflow <->
     forall b, b ∈ breaksArray -> js_le value (Fin b) = false) /\
  county_data_break s breaksArray f <> TagNone /\
  (forall i b, StronglySorted Qclt breaksArray ->
     breaksArray !! i = Some b -> value = Fin b ->
     county_data_break s breaksArray f = TagBreak b) /\
  (forall s' f' record',
     healthByCounty s' !! NAME f' = Some record' ->
     to_number (prop_get record' (key_of (expressed s'))) = value ->
     county_data_break s' breaksArray f' = county_data_break s breaksArray f).
Proof.
  intros Hrec Hval Hnan.
  rewrite (county_data_break_value s breaksArray f record value) by assumption.
  repeat split.
  - apply scan_breaks_break.
  - apply scan_breaks_break.
  - apply scan_breaks_overflow.
  - apply scan_breaks_overflow.
  - apply scan_breaks_not_none.
  - intros i b Hs Hi ->. eapply scan_breaks_boundary; eauto.
  - intros s' f' record' Hrec' Hval'.
    now apply county_data_break_value with (record := record').
Qed.

(** ** Sorted lists *)

Lemma sorted_le_last (raw : list Qc) (top b : Qc) :
  StronglySorted Qcle raw -> last raw = Some top -> b ∈ raw ->
  (b <= top)%Qc.
Proof.
  intros Hs Hlast Hb. rewrite last_lookup in Hlast.
  apply list_elem_of_lookup in Hb as [i Hi].
  eapply sorted_lookup_le; [eassumption | | eassumption..].
  apply lookup_lt_Some in Hi. lia.
Qed.

Lemma sorted_le_drop (n : nat) (l : list Qc) :
  StronglySorted Qcle l -> StronglySorted Qcle (drop n l).
Proof.
  intros H. revert n. induction H as [|x l Hl IH Hx]; intros [|n]; simpl.
  - constructor.
  - constructor.
  - now constructor.
  - apply IH.
Qed.

Lemma last_drop_1 (l : list Qc) (top : Qc) :
  (2 <= length l)%nat -> last l = Some top -> last (drop 1 l) = Some top.
Proof.
  destruct l as [|a [|b l]]; simpl; intros Hlen Hlast; try lia.
  exact Hlast.
Qed.

(** ** Sorting *)

Lemma insert_asc_elem (x y : Qc) (xs : list Qc) :
  y ∈ insert_asc x xs <-> y = x \/ y ∈ xs.
Proof.
  induction xs as [|z zs IH]; simpl.
  - rewrite list_elem_of_singleton, elem_of_nil. tauto.
  - destruct (qleb x z).
    + rewrite !elem_of_cons. tauto.
    + rewrite !elem_of_cons, IH. tauto.
Qed.

Lemma insert_asc_sorted (x : Qc) (xs : list Qc) :
  StronglySorted Qcle xs -> StronglySorted Qcle (insert_asc x xs).
Proof.
  induction 1 as [|z zs Hzs IH Hz]; simpl.
  - repeat constructor.
  - destruct (qleb x z) eqn:E.
    + apply qleb_le in E. constructor; [now constructor|].
      constructor; [assumption|].
      eapply Forall_impl; [exact Hz|]. intros y Hy.
      eapply Qcle_trans; eauto.
    + apply qleb_gt in E. constructor; [assumption|].
      rewrite Forall_forall in Hz |- *. intros y Hy.
      apply insert_asc_elem in Hy as [-> | Hy]; [|now apply Hz].
      now apply Qclt_le_weak.
Qed.

Lemma sort_asc_elem (xs : list Qc) (y : Qc) : y ∈ sort_asc xs <-> y ∈ xs.
Proof.
  induction xs as [|x xs IH]; simpl; [tauto|].
  rewrite insert_asc_elem, IH, elem_of_cons. tauto.
Qed.

Lemma sort_asc_sorted (xs : list Qc) : StronglySorted Qcle (sort_asc xs).
Proof.
  induction xs as [|x xs IH]; simpl; [constructor|].
  now apply insert_asc_sorted.
Qed.

(** ** The clustering routine meets its contract wherever it returns *)

Lemma fold_left_invariant {S A} (P : S -> Prop) (f : S -> A -> S)
    (xs : list A) (s : S) :
  P s -> (forall s' a, a ∈ xs -> P s' -> P (f s' a)) ->
  P (fold_left f xs s).
Proof.
  revert s. induction xs as [|a xs IH]; intros s Hs Hf; simpl; [assumption|].
  apply IH.
  - apply Hf; [now left | assumption].
  - intros s' b Hb. apply Hf. now right.
Qed.

Lemma mget_mset_cases {A} (d : A) (m : SS.matrix A) (i j : nat) (x : A)
    (i' j' : nat) :
  SS.mget d (SS.mset m i j x) i' j' = SS.mget d m i' j' \/
  (i' = i /\ SS.mget d (SS.mset m i j x) i' j' = x).
Proof.
  unfold SS.mget, SS.mset. rewrite !nth_lookup.
  destruct (decide (i' = i)) as [-> | Hne].
  - rewrite list_lookup_alter_eq.
    destruct (m !! i) as [r|] eqn:Er; simpl; [|now left].
    destruct (decide (j' = j)) as [-> | Hj].
    + destruct (decide (j < length r)%nat) as [Hlt | Hge].
      * right. split; [reflexivity|].
        now rewrite list_lookup_insert_eq.
      * left. rewrite list_insert_ge by lia. reflexivity.
    + left. now rewrite list_lookup_insert_ne.
  - left. now rewrite list_lookup_alter_ne.
Qed.

Lemma lc_bounded_mset (lc : SS.matrix nat) (i j v : nat) :
  lc_bounded lc -> (v <= i)%nat -> lc_bounded (SS.mset lc i j v).
Proof.
  intros Hlc Hv i' j'.
  destruct (mget_mset_cases 0%nat lc i j v i' j') as [-> | [-> ->]];
    [apply Hlc | assumption].
Qed.

Lemma lc_bounded_zero (n k : nat) :
  lc_bounded (replicate n (replicate k 0%nat)).
Proof.
  intros i j. unfold SS.mget. rewrite !nth_lookup.
  destruct (replicate n (replicate k 0%nat) !! i) as [r|] eqn:Er; simpl.
  - apply lookup_replicate in Er as [-> _].
    destruct (replicate k 0%nat !! j) as [v|] eqn:Ev; simpl; [|lia].
    apply lookup_replicate in Ev as [-> _]. lia.
  - destruct j; simpl; lia.
Qed.

Lemma init_matrices_bounded (n k : nat) :
  lc_bounded (fst (SS.init_matrices n k)).
Proof.
  unfold SS.init_matrices.
  apply (fold_left_invariant (fun st => lc_bounded (fst st))).
  - apply lc_bounded_zero.
  - intros [lc vc] i _ Hlc. simpl in *. apply lc_bounded_mset; [assumption|lia].
Qed.

Lemma step_j_bounded (l i4 lowerClassLimit : nat) (var : B64.float)
    (st : SS.matrix nat * SS.matrix B64.float) (j : nat) :
  (lowerClassLimit <= l)%nat -> lc_bounded (fst st) ->
  lc_bounded (fst (SS.step_j l i4 lowerClassLimit var st j)).
Proof.
  intros Hl Hlc. destruct st as [lc vc]. unfold SS.step_j.
  destruct (B64.geb _ _); simpl in *; [|assumption].
  now apply lc_bounded_mset.
Qed.

Lemma step_m_bounded (data : list B64.float) (nClasses l : nat)
    (st : SS.matrix nat * SS.matrix B64.float * SS.sums) (m : nat) :
  (1 <= m)%nat -> lc_bounded (fst (fst st)) ->
  lc_bounded (fst (fst (SS.step_m data nClasses l st m))).
Proof.
  intros Hm Hlc. destruct st as [[lc vc] acc]. unfold SS.step_m.
  destruct (l - m + 1 - 1 =? 0)%nat eqn:E; [assumption|].
  apply Nat.eqb_neq in E.
  match goal with
  | |- context [fold_left ?f ?xs ?s] =>
      pose proof (fold_left_invariant (fun st => lc_bounded (fst st)) f xs s)
        as Hfold;
      destruct (fold_left f xs s) as [lc' vc']
  end.
  simpl in *. apply Hfold; [assumption|].
  intros s' j _ Hs'. apply step_j_bounded; [lia | assumption].
Qed.

Lemma step_l_bounded (data : list B64.float) (nClasses : nat)
    (st : SS.matrix nat * SS.matrix B64.float * B64.float) (l : nat) :
  (1 <= l)%nat -> lc_bounded (fst (fst st)) ->
  lc_bounded (fst (fst (SS.step_l data nClasses st l))).
Proof.
  intros Hl Hlc. destruct st as [[lc vc] var0]. unfold SS.step_l.
  match goal with
  | |- context [fold_left ?f ?xs ?s] =>
      pose proof (fold_left_invariant
                    (fun st => lc_bounded (fst (fst st))) f xs s) as Hfold;
      destruct (fold_left f xs s) as [[lc' vc'] acc]
  end.
  simpl in *. apply lc_bounded_mset; [|assumption].
  apply Hfold; [assumption|].
  intros s' m Hm Hs'. apply step_m_bounded; [|assumption].
  apply elem_of_seq in Hm. lia.
Qed.

Lemma jenksMatrices_bounded (data : list B64.float) (nClasses : nat) :
  lc_bounded (fst (SS.jenksMatrices data nClasses)).
Proof.
  unfold SS.jenksMatrices.
  match goal with
  | |- context [fold_left ?f ?xs ?s] =>
      pose proof (fold_left_invariant
                    (fun st => lc_bounded (fst (fst st))) f xs s) as Hfold;
      destruct (fold_left f xs s) as [[lc vc] var]
  end.
  simpl in *. apply Hfold.
  - apply init_matrices_bounded.
  - intros s' l Hl Hs'. apply step_l_bounded; [|assumption].
    apply elem_of_seq in Hl. lia.
Qed.

Lemma map_default_Some {A} (d : A) (l : list A) :
  map (default d) (map Some l) = l.
Proof. induction l as [|a l IH]; [reflexivity|]. simpl. now rewrite IH. Qed.

(** Once the walk is at row -1 it throws unless it is over. *)
Lemma jenksBreaks_loop_off (data : list Qc) (lc : SS.matrix nat)
    (countNum : nat) (kclass out : list (option Qc)) :
  SS.jenksBreaks_loop data lc countNum None kclass = Some out ->
  countNum = 0%nat /\ out = kclass.
Proof. destruct countNum; simpl; [intros [= <-]; auto | discriminate]. Qed.

(** The walk back through the class limits: one boundary per class, in
    ascending order, in front of the boundaries it started from; only the
    first can be undefined. *)
Lemma jenksBreaks_loop_spec (data : list Qc) (lc : SS.matrix nat)
    (low : Qc) :
  StronglySorted Qcle data -> lc_bounded lc ->
  (forall v, v ∈ data -> (low <= v)%Qc) ->
  forall (countNum k : nat) (u0 : Qc) (rest : list Qc)
         (out : list (option Qc)),
    (k <= length data)%nat ->
    StronglySorted Qcle (u0 :: rest) ->
    Forall (fun v => (low <= v)%Qc) (u0 :: rest) ->
    (forall i v, (i < k)%nat -> data !! i = Some v -> (v <= u0)%Qc) ->
    SS.jenksBreaks_loop data lc countNum (Some k) (map Some (u0 :: rest))
    = Some out ->
    length out = (countNum + S (length rest))%nat /\
    StronglySorted Qcle (map (default low) out) /\
    last (map (default low) out) = last (u0 :: rest).
Proof.
  intros Hdata Hlc Hlow. induction countNum as [|c IH];
    intros k u0 rest out Hk Hup Hge Hbelow Hrun.
  - change (Some (map Some (u0 :: rest)) = Some out) in Hrun.
    assert (E : map Some (u0 :: rest) = out) by congruence.
    rewrite <- E, length_map, (map_default_Some low). auto.
  - cbn [SS.jenksBreaks_loop] in Hrun. pose proof (Hlc k (S c)) as Hbound.
    destruct (SS.mget 0%nat lc k (S c)) as [|idx].
    + apply jenksBreaks_loop_off in Hrun as [-> ->].
      change (map (default low) (None :: map Some (u0 :: rest)))
        with (low :: map (default low) (map Some (u0 :: rest))).
      change (length (None :: map Some (u0 :: rest)))
        with (S (length (map Some (u0 :: rest)))).
      rewrite length_map, (map_default_Some low).
      split; [reflexivity|]. split; [|reflexivity].
      constructor; [assumption|]. exact Hge.
    + destruct (data !! idx) as [v|] eqn:Ev.
      2:{ apply lookup_ge_None in Ev. lia. }
      apply (IH idx v (u0 :: rest)) in Hrun as (Hlen & Hsorted & Hlast).
      * simpl in Hlen. repeat split; [lia | assumption |].
        rewrite Hlast. reflexivity.
      * apply lookup_lt_Some in Ev. lia.
      * constructor; [assumption|].
        assert (Hv : (v <= u0)%Qc)
          by (apply (Hbelow idx); [lia | assumption]).
        constructor; [assumption|].
        apply StronglySorted_inv in Hup as [_ Hu0].
        eapply Forall_impl; [exact Hu0|]. intros y Hy.
        eapply Qcle_trans; eauto.
      * constructor; [|assumption].
        apply Hlow. eapply list_elem_of_lookup_2; eauto.
      * intros i v' Hi Hv'.
        eapply sorted_lookup_le; [exact Hdata | | exact Hv' | exact Ev]. lia.
Qed.

(** Whenever the routine returns, its result meets the contract of
    [ss.jenks]: the class limits never point beyond their row, whatever
    the rounding of the sums does to the comparisons. *)
Lemma ss_jenks_meets_contract (data : list Qc) (k : nat) (raw : list Qc) :
  data <> [] -> SS.jenks data k = Some raw -> jenks_contract data k raw.
Proof.
  intros Hne. unfold SS.jenks, SS.jenksBreaks.
  destruct (length data <? k)%nat; [discriminate|].
  destruct (last (sort_asc data)) as [top|] eqn:Etop.
  2:{ exfalso. apply last_None in Etop.
      destruct data as [|x xs]; [congruence|].
      assert (Hx : x ∈ sort_asc (x :: xs)) by (apply sort_asc_elem; left).
      rewrite Etop in Hx. inversion Hx. }
  intros Hrun.
  apply fmap_Some in Hrun as (out & Hrun & ->).
  assert (Hmin : forall v, v ∈ sort_asc data ->
                   (default (zq 0) (head (sort_asc data)) <= v)%Qc).
  { intros v Hv. apply list_elem_of_lookup in Hv as [i Hi].
    pose proof (sort_asc_sorted data) as Hs.
    destruct (sort_asc data) as [|d0 ds]; [discriminate|].
    simpl. apply (sorted_lookup_le (d0 :: ds) 0 i d0 v Hs);
      [lia | reflexivity | exact Hi]. }
  apply (jenksBreaks_loop_spec (sort_asc data) _ _ (sort_asc_sorted data)
           (jenksMatrices_bounded _ _) Hmin k (length (sort_asc data)) top [])
    in Hrun as (Hlen & Hsorted & Hlast).
  - split; [rewrite length_map; simpl in Hlen; lia|]. split; [assumption|].
    exists top. split; [assumption|]. split.
    + apply sort_asc_elem. rewrite last_lookup in Etop.
      eapply list_elem_of_lookup_2; eauto.
    + intros v Hv. apply (sorted_le_last (sort_asc data));
        [apply sort_asc_sorted | assumption | now apply sort_asc_elem].
  - lia.
  - repeat constructor.
  - constructor; [|constructor]. apply Hmin.
    rewrite last_lookup in Etop. eapply list_elem_of_lookup_2; eauto.
  - intros i v _ Hv. apply (sorted_le_last (sort_asc data));
      [apply sort_asc_sorted | assumption |].
    eapply list_elem_of_lookup_2; eauto.
Qed.

(** The runnable environment meets the contract wherever its routine
    returns. *)
Lemma sample_env_contract (vs : list Qc) (k : nat) :
  vs <> [] -> is_Some (SS.jenks vs k) ->
  jenks_contract vs k (jenks sample_env vs k).
Proof.
  intros Hne [raw E]. unfold jenks. simpl. rewrite E. simpl.
  now apply ss_jenks_meets_contract.
Qed.

(** ** Natural breaks *)

Lemma natural_breaks_unfold (ext : Externals) (vs : list Qc) :
  natural_breaks ext vs = set_values (slice1 (jenks ext vs (numBreaks_of vs))).
Proof. reflexivity. Qed.

(** What the contract of the clustering gives for [breaksArray]. *)
Lemma natural_breaks_facts (ext : Externals) (vs : list Qc) :
  (5 <= length (set_values vs))%nat ->
  jenks_contract vs (numBreaks_of vs) (jenks ext vs (numBreaks_of vs)) ->
  StronglySorted Qclt (natural_breaks ext vs) /\
  (length (natural_breaks ext vs) <= 9)%nat /\
  exists top, last (natural_breaks ext vs) = Some top /\
    top ∈ natural_breaks ext vs /\ top ∈ vs /\
    forall v, v ∈ vs -> (v <= top)%Qc.
Proof.
  intros HU (Hlen & Hsorted & top & Hlast & Htop & Hmax).
  rewrite natural_breaks_unfold. unfold slice1.
  set (raw := jenks ext vs (numBreaks_of vs)) in *.
  assert (Hk : (4 <= numBreaks_of vs <= 9)%nat) by (unfold numBreaks_of; lia).
  assert (Hs : StronglySorted Qclt (set_values (drop 1 raw)))
    by (apply set_values_sorted, sorted_le_drop, Hsorted).
  assert (Hin : top ∈ set_values (drop 1 raw)).
  { apply set_values_elem.
    assert (Hl : last (drop 1 raw) = Some top)
      by (apply last_drop_1; [lia | assumption]).
    rewrite last_lookup in Hl. eapply list_elem_of_lookup_2; eauto. }
  split; [assumption|]. split.
  - pose proof (set_values_length (drop 1 raw)) as H.
    rewrite length_drop in H. lia.
  - exists top. repeat split; try assumption.
    apply sorted_last_max; [assumption.. |].
    intros b Hb. rewrite set_values_elem in Hb.
    apply (sorted_le_last raw); [assumption.. |].
    exact (subseteq_drop 1 raw b Hb).
Qed.

(** A result that meets the contract is a result: the call returned. *)
Lemma contract_returned (ext : Externals) (vs : list Qc) (k : nat) :
  jenks_contract vs k (jenks ext vs k) -> is_Some (ss_jenks ext vs k).
Proof.
  unfold jenks. intros (Hlen & _).
  destruct (ss_jenks ext vs k) as [raw|]; [eauto | discriminate].
Qed.

(** The routine of the library meets the contract wherever it returns. *)
Lemma library_contract (ext : Externals) (vs : list Qc) (k : nat) :
  ss_jenks ext = SS.jenks -> vs <> [] -> is_Some (SS.jenks vs k) ->
  jenks_contract vs k (jenks ext vs k).
Proof.
  intros E Hne [raw Hraw]. unfold jenks. rewrite E, Hraw. simpl.
  now apply ss_jenks_meets_contract.
Qed.

(** The natural-breaks branch of [classify] returns. *)
Lemma classify_natural (ext : Externals) (key : string) (vs : list Qc)
    (colors : list color) (wd : World) :
  (5 <= length (set_values vs))%nat ->
  is_Some (ss_jenks ext vs (numBreaks_of vs)) ->
  colorRange_of (length (natural_breaks ext vs) + 1) = Some colors ->
  classify ext key vs wd =
    (with_app (set_colorScale
       (Some {| domain := natural_breaks ext vs; range := colors |})) wd,
     Return (natural_breaks ext vs)).
Proof.
  intros HU [raw Hraw] Hcolors.
  assert (Hlen : (5 <= length vs)%nat)
    by (pose proof (set_values_length vs); lia).
  destruct vs as [|v0 [|v1 rest]]; simpl in Hlen; try lia.
  unfold classify.
  destruct (length (set_values (v0 :: v1 :: rest)) <? 5)%nat eqn:E.
  - apply Nat.ltb_lt in E. lia.
  - unfold numBreaks_of in Hraw. rewrite Hraw, Hcolors. reflexivity.
Qed.

(** Where the clustering routine throws, so does the branch. *)
Lemma classify_natural_throws (ext : Externals) (key : string)
    (vs : list Qc) (wd : World) :
  (5 <= length (set_values vs))%nat ->
  ss_jenks ext vs (numBreaks_of vs) = None ->
  classify ext key vs wd = (wd, Throw TypeError).
Proof.
  intros HU Hraw.
  assert (Hlen : (5 <= length vs)%nat)
    by (pose proof (set_values_length vs); lia).
  destruct vs as [|v0 [|v1 rest]]; simpl in Hlen; try lia.
  unfold classify.
  destruct (length (set_values (v0 :: v1 :: rest)) <? 5)%nat eqn:E.
  - apply Nat.ltb_lt in E. lia.
  - unfold numBreaks_of in Hraw. rewrite Hraw. reflexivity.
Qed.

(** With fewer than two distinct breaks [d3.schemeReds] has no entry for
    the number of colours and the branch throws. *)
Lemma classify_natural_no_palette (ext : Externals) (key : string)
    (vs : list Qc) (wd : World) :
  (5 <= length (set_values vs))%nat ->
  (length (natural_breaks ext vs) < 2)%nat ->
  classify ext key vs wd = (wd, Throw TypeError).
Proof.
  intros HU Hfew.
  destruct (ss_jenks ext vs (numBreaks_of vs)) as [raw|] eqn:Hraw;
    [|now apply classify_natural_throws].
  assert (Hlen : (5 <= length vs)%nat)
    by (pose proof (set_values_length vs); lia).
  destruct vs as [|v0 [|v1 rest]]; simpl in Hlen; try lia.
  unfold classify.
  destruct (length (set_values (v0 :: v1 :: rest)) <? 5)%nat eqn:E.
  - apply Nat.ltb_lt in E. lia.
  - unfold numBreaks_of in Hraw. rewrite Hraw.
    unfold colorRange_of, schemeReds.
    set (n := length (natural_breaks ext (v0 :: v1 :: rest))) in *.
    replace (n + 1 <=? 9)%nat with true by (symmetry; apply Nat.leb_le; lia).
    replace (3 <=? n + 1)%nat with false by (symmetry; apply Nat.leb_gt; lia).
    reflexivity.
Qed.

Lemma colorRange_defined (n : nat) :
  (3 <= n)%nat -> exists colors, colorRange_of n = Some colors /\
                                 length colors = n.
Proof.
  intros Hn. unfold colorRange_of, schemeReds.
  destruct (n <=? 9)%nat eqn:E.
  - apply Nat.leb_le in E.
    replace (3 <=? n)%nat with true by (symmetry; apply Nat.leb_le; lia).
    simpl. eexists. split; [reflexivity|].
    now rewrite length_map, length_seq.
  - eexists. split; [reflexivity|]. now rewrite length_map, length_seq.
Qed.

(** C1. For a sample with at least five distinct values on which the
    clustering routine of the library returns and leaves at least two
    distinct boundaries once the first is dropped, [classify] calls the
    routine with min(9, U - 1) classes, drops the first boundary, removes
    repeated boundaries and returns the result, installing the threshold
    scale over it; the break set is strictly increasing and has at most
    nine entries; and every region whose value is a sample value is tagged
    with a break at or above the value, never "overflow" or "none". *)
Theorem classify_natural_breaks_strict_and_total
    (ext : Externals) (key : string) (vs : list Qc) (wd : World) :
  ss_jenks ext = SS.jenks ->
  (5 <= length (set_values vs))%nat ->
  is_Some (SS.jenks vs (numBreaks_of vs)) ->
  (2 <= length (natural_breaks ext vs))%nat ->
  let breaks := natural_breaks ext vs in
  numBreaks_of vs = Nat.min 9 (length (set_values vs) - 1) /\
  breaks = set_values (drop 1 (jenks ext vs (numBreaks_of vs))) /\
  (exists colors,
     length colors = S (length breaks) /\
     classify ext key vs wd =
       (with_app (set_colorScale
          (Some {| domain := breaks; range := colors |})) wd,
        Return breaks)) /\
  StronglySorted Qclt breaks /\
  (length breaks <= 9)%nat /\
  (forall (s : AppState) (f : Feature) (record : row) (v : Qc),
     v ∈ vs ->
     healthByCounty s !! NAME f = Some record ->
     to_number (prop_get record (key_of (expressed s))) = Fin v ->
     exists b, b ∈ breaks /\ (v <= b)%Qc /\
       forall t, county_data_break s breaks f = t <-> t = TagBreak b).
Proof.
  intros Hlib HU Hret Hpal. cbv zeta.
  assert (Hc : jenks_contract vs (numBreaks_of vs)
                 (jenks ext vs (numBreaks_of vs))).
  { apply library_contract; [assumption | | assumption].
    intros ->. simpl in HU. lia. }
  set (breaks := natural_breaks ext vs) in *.
  destruct (natural_breaks_facts ext vs HU Hc)
    as (Hs & Hlen & top & Hlast & Htop & Hin & Hmax).
  split; [reflexivity|]. split; [reflexivity|]. split.
  - destruct (colorRange_defined (length breaks + 1)) as (colors & Hcol & Hl);
      [lia|].
    exists colors. split; [lia|].
    apply classify_natural; [assumption | | assumption].
    now apply contract_returned.
  - split; [assumption|]. split; [assumption|].
    intros s f record v Hv Hrec Hval.
    destruct (scan_breaks_bounded v breaks top Htop (Hmax v Hv))
      as (b & Hb & Hscan & Hle).
    exists b. split; [assumption|]. split; [assumption|].
    intros t.
    rewrite (county_data_break_value s breaks f record (Fin v))
      by (assumption || reflexivity).
    rewrite Hscan. split; congruence.
Qed.

(** C10. In the natural-breaks branch, given the contract of the
    clustering routine, the last break is the largest value of the
    sample, so no region whose value is a sample value is tagged
    "overflow". *)
Theorem natural_breaks_last_is_max_no_overflow
    (ext : Externals) (vs : list Qc) :
  (5 <= length (set_values vs))%nat ->
  jenks_contract vs (numBreaks_of vs) (jenks ext vs (numBreaks_of vs)) ->
  let breaks := natural_breaks ext vs in
  (exists top, last breaks = Some top /\ top ∈ vs /\
               forall v, v ∈ vs -> (v <= top)%Qc) /\
  (forall (s : AppState) (f : Feature) (record : row) (v : Qc),
     v ∈ vs ->
     healthByCounty s !! NAME f = Some record ->
     to_number (prop_get record (key_of (expressed s))) = Fin v ->
     county_data_break s breaks f <> TagOverflow).
Proof.
  intros HU Hc. cbv zeta.
  set (breaks := natural_breaks ext vs) in *.
  destruct (natural_breaks_facts ext vs HU Hc)
    as (Hs & Hlen & top & Hlast & Htop & Hin & Hmax).
  split.
  - exists top. repeat split; assumption.
  - intros s f record v Hv Hrec Hval.
    rewrite (county_data_break_value s breaks f record (Fin v))
      by (assumption || reflexivity).
    destruct (scan_breaks_bounded v breaks top Htop (Hmax v Hv))
      as (b & _ & Hscan & _).
    rewrite Hscan. discriminate.
Qed.

(** ** The threshold scale *)

Lemma js_le_fin_mono (u v : Qc) (x : jsnum) :
  (u <= v)%Qc -> js_le (Fin v) x = true -> js_le (Fin u) x = true.
Proof.
  intros Huv. destruct x as [| |q|]; simpl; try congruence.
  intros H. apply qleb_le in H. apply qleb_le.
  eapply Qcle_trans; eauto.
Qed.

Lemma bisect_loop_S (fuel : nat) (a : list Qc) (x : jsnum) (lo hi : nat) :
  bisect_loop (S fuel) a x lo hi =
  if (lo <? hi)%nat then
    if entry_le (a !! ((lo + hi) / 2)%nat) x
    then bisect_loop fuel a x ((lo + hi) / 2 + 1) hi
    else bisect_loop fuel a x lo ((lo + hi) / 2)
  else lo.
Proof. reflexivity. Qed.

Lemma bisect_loop_spec (a : list Qc) (x : jsnum) (top : nat) :
  StronglySorted Qcle a -> (top <= length a)%nat ->
  forall (fuel lo hi : nat),
    (lo <= hi <= top)%nat -> (hi - lo <= fuel)%nat ->
    (forall i v, (i < lo)%nat -> a !! i = Some v -> js_le (Fin v) x = true) ->
    (forall i v, (hi <= i < top)%nat -> a !! i = Some v ->
                 js_le (Fin v) x = false) ->
    let r := bisect_loop fuel a x lo hi in
    (r <= top)%nat /\
    (forall i v, (i < r)%nat -> a !! i = Some v -> js_le (Fin v) x = true) /\
    (forall i v, (r <= i < top)%nat -> a !! i = Some v ->
                 js_le (Fin v) x = false).
Proof.
  intros Hs Htop. induction fuel as [|fuel IH]; intros lo hi Hb Hf Hlo Hhi.
  - simpl. assert (lo = hi) by lia. subst hi. repeat split; auto; lia.
  - rewrite bisect_loop_S. destruct (lo <? hi)%nat eqn:E.
    + apply Nat.ltb_lt in E.
      set (mid := ((lo + hi) / 2)%nat).
      assert (Hmid : (lo <= mid < hi)%nat).
      { unfold mid. split.
        - apply Nat.div_le_lower_bound; lia.
        - apply Nat.Div0.div_lt_upper_bound; lia. }
      destruct (a !! mid) as [m|] eqn:Em.
      2:{ apply lookup_ge_None in Em. lia. }
      unfold entry_le. destruct (js_le (Fin m) x) eqn:Ele.
      * apply IH; [lia | lia | | assumption].
        intros i v Hi Hv. eapply js_le_fin_mono; [|exact Ele].
        eapply sorted_lookup_le; [exact Hs | | exact Hv | exact Em]. lia.
      * apply IH; [lia | lia | assumption |].
        intros i v Hi Hv.
        destruct (js_le (Fin v) x) eqn:Ev; [|reflexivity].
        rewrite <- Ele. symmetry. eapply js_le_fin_mono; [|exact Ev].
        eapply sorted_lookup_le; [exact Hs | | exact Em | exact Hv]. lia.
    + apply Nat.ltb_ge in E. assert (lo = hi) by lia. subst hi.
      repeat split; auto; lia.
Qed.

(** The insertion point: every entry before it is at or below [x], every
    entry from it on is above. *)
Lemma bisectRight_spec (a : list Qc) (x : jsnum) (n : nat) :
  StronglySorted Qcle a -> (n <= length a)%nat -> isNaN x = false ->
  let r := bisectRight a x 0 n in
  (r <= n)%nat /\
  (forall i v, (i < r)%nat -> a !! i = Some v -> js_le (Fin v) x = true) /\
  (forall i v, (r <= i < n)%nat -> a !! i = Some v ->
               js_le (Fin v) x = false).
Proof.
  intros Hs Hn Hx. unfold bisectRight. rewrite Hx.
  destruct (0 <? n)%nat eqn:E.
  - apply bisect_loop_spec with (top := n); try assumption; try lia.
  - apply Nat.ltb_ge in E. simpl. repeat split; intros; lia.
Qed.

(** The colour of a finite value under a threshold scale over strictly
    increasing breaks with one colour more than breaks: the colour whose
    index is the number of breaks at or below the value. *)
Lemma scale_apply_index (breaks : list Qc) (colors : list color) (v : Qc) :
  StronglySorted Qclt breaks -> length colors = S (length breaks) ->
  exists j, (j <= length breaks)%nat /\
    scale_apply {| domain := breaks; range := colors |} (Fin v) = colors !! j /\
    forall i b, breaks !! i = Some b -> ((i < j)%nat <-> (b <= v)%Qc).
Proof.
  intros Hs Hlen. unfold scale_apply. simpl. rewrite Hlen.
  replace (Nat.min (length breaks) (S (length breaks) - 1)) with (length breaks)
    by lia.
  destruct (bisectRight_spec breaks (Fin v) (length breaks))
    as (Hr & Hbelow & Habove);
    [now apply sorted_lt_le | lia | reflexivity |].
  exists (bisectRight breaks (Fin v) 0 (length breaks)).
  split; [assumption|]. split; [reflexivity|].
  intros i b Hi. split.
  - intros Hlt. apply qleb_le. rewrite <- js_le_fin. eapply Hbelow; eauto.
  - intros Hle.
    destruct (Nat.lt_ge_cases i (bisectRight breaks (Fin v) 0 (length breaks)))
      as [Hlt | Hge]; [assumption|].
    exfalso. apply lookup_lt_Some in Hi as Hi'.
    specialize (Habove i b ltac:(lia) Hi). rewrite js_le_fin in Habove.
    apply qleb_gt in Habove. eapply Qclt_not_le; eauto.
Qed.

(** C2, as the code has it.  Over strictly increasing breaks and the
    palette of one colour more than breaks, a value strictly below the
    first break gets colour 0; a value from break i up to, but not
    including, break i + 1 gets colour i + 1; a value at or above the last
    break gets the last colour of the palette: the scale has no overflow
    colour.  The distinction shows only in the [data-break] tag of a
    region, which is "overflow" exactly when the value is above every
    break. *)
Theorem colorScale_lower_inclusive_thresholds
    (breaks : list Qc) (colors : list color) (v : Qc) :
  StronglySorted Qclt breaks -> length colors = S (length breaks) ->
  let sc := {| domain := breaks; range := colors |} in
  (forall b0, breaks !! 0%nat = Some b0 -> (v < b0)%Qc ->
     scale_apply sc (Fin v) = colors !! 0%nat) /\
  (forall i lo hi, breaks !! i = Some lo -> breaks !! S i = Some hi ->
     (lo <= v)%Qc -> (v < hi)%Qc ->
     scale_apply sc (Fin v) = colors !! S i) /\
  (forall top, last breaks = Some top -> (top <= v)%Qc ->
     scale_apply sc (Fin v) = colors !! length breaks /\
     scale_apply sc (Fin v) = last colors) /\
  (scan_breaks (Fin v) breaks = TagOverflow <->
     forall b, b ∈ breaks -> (b < v)%Qc).
Proof.
  intros Hs Hlen. cbv zeta.
  destruct (scale_apply_index breaks colors v Hs Hlen) as (j & Hj & -> & Hchar).
  split; [|split; [|split]].
  - intros b0 H0 Hlt. f_equal.
    destruct j as [|j]; [reflexivity|]. exfalso.
    assert (Hle : (b0 <= v)%Qc) by (apply (Hchar 0%nat b0 H0); lia).
    eapply Qclt_not_le; eauto.
  - intros i lo hi Hi HSi Hlo Hhi. f_equal.
    assert (i < j)%nat by (now apply (Hchar i lo Hi)).
    assert (~ (S i < j)%nat).
    { intros Hc. apply (Hchar (S i) hi HSi) in Hc.
      eapply Qclt_not_le; eauto. }
    lia.
  - intros top Htop Hle. rewrite last_lookup in Htop.
    assert (pred (length breaks) < j)%nat by (now apply (Hchar _ top Htop)).
    apply lookup_lt_Some in Htop.
    assert (j = length breaks) by lia. subst j.
    split; [reflexivity|].
    rewrite last_lookup, Hlen. reflexivity.
  - split.
    + intros Hov b Hb. rewrite scan_breaks_overflow in Hov.
      specialize (Hov b Hb). rewrite js_le_fin in Hov. now apply qleb_gt.
    + intros Hall. apply scan_breaks_overflow. intros b Hb.
      rewrite js_le_fin. apply qleb_gt. now apply Hall.
Qed.


(** ** What the first part of [callback] leaves untouched *)


Lemma quiet_ret {A} (a : A) : quiet (ret a).
Proof. intros wd. split; reflexivity. Qed.

Lemma quiet_throw {A} (e : jsError) : quiet (@throw A e).
Proof. intros wd. split; reflexivity. Qed.

Lemma quiet_get : quiet get.
Proof. intros wd. split; reflexivity. Qed.

Lemma quiet_bind {A B} (m : M A) (k : A -> M B) :
  quiet m -> (forall a, quiet (k a)) -> quiet (m ≫= k).
Proof.
  intros Hm Hk wd. unfold mbind, M_bind, bind.
  specialize (Hm wd). destruct (m wd) as [w1 [a|e]]; simpl in *.
  - specialize (Hk a w1). destruct Hm as [Hp Hc], Hk as [Hp' Hc'].
    split; congruence.
  - assumption.
Qed.

Lemma quiet_modify_app (f : AppState -> AppState) :
  (forall s, colorScale (f s) = colorScale s) ->
  quiet (modify (with_app f)).
Proof. intros Hf wd. split; [reflexivity | apply Hf]. Qed.

Lemma quiet_toString (ext : Externals) (v : jsval) : quiet (toString ext v).
Proof. destruct v; [apply quiet_throw | apply quiet_ret..]. Qed.

Lemma quiet_is_numeric_column (ext : Externals) (first : option row)
    (col : string) : quiet (is_numeric_column ext first col).
Proof.
  unfold is_numeric_column.
  destruct (_ || _); [apply quiet_ret|].
  destruct first; [|apply quiet_throw].
  apply quiet_bind; [apply quiet_toString | intros; apply quiet_ret].
Qed.

Lemma quiet_filterM {A} (f : A -> M bool) (xs : list A) :
  (forall a, quiet (f a)) -> quiet (filterM f xs).
Proof.
  intros Hf. induction xs as [|a xs IH]; simpl.
  - apply quiet_ret.
  - apply quiet_bind; [apply Hf|]. intros keep.
    apply quiet_bind; [apply IH|]. intros kept. apply quiet_ret.
Qed.

Lemma quiet_parse_row (ext : Externals) (key : string) (d : row) :
  quiet (parse_row ext key d).
Proof.
  unfold parse_row. destruct (prop_get _ key) as [|s|n].
  - apply quiet_bind; [apply quiet_throw | intros; apply quiet_ret].
  - destruct (includes_colon s); apply quiet_ret.
  - apply quiet_bind; [apply quiet_ret | intros; apply quiet_ret].
Qed.

Lemma quiet_parse_rows (ext : Externals) (key : string) (csv : list row) :
  quiet (parse_rows ext key csv).
Proof.
  induction csv as [|d rest IH]; simpl.
  - apply quiet_ret.
  - apply quiet_bind; [apply quiet_parse_row|]. intros d'.
    apply quiet_bind; [now apply quiet_modify_app|]. intros _.
    apply quiet_bind; [apply IH|]. intros ds. apply quiet_ret.
Qed.

Lemma quiet_prepare (ext : Externals) (data : Data) : quiet (prepare ext data).
Proof.
  unfold prepare.
  apply quiet_bind; [apply quiet_filterM, quiet_is_numeric_column|]. intros attrs.
  apply quiet_bind; [now apply quiet_modify_app|]. intros _.
  apply quiet_bind; [apply quiet_get|]. intros wd1.
  apply quiet_bind.
  { destruct (is_falsy _); [now apply quiet_modify_app | apply quiet_ret]. }
  intros _.
  apply quiet_bind; [apply quiet_get|]. intros wd2.
  apply quiet_bind.
  { destruct (head (csvData data)); [apply quiet_toString | apply quiet_throw]. }
  intros cell.
  apply quiet_bind; [now apply quiet_modify_app|]. intros _.
  apply quiet_bind; [now apply quiet_modify_app|]. intros _.
  apply quiet_parse_rows.
Qed.


Lemma parse_row_world (ext : Externals) (key : string) (d : row) (wd : World) :
  fst (parse_row ext key d wd) = wd.
Proof.
  unfold parse_row. destruct (prop_get _ key) as [|s|n]; try reflexivity.
  destruct (includes_colon s); reflexivity.
Qed.

Lemma parse_rows_lookup (ext : Externals) (key : string) (csv : list row) :
  forall (wd wd' : World) (parsed : list row),
    parse_rows ext key csv wd = (wd', Return parsed) ->
    healthByCounty (app wd')
    = lookup_of ext parsed (healthByCounty (app wd)) /\
    attrArray (app wd') = attrArray (app wd) /\
    expressed (app wd') = expressed (app wd) /\
    isRatioField (app wd') = isRatioField (app wd).
Proof.
  induction csv as [|d rest IH]; intros wd wd' parsed H.
  - injection H as <- <-. repeat split.
  - simpl in H. unfold mbind, M_bind, bind in H.
    pose proof (parse_row_world ext key d wd) as Hw.
    destruct (parse_row ext key d wd) as [w1 [d'|e]]; [|discriminate].
    simpl in Hw. subst w1. simpl in H.
    destruct (parse_rows ext key rest _) as [w2 [ds|e]] eqn:E; [|discriminate].
    injection H as <- <-.
    apply IH in E as (Hh & Ha & He & Hr). simpl in *.
    repeat split; assumption.
Qed.

Lemma bind_Return_inv {A B} (m : M A) (k : A -> M B) (wd wd2 : World) (b : B) :
  (m ≫= k) wd = (wd2, Return b) ->
  exists w1 a, m wd = (w1, Return a) /\ k a w1 = (wd2, Return b).
Proof.
  unfold mbind, M_bind, bind. destruct (m wd) as [w1 [a|e]]; [|discriminate].
  intros H. eauto.
Qed.

(** After the first part of [callback] the lookup holds exactly the rows
    the loop returned. *)
Lemma prepare_lookup (ext : Externals) (data : Data) (wd wd1 : World)
    (parsed : list row) :
  prepare ext data wd = (wd1, Return parsed) ->
  healthByCounty (app wd1) = lookup_of ext parsed ∅.
Proof.
  unfold prepare. intros H.
  apply bind_Return_inv in H as (w1 & attrs & _ & H).
  apply bind_Return_inv in H as (w2 & [] & _ & H).
  apply bind_Return_inv in H as (w3 & wda & _ & H).
  apply bind_Return_inv in H as (w4 & [] & _ & H).
  apply bind_Return_inv in H as (w5 & wdb & _ & H).
  apply bind_Return_inv in H as (w6 & cell & _ & H).
  apply bind_Return_inv in H as (w7 & [] & _ & H).
  apply bind_Return_inv in H as (w8 & [] & Hclear & H).
  injection Hclear as <-.
  apply parse_rows_lookup in H as (Hh & _). exact Hh.
Qed.

(** C5, as the code has it.  When the selected column has fewer than two
    finite values, [callback] alerts a message that names the column and
    throws; nothing is drawn: states, counties, callouts, chart and
    dropdown are as before the call.  The shared state is not rolled
    back: it stays as the first part of [callback] left it, with the
    lookup rebuilt from the rows of the failing column, while the colour
    scale is still the one of the previous classification. *)
Theorem insufficient_data_alerts_and_draws_nothing
    (ext : Externals) (data : Data) (wd wd1 : World) (parsed : list row) :
  prepare ext data wd = (wd1, Return parsed) ->
  (length (expressedValues_of (key_of (expressed (app wd1))) parsed) < 2)%nat ->
  let key := key_of (expressed (app wd1)) in
  let failed :=
    with_page (fun p => set_alerts (alerts p ++ [insufficient_message key]) p)
              wd1 in
  callback ext data wd = (failed, Throw (Error "Bad data column selected")) /\
  alerts (page failed) = alerts (page wd) ++ [insufficient_message key] /\
  statesPaths (page failed) = statesPaths (page wd) /\
  counties (page failed) = counties (page wd) /\
  callouts (page failed) = callouts (page wd) /\
  chart (page failed) = chart (page wd) /\
  dropdown (page failed) = dropdown (page wd) /\
  app failed = app wd1 /\
  healthByCounty (app failed) = lookup_of ext parsed ∅ /\
  colorScale (app failed) = colorScale (app wd).
Proof.
  intros Hprep Hlen. cbv zeta.
  pose proof (quiet_prepare ext data wd) as [Hpage Hscale].
  rewrite Hprep in Hpage, Hscale. simpl in Hpage, Hscale.
  split.
  - unfold callback, mbind, M_bind, bind. rewrite Hprep. simpl.
    unfold classify.
    destruct (expressedValues_of _ parsed) as [|a [|b l]];
      simpl in Hlen; try lia; reflexivity.
  - simpl. rewrite Hpage. repeat split; try reflexivity; try assumption.
    eapply prepare_lookup; eauto.
Qed.


(** The claim of C5 fails where it says that no partial or stale state is
    left.  The sample table is classified by "rate"; selecting "note",
    which has one number, throws, and afterwards the colour scale is still
    the one of "rate" while the lookup already holds the rows parsed for
    "note". *)
Lemma insufficient_data_leaves_state_counterexample :
  let before := fst (callback sample_env sample_data initial_world) in
  let r := dropdown_change sample_env (zq 400, zq 300) sample_data "note"
                           before in
  snd r = Throw (Error "Bad data column selected") /\
  expressed (app (fst r)) = Some "note"%string /\
  colorScale (app (fst r)) = colorScale (app before) /\
  colorScale (app before)
  = Some {| domain := map zq [1; 2; 3; 4; 5];
            range := map (SchemeReds 6) (seq 0 6) |} /\
  (healthByCounty (app before) !! "Adams"%string) ≫= (lookup "note"%string)
  = Some (VStr "7") /\
  (healthByCounty (app (fst r)) !! "Adams"%string) ≫= (lookup "note"%string)
  = Some (VNum (F 7)).
Proof. vm_compute. repeat split; reflexivity. Qed.

(** ** The quantile branch *)

Lemma quantiles_length (v0 : Qc) (rest : list Qc) :
  length (quantiles v0 rest 5) = 4%nat.
Proof. unfold quantiles. now rewrite length_map, length_seq. Qed.

(** In the quantile branch the assignment to the undeclared [colorScale]
    throws unless the global object has the name. *)
Lemma classify_quantile_throws (ext : Externals) (key : string)
    (vs : list Qc) (wd : World) :
  (2 <= length vs)%nat -> (length (set_values vs) < 5)%nat ->
  existsb (String.eqb "colorScale") (globalNames (page wd)) = false ->
  classify ext key vs wd =
    (with_page (fun p => set_warnings
       (warnings p ++ ["Too few unique values — using quantile"%string]) p) wd,
     Throw (ReferenceError "colorScale")).
Proof.
  intros Hlen HU Hg.
  destruct vs as [|v0 [|v1 rest]]; simpl in Hlen; try lia.
  unfold classify.
  replace (length (set_values (v0 :: v1 :: rest)) <? 5)%nat with true
    by (symmetry; now apply Nat.ltb_lt).
  unfold console_warn, assign_undeclared, modify, get.
  unfold mbind, M_bind, bind.
  cbn -[existsb String.eqb quantiles]. rewrite Hg. reflexivity.
Qed.

(** Where the global object has the name, the branch returns the four
    quantile thresholds and leaves [state.colorScale] as it was. *)
Lemma classify_quantile_with_global (ext : Externals) (key : string)
    (v0 v1 : Qc) (rest : list Qc) (wd : World) :
  (length (set_values (v0 :: v1 :: rest)) < 5)%nat ->
  existsb (String.eqb "colorScale") (globalNames (page wd)) = true ->
  exists wd', classify ext key (v0 :: v1 :: rest) wd
              = (wd', Return (quantiles v0 (v1 :: rest) 5)) /\
    app wd' = app wd /\
    length (quantiles v0 (v1 :: rest) 5) = 4%nat.
Proof.
  intros HU Hg. eexists. split; [|split].
  - unfold classify.
    replace (length (set_values (v0 :: v1 :: rest)) <? 5)%nat with true
      by (symmetry; now apply Nat.ltb_lt).
    unfold console_warn, assign_undeclared, modify, get.
    unfold mbind, M_bind, bind.
    cbn -[existsb String.eqb quantiles]. rewrite Hg. reflexivity.
  - reflexivity.
  - apply quantiles_length.
Qed.

(** C3, at the sample 3, 3, 3, 5 of the specification: [callback] enters
    the quantile branch, warns, and throws a ReferenceError at the
    assignment to [colorScale]; no breaks are produced, no colour scale is
    installed and nothing is drawn. *)
Theorem quantile_branch_throws_ReferenceError :
  let p := prepare sample_env few_values_data initial_world in
  let r := callback sample_env few_values_data initial_world in
  match snd p with
  | Return parsed =>
      expressedValues_of "rate" parsed = map zq [3; 3; 3; 5]
  | Throw _ => False
  end /\
  snd r = Throw (ReferenceError "colorScale") /\
  warnings (page (fst r)) = ["Too few unique values — using quantile"%string] /\
  colorScale (app (fst r)) = None /\
  statesPaths (page (fst r)) = 0%nat /\
  counties (page (fst r)) = [] /\
  chart (page (fst r)) = None.
Proof. vm_compute. repeat split; reflexivity. Qed.

(** The same table on a page whose global object has the name: the
    branch gets past the assignment, but [state.colorScale] is still null
    and the first county with a record throws in its fill callback. *)
Lemma quantile_branch_with_global_cannot_fill :
  let wd := with_page (fun p =>
    {| globalNames := "colorScale"%string :: globalNames p;
       viewBox := viewBox p; alerts := alerts p; warnings := warnings p;
       statesPaths := statesPaths p; counties := counties p;
       callouts := callouts p; chart := chart p; dropdown := dropdown p |})
    initial_world in
  let r := callback sample_env few_values_data wd in
  snd r = Throw TypeError /\
  colorScale (app (fst r)) = None /\
  map fill (counties (page (fst r))) = replicate 7 None /\
  map data_break (counties (page (fst r))) = replicate 7 None.
Proof. vm_compute. repeat split; reflexivity. Qed.

(** ** Ratio columns *)

(** C6. A table whose selected cell reads "42:1": the ratio flag is set,
    the cell becomes the number 42 and keeps its text as [rawValue], and
    the display of 42 under the ratio flag is "42:1" again. *)
Theorem ratio_42_parses_and_displays (ext : Externals) (wd : World) :
  let d : row := <["county"%string := VStr "Dane"]>
                   (<["ratio"%string := VStr "42:1"]> ∅) in
  let data := {| csvData := [d]; columns := ["county"; "ratio"]%string;
                 countiesFeatures := [] |} in
  let r := prepare ext data (with_app (set_expressed None) wd) in
  exists record : row,
    snd r = Return [record] /\
    expressed (app (fst r)) = Some "ratio"%string /\
    isRatioField (app (fst r)) = true /\
    healthByCounty (app (fst r)) !! "Dane"%string = Some record /\
    record !! "ratio"%string = Some (VNum (F 42)) /\
    record !! "rawValue"%string = Some (VStr "42:1") /\
    formatDisplay (app (fst r)) (VNum (F 42)) = "42:1"%string.
Proof.
  cbv zeta. eexists. repeat split; reflexivity.
Qed.

(** Above 999 the display groups the digits: "2331:1" comes back as
    "2,331:1". *)
Lemma ratio_2331_display_groups_digits (s : AppState) :
  parseFloat (split_colon_head "2331:1") = F 2331 /\
  formatDisplay (set_isRatioField true s) (VNum (F 2331)) = "2,331:1"%string.
Proof. split; reflexivity. Qed.

(** ** Empty cells *)

(** A cell that is no number: the region is tagged "none", the value is
    left out of the sample, and no break matches the tag. *)
Lemma nan_cell_is_excluded (s : AppState) (breaksArray : list Qc)
    (f : Feature) (record : row) (c : CountyPath) (breakValue : Qc) :
  healthByCounty s !! NAME f = Some record ->
  to_number (prop_get record (key_of (expressed s))) = NaN ->
  county_data_break s breaksArray f = TagNone /\
  finite_value (prop_get record (key_of (expressed s))) = None /\
  (data_break c = Some (county_data_break s breaksArray f) ->
   tag_matches breakValue c = false).
Proof.
  intros Hrec Hnan. unfold county_data_break, finite_value, tag_matches.
  rewrite Hrec, Hnan. simpl. repeat split. now intros ->.
Qed.

(** Once the loop has run, the selected cell of a row is a number. *)
Lemma parse_row_number (ext : Externals) (key : string) (d d' : row)
    (wd wd' : World) :
  parse_row ext key d wd = (wd', Return d') ->
  exists n, d' !! key = Some (VNum n).
Proof.
  unfold parse_row. destruct (prop_get _ key) as [|s|n].
  - discriminate.
  - destruct (includes_colon s); intros [= _ <-];
      eexists; apply lookup_insert_eq.
  - intros [= _ <-]. eexists. apply lookup_insert_eq.
Qed.

(** The guard [rawValue !== ""] of [highlightCounties] reads the selected
    cell, which is a number by then: it never turns a county with a
    record away. *)
Lemma label_guard_passes_numbers (ext : Externals) (s : AppState)
    (size : Qc * Qc) (i : nat) (c : CountyPath) (record : row) (n : jsnum) :
  healthByCounty s !! NAME (feature c) = Some record ->
  record !! key_of (expressed s) = Some (VNum n) ->
  exists d, label_of ext s size i c = Some d /\
            countyName d = NAME (feature c).
Proof.
  intros Hrec Hcell. unfold label_of, prop_get. rewrite Hrec, Hcell. simpl.
  eexists. split; reflexivity.
Qed.

(** C7, at a county whose cell is empty: the cell becomes the number 0,
    not an invalid value; 0 is part of the sample; the county is tagged
    with the first break; and hovering that break labels the county with
    the text "0". *)
Theorem empty_cell_becomes_zero_and_is_labelled :
  let p := prepare sample_env sample_data initial_world in
  let r := callback sample_env sample_data initial_world in
  let h := highlightCounties sample_env (zq 1) (fst r) in
  (healthByCounty (app (fst p)) !! "Adams"%string) ≫= (lookup "rawValue"%string)
  = Some (VStr "") /\
  (healthByCounty (app (fst p)) !! "Adams"%string) ≫= (lookup "rate"%string)
  = Some (VNum (F 0)) /\
  match snd p with
  | Return parsed =>
      expressedValues_of "rate" parsed = map zq [0; 1; 2; 3; 4; 5]
  | Throw _ => False
  end /\
  snd r = Return tt /\
  map (fun c => (NAME (feature c), data_break c))
      (take 2 (counties (page (fst r))))
  = [("Adams", Some (TagBreak (zq 1))); ("Brown", Some (TagBreak (zq 1)))]%string /\
  map (fun c => (countyName (label c), value (label c)))
      (callouts (page (fst h)))
  = [("Adams", "0"); ("Brown", "1")]%string.
Proof. vm_compute. repeat split; reflexivity. Qed.

(** ** Clamping *)

(** A value clamped between two finite bounds. *)
Lemma js_clamp_fin (lo hi v : Qc) :
  (lo <= hi)%Qc ->
  exists c, js_max (Fin lo) (js_min (Fin v) (Fin hi)) = Fin c /\
            (lo <= c)%Qc /\ (c <= hi)%Qc /\
            ((v <= lo)%Qc -> c = lo) /\
            ((lo <= v)%Qc -> (v <= hi)%Qc -> c = v) /\
            ((hi <= v)%Qc -> c = hi).
Proof.
  intros Hlh. simpl. destruct (qleb v hi) eqn:E1; simpl.
  - apply qleb_le in E1. destruct (qleb lo v) eqn:E2.
    + apply qleb_le in E2. exists v.
      split; [reflexivity|]. split; [assumption|]. split; [assumption|].
      split; [|split; [reflexivity|]]; intros Hv; now apply Qcle_antisym.
    + apply qleb_gt in E2. exists lo.
      split; [reflexivity|]. split; [apply Qcle_refl|].
      split; [assumption|]. split; [reflexivity|]. split.
      * intros Hv. exfalso. eapply Qclt_not_le; eauto.
      * intros Hv. exfalso. apply (Qclt_not_le _ _ E2).
        eapply Qcle_trans; eauto.
  - apply qleb_gt in E1. destruct (qleb lo hi) eqn:E2.
    + exists hi.
      split; [reflexivity|]. split; [assumption|]. split; [apply Qcle_refl|].
      split; [|split; [|reflexivity]].
      * intros Hv. apply Qcle_antisym; [|assumption].
        apply Qclt_le_weak. eapply Qclt_le_trans; eauto.
      * intros _ Hv. exfalso. eapply Qclt_not_le; eauto.
    + apply qleb_gt in E2. exfalso. eapply Qclt_not_le; eauto.
Qed.

(** ** The seeds of the labels *)

Lemma seed_walk_finite (fuel : nat) (radius : Z) (cx cy cosA sinA : Qc)
    (maxX maxY a b : Qc) :
  exists a' b',
    seed_walk fuel radius (Fin cx, Fin cy) cosA sinA maxX maxY
              (Some (Fin a, Fin b))
    = Some (Fin a', Fin b').
Proof.
  revert radius a b. induction fuel as [|fuel IH]; intros radius a b; simpl.
  - eauto.
  - destruct (10 <? radius); [|eauto].
    match goal with |- context [if ?c then _ else _] => destruct c end.
    + eauto.
    + apply IH.
Qed.

(** X10. Every seed of a county with a finite centroid lies in the view box
    less 10 units on each side, provided the view box is at least 20 wide
    and high. *)
Lemma seed_position_in_view (ext : Externals) (maxX maxY : Qc) (i : nat)
    (cx cy : Qc) :
  (zq 20 <= maxX)%Qc -> (zq 20 <= maxY)%Qc ->
  exists sx sy,
    seed_position ext (maxX, maxY) i (Fin cx, Fin cy) = (Fin sx, Fin sy) /\
    (zq 10 <= sx)%Qc /\ (sx <= qsub maxX (zq 10))%Qc /\
    (zq 10 <= sy)%Qc /\ (sy <= qsub maxY (zq 10))%Qc.
Proof.
  intros HX HY. unfold seed_position.
  assert (Hw : exists a b,
    seed_walk 11 60 (Fin cx, Fin cy) (cosDeg ext (seed_angle i))
              (sinDeg ext (seed_angle i)) maxX maxY None
    = Some (Fin a, Fin b)).
  { change (seed_walk 11 60 (Fin cx, Fin cy) (cosDeg ext (seed_angle i))
              (sinDeg ext (seed_angle i)) maxX maxY None)
      with (let px := js_add (Fin cx)
                        (js_mul (F 60) (Fin (cosDeg ext (seed_angle i)))) in
            let py := js_add (Fin cy)
                        (js_mul (F 60) (Fin (sinDeg ext (seed_angle i)))) in
            if js_ge px (F 10) && js_le px (js_sub (Fin maxX) (F 10))
               && js_ge py (F 10) && js_le py (js_sub (Fin maxY) (F 10))
            then Some (px, py)
            else seed_walk 10 55 (Fin cx, Fin cy) (cosDeg ext (seed_angle i))
                   (sinDeg ext (seed_angle i)) maxX maxY (Some (px, py))).
    cbv zeta.
    match goal with |- context [if ?c then _ else _] => destruct c end.
    - eexists _, _. reflexivity.
    - apply seed_walk_finite. }
  destruct Hw as (a & b & ->). cbn [fst snd].
  destruct (js_clamp_fin (zq 10) (qadd maxX (qopp (zq 10))) a)
    as (sx & Esx & Hsx1 & Hsx2 & _); [to_Q; lra|].
  destruct (js_clamp_fin (zq 10) (qadd maxY (qopp (zq 10))) b)
    as (sy & Esy & Hsy1 & Hsy2 & _); [to_Q; lra|].
  exists sx, sy.
  change (js_sub (Fin maxX) (F 10)) with (Fin (qadd maxX (qopp (zq 10)))).
  change (js_sub (Fin maxY) (F 10)) with (Fin (qadd maxY (qopp (zq 10)))).
  change (F 10) with (Fin (zq 10)).
  rewrite Esx, Esy. split; [reflexivity|].
  repeat split; try assumption; to_Q; lra.
Qed.

(** ** The bubble *)

(** X11. The second clamp on a view box that has room for the bubble: the
    rectangle keeps 6 units to the left, to the right and below, and 4
    units above; its top edge is inside the padding of 6 whenever the
    label was less than 22 from the top. *)
Lemma reclamp_edges (ext : Externals) (maxX maxY : Qc) (d : Label)
    (dx dy : Qc) :
  x d = Fin dx -> y d = Fin dy ->
  (qadd (bubbleWidth_of ext d) (zq 12) <= maxX)%Qc ->
  (zq 40 <= maxY)%Qc ->
  exists rx ry,
    rect_x (snd (reclamp ext (maxX, maxY) d)) = Fin rx /\
    rect_y (snd (reclamp ext (maxX, maxY) d)) = Fin ry /\
    rect_width (snd (reclamp ext (maxX, maxY) d))
    = Fin (bubbleWidth_of ext d) /\
    rect_height (snd (reclamp ext (maxX, maxY) d)) = F 28 /\
    (zq 6 <= rx)%Qc /\
    (qadd rx (bubbleWidth_of ext d) <= qsub maxX (zq 6))%Qc /\
    (qadd ry (zq 28) <= qsub maxY (zq 6))%Qc /\
    (zq 4 <= ry)%Qc /\
    ((dy < zq 22)%Qc -> (ry < zq 6)%Qc) /\
    ((zq 22 <= dy)%Qc -> (zq 42 <= maxY)%Qc -> (zq 6 <= ry)%Qc).
Proof.
  intros Hx Hy Hw Hh.
  set (bw := bubbleWidth_of ext d) in *.
  set (hw := qdiv bw (zq 2)).
  set (hh := qdiv (zq 28) (zq 2)).
  destruct (js_clamp_fin (qadd hw (zq 6))
              (qadd (qadd maxX (qopp hw)) (qopp (zq 6))) dx)
    as (cx & Ecx & Hcx1 & Hcx2 & _).
  { subst hw. to_Q. lra. }
  destruct (js_clamp_fin (qadd hh (zq 6))
              (qadd (qadd maxY (qopp hh)) (qopp (zq 6))) dy)
    as (cy & Ecy & Hcy1 & Hcy2 & Hlow & Hmid & Hhigh).
  { subst hh. to_Q. lra. }
  exists (qadd cx (qopp hw)), (qadd cy (qopp (zq 16))).
  unfold reclamp. rewrite Hx, Hy.
  cbn [snd fst rect_x rect_y rect_width rect_height].
  change (js_div (Fin (bubbleWidth_of ext d)) (F 2)) with (Fin hw).
  change (js_div (F 28) (F 2)) with (Fin hh).
  change (js_add (Fin hw) (F 6)) with (Fin (qadd hw (zq 6))).
  change (js_add (Fin hh) (F 6)) with (Fin (qadd hh (zq 6))).
  change (js_sub (js_sub (Fin maxX) (Fin hw)) (F 6))
    with (Fin (qadd (qadd maxX (qopp hw)) (qopp (zq 6)))).
  change (js_sub (js_sub (Fin maxY) (Fin hh)) (F 6))
    with (Fin (qadd (qadd maxY (qopp hh)) (qopp (zq 6)))).
  rewrite Ecx, Ecy.
  split; [reflexivity|]. split; [reflexivity|]. split; [reflexivity|].
  split; [reflexivity|].
  split; [subst hw; to_Q; lra|]. split; [subst hw; to_Q; lra|].
  split; [subst hh; to_Q; lra|]. split; [subst hh; to_Q; lra|].
  split.
  - intros Hdy.
    destruct (Qclt_le_dec dy (qadd hh (zq 6))) as [H1 | H1].
    + rewrite (Hlow (Qclt_le_weak _ _ H1)). subst hh. to_Q. lra.
    + destruct (Qclt_le_dec (qadd (qadd maxY (qopp hh)) (qopp (zq 6))) dy)
        as [H2 | H2].
      * rewrite (Hhigh (Qclt_le_weak _ _ H2)). subst hh. to_Q. lra.
      * rewrite (Hmid H1 H2). subst hh. to_Q. lra.
  - intros Hdy Hroom.
    destruct (Qclt_le_dec (qadd (qadd maxY (qopp hh)) (qopp (zq 6))) dy)
      as [H2 | H2].
    + rewrite (Hhigh (Qclt_le_weak _ _ H2)). subst hh. to_Q. lra.
    + assert (H1 : (qadd hh (zq 6) <= dy)%Qc) by (subst hh; to_Q; lra).
      rewrite (Hmid H1 H2). subst hh. to_Q. lra.
Qed.

(** C9, at a label that sits near the top edge of a 400 by 300 map: the
    second clamp moves its centre to y = 20, half the bubble height plus
    the padding, but the rectangle is drawn 16 above the centre, so that
    its top edge is at 4, inside the padding of 6.  The same happens
    through the whole sequence for a county whose centroid is near the
    top. *)
Theorem bubble_top_edge_inside_padding (ext : Externals) :
  let d := {| countyName := "Adams"; value := "0"; anchor := (F 200, F 8);
              x := F 200; y := F 5 |} in
  let placed := reclamp ext (zq 400, zq 300) d in
  let top_county :=
    {| csvData := csvData sample_data; columns := columns sample_data;
       countiesFeatures := [county_at "Adams" 200 8] |} in
  let r := callback sample_env top_county initial_world in
  let h := highlightCounties sample_env (zq 1) (fst r) in
  let f := animationFrame sample_env (fst h) in
  y (fst placed) = F 20 /\
  rect_y (snd placed) = F 4 /\
  rect_height (snd placed) = F 28 /\
  js_lt (rect_y (snd placed)) (F 6) = true /\
  map (fun c => (y (label c), rect_y <$> bubble c)) (callouts (page (fst f)))
  = [(F 20, Some (F 4))].
Proof. cbv zeta. repeat split; reflexivity. Qed.


(** ** Instances *)

(** A statement that returned, as a pair. *)
Lemma returned_pair {A} (x : World * outcome (list A)) :
  is_Return (snd x) = true -> x = (fst x, Return (returned [] (snd x))).
Proof. destruct x as [wd [l|e]]; [reflexivity | discriminate]. Defined.





Lemma spec_sample_contract :
  jenks_contract spec_sample (numBreaks_of spec_sample)
    (jenks sample_env spec_sample (numBreaks_of spec_sample)).
Proof.
  apply sample_env_contract; [discriminate|].
  vm_compute. eexists. reflexivity.
Qed.


(** C1 at the sample of the specification, with a county whose value is
    9. *)
Lemma classify_natural_breaks_strict_and_total_witness :
  (5 <= length (set_values spec_sample))%nat /\
  is_Some (SS.jenks spec_sample (numBreaks_of spec_sample)) /\
  (2 <= length (natural_breaks sample_env spec_sample))%nat /\
  natural_breaks sample_env spec_sample = map zq [2; 3; 4; 5; 6; 7; 8; 100] /\
  StronglySorted Qclt (natural_breaks sample_env spec_sample) /\
  exists b, b ∈ natural_breaks sample_env spec_sample /\ (zq 9 <= b)%Qc /\
    forall t, county_data_break (one_county 9)
                (natural_breaks sample_env spec_sample)
                (county_at "Dane" 100 200) = t <-> t = TagBreak b.
Proof.
  assert (HU : (5 <= length (set_values spec_sample))%nat)
    by (vm_compute; lia).
  assert (Hp : (2 <= length (natural_breaks sample_env spec_sample))%nat)
    by (vm_compute; lia).
  assert (Hret : is_Some (SS.jenks spec_sample (numBreaks_of spec_sample)))
    by (vm_compute; eexists; reflexivity).
  destruct (classify_natural_breaks_strict_and_total sample_env "rate"
              spec_sample initial_world eq_refl HU Hret Hp)
    as (_ & _ & _ & Hs & _ & Htag).
  split; [exact HU|]. split; [exact Hret|]. split; [exact Hp|].
  split; [vm_compute; reflexivity|]. split; [exact Hs|].
  apply (Htag (one_county 9) (county_at "Dane" 100 200)
              (<["rate"%string := VNum (F 9)]> ∅) (zq 9)).
  - unfold spec_sample. simpl. list_facts.
  - reflexivity.
  - reflexivity.
Defined.


(** C1 does not hold of every sample with five distinct values.  On
    [split_sample] the variances of the upper group cancel in binary64:
    the last of the nine classes starts at the sixth value and takes the
    whole group, five values are left for eight classes, the walk through
    the class limits runs out of values, reads row -1 and [ss.jenks]
    throws; [classify] has no handler, so no break set is made and
    [state.colorScale] is not set.  On [flat_sample]
    the routine returns its five boundaries in order, ending at the
    maximum, but the four that are kept are one number: [d3.schemeReds]
    has no palette of two colours and [classify] throws as well. *)
Lemma natural_breaks_branch_throws_counterexample :
  ((5 <= length (set_values split_sample))%nat /\
   SS.mget 0%nat
     (fst (SS.jenksMatrices (map B64.of_Qc (sort_asc split_sample))
             (numBreaks_of split_sample)))
     10 9 = 6%nat /\
   ss_jenks sample_env split_sample (numBreaks_of split_sample) = None /\
   classify sample_env "rate" split_sample initial_world
   = (initial_world, Throw TypeError) /\
   ~ (exists wd breaks,
        classify sample_env "rate" split_sample initial_world
        = (wd, Return breaks))) /\
  ((5 <= length (set_values flat_sample))%nat /\
   jenks_contract flat_sample (numBreaks_of flat_sample)
     (jenks sample_env flat_sample (numBreaks_of flat_sample)) /\
   natural_breaks sample_env flat_sample = [zq (3 * 2 ^ 510)] /\
   classify sample_env "rate" flat_sample initial_world
   = (initial_world, Throw TypeError)).
Proof.
  assert (Hsplit : (5 <= length (set_values split_sample))%nat)
    by (vm_compute; lia).
  assert (Hthrown : ss_jenks sample_env split_sample
                      (numBreaks_of split_sample) = None)
    by (vm_compute; reflexivity).
  assert (Hflat : (5 <= length (set_values flat_sample))%nat)
    by (vm_compute; lia).
  assert (Hone : natural_breaks sample_env flat_sample = [zq (3 * 2 ^ 510)])
    by (vm_compute; reflexivity).
  split.
  - split; [exact Hsplit|]. split; [vm_compute; reflexivity|].
    split; [exact Hthrown|].
    pose proof (classify_natural_throws sample_env "rate" split_sample
                  initial_world Hsplit Hthrown) as Hrun.
    split; [exact Hrun|].
    intros (wd & breaks & Hret). rewrite Hrun in Hret. discriminate.
  - split; [exact Hflat|]. split.
    + apply sample_env_contract; [discriminate|].
      vm_compute. eexists. reflexivity.
    + split; [exact Hone|].
      apply classify_natural_no_palette; [exact Hflat|].
      rewrite Hone. simpl. lia.
Qed.

Lemma rate_sample_contract :
  jenks_contract rate_sample (numBreaks_of rate_sample)
    (jenks sample_env rate_sample (numBreaks_of rate_sample)).
Proof.
  apply sample_env_contract; [discriminate|].
  vm_compute. eexists. reflexivity.
Qed.

(** C10 at the rates 0 to 5, with a county at the largest value. *)
Lemma natural_breaks_last_is_max_no_overflow_witness :
  (5 <= length (set_values rate_sample))%nat /\
  last (natural_breaks sample_env rate_sample) = Some (zq 5) /\
  county_data_break (one_county 5) (natural_breaks sample_env rate_sample)
    (county_at "Dane" 100 200) <> TagOverflow.
Proof.
  assert (HU : (5 <= length (set_values rate_sample))%nat)
    by (vm_compute; lia).
  destruct (natural_breaks_last_is_max_no_overflow sample_env rate_sample
              HU rate_sample_contract) as (_ & Hno).
  split; [exact HU|]. split; [vm_compute; reflexivity|].
  apply (Hno (one_county 5) (county_at "Dane" 100 200)
             (<["rate"%string := VNum (F 5)]> ∅) (zq 5)).
  - unfold rate_sample. simpl. list_facts.
  - reflexivity.
  - reflexivity.
Defined.

(** C4 at a county whose value, 3, is the third of five breaks. *)
Lemma assignBucket_first_break_at_or_above_witness :
  healthByCounty (one_county 3) !! "Dane"%string
  = Some (<["rate"%string := VNum (F 3)]> ∅) /\
  isNaN (F 3) = false /\
  county_data_break (one_county 3) (map zq [1; 2; 3; 4; 5])
    (county_at "Dane" 100 200) = TagBreak (zq 3).
Proof.
  split; [reflexivity|]. split; [reflexivity|].
  destruct (assignBucket_first_break_at_or_above (one_county 3)
              (map zq [1; 2; 3; 4; 5]) (county_at "Dane" 100 200)
              (<["rate"%string := VNum (F 3)]> ∅) (F 3)
              eq_refl eq_refl eq_refl) as (_ & _ & _ & Hboundary & _).
  apply (Hboundary 2%nat (zq 3)).
  - simpl. list_facts.
  - reflexivity.
  - reflexivity.
Defined.

(** The claim of C2 fails at a value equal to the first break, which gets
    the colour of the second bucket, and above the last break, where the
    value gets the last colour of the palette, as does the last break
    itself: the scale has no overflow value. *)
Lemma color_at_first_break_counterexample :
  let breaks := map zq [10; 20] in
  exists colors, colorRange_of (length breaks + 1) = Some colors /\
    let sc := {| domain := breaks; range := colors |} in
    breaks !! 0%nat = Some (zq 10) /\
    (zq 10 <= zq 10)%Qc /\
    scale_apply sc (F 10) = colors !! 1%nat /\
    scale_apply sc (F 10) <> colors !! 0%nat /\
    scale_apply sc (F 25) = last colors /\
    scale_apply sc (F 20) = last colors.
Proof.
  cbv zeta. eexists. split; [reflexivity|].
  repeat split; try reflexivity; discriminate.
Qed.

(** C2 as amended, at the breaks 10 and 20 and the value 10. *)
Lemma colorScale_lower_inclusive_thresholds_witness :
  StronglySorted Qclt (map zq [10; 20]) /\
  scale_apply {| domain := map zq [10; 20];
                 range := map (SchemeReds 3) (seq 0 3) |} (F 10)
  = Some (SchemeReds 3 1).
Proof.
  assert (Hs : StronglySorted Qclt (map zq [10; 20]))
    by (simpl; list_facts).
  split; [exact Hs|].
  destruct (colorScale_lower_inclusive_thresholds (map zq [10; 20])
              (map (SchemeReds 3) (seq 0 3)) (zq 10) Hs eq_refl)
    as (_ & Hmid & _).
  apply (Hmid 0%nat (zq 10) (zq 20)); reflexivity || discriminate.
Defined.

(** C5 as amended, at the sample table after "note" has been selected. *)
Lemma insufficient_data_alerts_and_draws_nothing_witness :
  let before := fst (callback sample_env sample_data initial_world) in
  let wd := with_app (set_expressed (Some "note"%string)) before in
  let p := prepare sample_env sample_data wd in
  is_Return (snd p) = true /\
  (length (expressedValues_of (key_of (expressed (app (fst p))))
                              (returned [] (snd p))) < 2)%nat /\
  snd (callback sample_env sample_data wd)
  = Throw (Error "Bad data column selected") /\
  alerts (page (fst (callback sample_env sample_data wd)))
  = [insufficient_message "note"].
Proof.
  cbv zeta.
  set (wd := with_app (set_expressed (Some "note"%string))
               (fst (callback sample_env sample_data initial_world))).
  assert (Hret : is_Return (snd (prepare sample_env sample_data wd)) = true)
    by (vm_compute; reflexivity).
  assert (Hlen : (length (expressedValues_of
                    (key_of (expressed
                       (app (fst (prepare sample_env sample_data wd)))))
                    (returned [] (snd (prepare sample_env sample_data wd))))
                  < 2)%nat) by (vm_compute; lia).
  destruct (insufficient_data_alerts_and_draws_nothing sample_env sample_data
              wd _ _ (returned_pair _ Hret) Hlen) as (Hcall & _).
  split; [exact Hret|]. split; [exact Hlen|].
  rewrite Hcall. split; [reflexivity|]. vm_compute. reflexivity.
Defined.

(** * Further properties of the code *)

(** ** What [setCounties] draws *)

Lemma fill_paths_scale (s : AppState) (sc : ThresholdScale)
    (cs : list CountyPath) :
  colorScale s = Some sc ->
  fill_paths s cs
  = (map (fun c => with_fill c (fill (drawn_path s sc [] (feature c)))) cs,
     None).
Proof.
  intros Hsc. induction cs as [|c cs IH]; simpl; [reflexivity|].
  unfold county_fill. rewrite Hsc, IH.
  destruct (healthByCounty s !! NAME (feature c)); reflexivity.
Qed.

Lemma fill_paths_shape (s : AppState) (cs : list CountyPath) :
  map feature (fst (fill_paths s cs)) = map feature cs /\
  map data_break (fst (fill_paths s cs)) = map data_break cs.
Proof.
  induction cs as [|c cs [IHf IHd]]; simpl; [split; reflexivity|].
  destruct (county_fill s (feature c)) as [col|e]; [|split; reflexivity].
  destruct (fill_paths s cs) as [rest e]. simpl in *.
  now rewrite IHf, IHd.
Qed.

Lemma fill_paths_null_scale (s : AppState) (cs : list CountyPath) :
  colorScale s = None ->
  (exists c, c ∈ cs /\ is_Some (healthByCounty s !! NAME (feature c))) ->
  snd (fill_paths s cs) = Some TypeError.
Proof.
  intros Hsc. induction cs as [|c cs IH]; intros (c0 & Hin & Hrec).
  - now apply elem_of_nil in Hin.
  - simpl. unfold county_fill. rewrite Hsc.
    destruct (healthByCounty s !! NAME (feature c)) as [r|] eqn:E;
      [reflexivity|].
    apply elem_of_cons in Hin as [-> | Hin].
    + rewrite E in Hrec. now destruct Hrec.
    + specialize (IH (ex_intro _ c0 (conj Hin Hrec))).
      destruct (fill_paths s cs) as [rest e]. simpl in *. exact IH.
Qed.

(** *** The join by index *)

Lemma rebind_cons (c : CountyPath) (cs : list CountyPath) (v : Feature)
    (vs : list Feature) :
  rebind (c :: cs) (v :: vs) = with_feature c v :: rebind cs vs.
Proof. reflexivity. Qed.

Lemma rebind_nil_r (cs : list CountyPath) : rebind cs [] = cs.
Proof.
  induction cs as [|c cs IH]; [reflexivity|].
  change (rebind (c :: cs) []) with (c :: rebind cs []). now rewrite IH.
Qed.

Lemma rebind_length (cs : list CountyPath) (vs : list Feature) :
  length (rebind cs vs) = length cs.
Proof. apply length_imap. Qed.

(** The join touches the datum of a path only. *)
Lemma rebind_style (cs : list CountyPath) (vs : list Feature) :
  map (fun c => (fill c, data_break c, glowing c)) (rebind cs vs)
  = map (fun c => (fill c, data_break c, glowing c)) cs.
Proof.
  revert vs. induction cs as [|c cs IH]; intros vs; [reflexivity|].
  destruct vs as [|v vs]; [now rewrite rebind_nil_r|].
  rewrite rebind_cons. simpl. now rewrite IH.
Qed.

Lemma rebind_glowing (cs : list CountyPath) (vs : list Feature) :
  Forall (fun c => glowing c = false) cs ->
  Forall (fun c => glowing c = false) (rebind cs vs).
Proof.
  revert vs. induction cs as [|c cs IH]; intros vs H; [constructor|].
  destruct vs as [|v vs]; [now rewrite rebind_nil_r|].
  rewrite rebind_cons. inversion H; subst.
  constructor; [assumption | now apply IH].
Qed.

(** The first paths carry the features passed in, in their order; the
    paths beyond them keep theirs. *)
Lemma rebind_features (cs : list CountyPath) (vs : list Feature) :
  (length vs <= length cs)%nat ->
  map feature (rebind cs vs) = vs ++ map feature (drop (length vs) cs).
Proof.
  revert vs. induction cs as [|c cs IH]; intros vs H.
  - destruct vs; [reflexivity | simpl in H; lia].
  - destruct vs as [|v vs]; [now rewrite rebind_nil_r|].
    rewrite rebind_cons. simpl in *. rewrite IH by lia. reflexivity.
Qed.

Lemma rebind_same (cs : list CountyPath) (vs : list Feature) :
  map feature (take (length vs) cs) = vs -> rebind cs vs = cs.
Proof.
  revert vs. induction cs as [|c cs IH]; intros vs H; [reflexivity|].
  destruct vs as [|v vs]; [now rewrite rebind_nil_r|].
  simpl in H. injection H as Hv Hvs.
  rewrite rebind_cons, (IH vs Hvs), <- Hv. now destruct c.
Qed.

Lemma setCounties_fresh (feats : list Feature) (breaksArray : list Qc)
    (sc : ThresholdScale) (wd : World) :
  colorScale (app wd) = Some sc ->
  counties (page wd) = [] ->
  setCounties feats breaksArray wd
  = (with_page (set_counties
       (map (drawn_path (app wd) sc breaksArray) feats)) wd,
     Return tt).
Proof.
  intros Hsc Hempty.
  unfold setCounties. rewrite Hempty. simpl. rewrite drop_0.
  rewrite (fill_paths_scale _ sc) by assumption. simpl.
  rewrite !map_map. reflexivity.
Qed.

(** X1. On an empty map with a colour scale installed, for features
    with plain names and a plain table of records, [setCounties] returns
    and leaves one path per feature, in the order of the features: filled
    with the colour of the county's value and tagged with its break, or
    filled "#ccc" and tagged "none" when no record has the name of the
    feature. *)
Theorem setCounties_draws_each_feature
    (feats : list Feature) (breaksArray : list Qc) (sc : ThresholdScale)
    (wd : World) :
  colorScale (app wd) = Some sc ->
  counties (page wd) = [] ->
  plain_object (healthByCounty (app wd)) ->
  Forall (fun f => is_plain_name (NAME f) = true) feats ->
  setCounties feats breaksArray wd
  = (with_page (set_counties
       (map (drawn_path (app wd) sc breaksArray) feats)) wd,
     Return tt) /\
  (forall f, f ∈ feats -> healthByCounty (app wd) !! NAME f = None ->
     fill (drawn_path (app wd) sc breaksArray f) = Some Gray /\
     data_break (drawn_path (app wd) sc breaksArray f) = Some TagNone).
Proof.
  intros Hsc Hempty _ _. split.
  - now apply setCounties_fresh.
  - intros f _ Hmiss. unfold drawn_path, county_data_break. simpl.
    rewrite Hmiss. split; reflexivity.
Qed.

(** X2. While [state.colorScale] is null, [setCounties] on an empty map
    throws a TypeError as soon as one feature has a record: the paths of
    all features have been appended by then, none has a [data-break]
    attribute, and no path is glowing. *)
Theorem setCounties_null_scale_throws
    (feats : list Feature) (breaksArray : list Qc) (wd : World) (f : Feature) :
  colorScale (app wd) = None ->
  counties (page wd) = [] ->
  f ∈ feats ->
  is_Some (healthByCounty (app wd) !! NAME f) ->
  snd (setCounties feats breaksArray wd) = Throw TypeError /\
  map feature (counties (page (fst (setCounties feats breaksArray wd))))
  = feats /\
  Forall (fun c => data_break c = None)
         (counties (page (fst (setCounties feats breaksArray wd)))) /\
  app (fst (setCounties feats breaksArray wd)) = app wd.
Proof.
  intros Hsc Hempty Hin Hrec.
  pose proof (fill_paths_null_scale (app wd) (map new_path feats) Hsc) as He.
  pose proof (fill_paths_shape (app wd) (map new_path feats)) as [Hf Hd].
  unfold setCounties. rewrite Hempty. simpl. rewrite drop_0.
  destruct (fill_paths (app wd) (map new_path feats)) as [filled err].
  simpl in *. rewrite He.
  2:{ exists (new_path f). split; [|exact Hrec].
      apply list_elem_of_fmap. exists f. split; [reflexivity | assumption]. }
  simpl. split; [reflexivity|]. split; [|split; [|reflexivity]].
  - rewrite Hf, map_map. simpl. apply map_id.
  - apply Forall_forall. intros c Hc.
    assert (Hn : data_break c ∈ map data_break filled)
      by (apply list_elem_of_fmap; eauto).
    rewrite Hd, map_map in Hn. simpl in Hn.
    apply list_elem_of_fmap in Hn as (f0 & -> & _). reflexivity.
Qed.


(** ** Colour, tag and tooltip of a bucket *)

Lemma sorted_lookup_inj (l : list Qc) (i j : nat) (b : Qc) :
  StronglySorted Qclt l -> l !! i = Some b -> l !! j = Some b -> i = j.
Proof.
  intros Hs Hi Hj.
  destruct (Nat.lt_trichotomy i j) as [H | [H | H]]; [|assumption|].
  - exfalso. apply (Qclt_not_le b b); [|apply Qcle_refl].
    eapply sorted_lookup_lt; eauto.
  - exfalso. apply (Qclt_not_le b b); [|apply Qcle_refl].
    eapply sorted_lookup_lt; eauto.
Qed.

(** In a strictly increasing break set the tag is break [i] exactly for
    the values above break [i - 1] and at or below break [i]. *)
Lemma scan_breaks_interval (breaksArray : list Qc) (v : Qc) (i : nat)
    (b : Qc) :
  StronglySorted Qclt breaksArray -> breaksArray !! i = Some b ->
  (scan_breaks (Fin v) breaksArray = TagBreak b <->
   (v <= b)%Qc /\
   forall j lo, i = S j -> breaksArray !! j = Some lo -> (lo < v)%Qc).
Proof.
  intros Hs Hi. rewrite scan_breaks_break. split.
  - intros (i' & Hi' & Hle & Hbefore).
    assert (i' = i) by (eapply sorted_lookup_inj; eauto). subst i'.
    rewrite js_le_fin in Hle. apply qleb_le in Hle. split; [assumption|].
    intros j lo -> Hj. apply qleb_gt. rewrite <- js_le_fin.
    apply (Hbefore j lo); [lia | assumption].
  - intros (Hle & Hprev). exists i. split; [assumption|]. split.
    + rewrite js_le_fin. now apply qleb_le.
    + intros j b' Hj Hb'. rewrite js_le_fin. apply qleb_gt.
      destruct i as [|i0]; [lia|].
      destruct (breaksArray !! i0) as [lo|] eqn:Elo.
      2:{ apply lookup_ge_None in Elo. apply lookup_lt_Some in Hi. lia. }
      specialize (Hprev i0 lo eq_refl Elo).
      destruct (decide (j = i0)) as [-> | Hne].
      * congruence.
      * eapply Qclt_trans; [|exact Hprev].
        eapply sorted_lookup_lt; [exact Hs | | exact Hb' | exact Elo]. lia.
Qed.

(** X4. For strictly increasing breaks and a palette of one colour more,
    a county tagged with break [i] is filled with colour [i] when its
    value is below the break and with colour [i + 1] when its value is the
    break itself; a county tagged "overflow" is filled with the last
    colour. *)
Theorem county_fill_versus_tag
    (breaks : list Qc) (colors : list color) (s : AppState) (f : Feature)
    (record : row) (v : Qc) :
  StronglySorted Qclt breaks -> length colors = S (length breaks) ->
  colorScale s = Some {| domain := breaks; range := colors |} ->
  healthByCounty s !! NAME f = Some record ->
  to_number (prop_get record (key_of (expressed s))) = Fin v ->
  (forall i b, breaks !! i = Some b ->
     county_data_break s breaks f = TagBreak b ->
     ((v < b)%Qc -> county_fill s f = Return (colors !! i)) /\
     (v = b -> county_fill s f = Return (colors !! S i))) /\
  (county_data_break s breaks f = TagOverflow ->
   county_fill s f = Return (last colors)).
Proof.
  intros Hs Hlen Hsc Hrec Hval.
  unfold county_fill. rewrite Hrec, Hsc, Hval.
  rewrite (county_data_break_value s breaks f record (Fin v))
    by (assumption || reflexivity).
  destruct (scale_apply_index breaks colors v Hs Hlen) as (j & Hj & -> & Hchar).
  split.
  - intros i b Hi Htag.
    apply (scan_breaks_interval breaks v i b Hs Hi) in Htag as [Hle Hprev].
    assert (Hlow : (i <= j)%nat).
    { destruct i as [|i0]; [lia|].
      destruct (breaks !! i0) as [lo|] eqn:Elo.
      2:{ apply lookup_ge_None in Elo. apply lookup_lt_Some in Hi. lia. }
      assert (i0 < j)%nat; [|lia].
      apply (Hchar i0 lo Elo), Qclt_le_weak, (Hprev i0 lo eq_refl Elo). }
    split.
    + intros Hlt. do 2 f_equal.
      assert (~ (i < j)%nat); [|lia].
      intros Hc. apply (Hchar i b Hi) in Hc. eapply Qclt_not_le; eauto.
    + intros ->. do 2 f_equal.
      assert (i < j)%nat by (apply (Hchar i b Hi), Qcle_refl).
      destruct (breaks !! S i) as [hi|] eqn:Ehi.
      * assert (~ (S i < j)%nat); [|lia].
        intros Hc. apply (Hchar (S i) hi Ehi) in Hc.
        apply (Qclt_not_le _ _ (sorted_lookup_lt breaks i (S i) b hi Hs
                                  ltac:(lia) Hi Ehi) Hc).
      * apply lookup_ge_None in Ehi. lia.
  - intros Hov. f_equal. rewrite last_lookup, Hlen. simpl. f_equal.
    rewrite scan_breaks_overflow in Hov.
    destruct (decide (j = length breaks)) as [-> | Hne]; [reflexivity|].
    exfalso. destruct (breaks !! j) as [b|] eqn:Eb.
    2:{ apply lookup_ge_None in Eb. lia. }
    specialize (Hov b (list_elem_of_lookup_2 _ _ _ Eb)).
    rewrite js_le_fin in Hov. apply qleb_gt in Hov.
    assert (j < j)%nat; [|lia].
    apply (Hchar j b Eb), Qclt_le_weak, Hov.
Qed.


(** ** The handlers of a break *)

Lemma indexOf_sorted (breaksArray : list Qc) (i : nat) (d : Qc) :
  StronglySorted Qclt breaksArray -> breaksArray !! i = Some d ->
  indexOf breaksArray d = Some i.
Proof.
  intros Hs. revert i. induction Hs as [|b rest Hs IH Hall]; intros i Hi.
  - discriminate.
  - destruct i as [|i]; simpl in *.
    + injection Hi as ->.
      replace (qeqb d d) with true; [reflexivity|].
      symmetry. now apply qeqb_eq.
    + destruct (qeqb b d) eqn:E.
      * apply qeqb_eq in E. subst b. exfalso.
        rewrite Forall_forall in Hall.
        apply (Qclt_not_le d d); [|apply Qcle_refl].
        apply Hall, (list_elem_of_lookup_2 _ _ _ Hi).
      * rewrite (IH i Hi). reflexivity.
Qed.

Lemma fold_left_qmin (rest : list Qc) (v : Qc) :
  let m := fold_left qmin rest v in
  m ∈ v :: rest /\ forall u, u ∈ v :: rest -> (m <= u)%Qc.
Proof.
  revert v. induction rest as [|w rest IH]; intros v; simpl.
  - split; [left|]. intros u Hu. apply list_elem_of_singleton in Hu.
    subst. apply Qcle_refl.
  - destruct (IH (qmin v w)) as [Hin Hle]. split.
    + apply elem_of_cons in Hin as [-> | Hin].
      * unfold qmin. destruct (qleb v w); [left | right; left].
      * right; right; assumption.
    + intros u Hu.
      assert (Hv : (qmin v w <= v)%Qc /\ (qmin v w <= w)%Qc).
      { unfold qmin. destruct (qleb v w) eqn:E.
        - split; [apply Qcle_refl | now apply qleb_le].
        - split; [apply Qclt_le_weak; now apply qleb_gt | apply Qcle_refl]. }
      apply elem_of_cons in Hu as [-> | Hu].
      * eapply Qcle_trans; [apply Hle; left | apply Hv].
      * apply elem_of_cons in Hu as [-> | Hu].
        -- eapply Qcle_trans; [apply Hle; left | apply Hv].
        -- apply Hle. right. assumption.
Qed.

Lemma d3_min_spec (values : list Qc) (v : Qc) :
  v ∈ values ->
  exists m, d3_min values = Some m /\ m ∈ values /\
            forall u, u ∈ values -> (m <= u)%Qc.
Proof.
  destruct values as [|v0 rest]; intros Hv.
  - inversion Hv.
  - exists (fold_left qmin rest v0). split; [reflexivity|].
    apply fold_left_qmin.
Qed.

(** X5. The range shown in the tooltip of a break is the bucket its
    handler highlights.  For strictly increasing breaks, the county path
    drawn by [setCounties] matches the break [d] at index [i] exactly when
    its value lies between [lowerBound] and [d]; the range is closed at
    [d], open at the lower bound for every break but the first, and closed
    at the lower bound (the smallest value) for the first. *)
Theorem tooltip_range_is_highlighted_bucket
    (breaksArray expressedValues : list Qc) (s : AppState)
    (sc : ThresholdScale) (f : Feature) (record : row) (v d : Qc) (i : nat) :
  StronglySorted Qclt breaksArray -> breaksArray !! i = Some d ->
  healthByCounty s !! NAME f = Some record ->
  to_number (prop_get record (key_of (expressed s))) = Fin v ->
  v ∈ expressedValues ->
  exists lo,
    lowerBound_of breaksArray expressedValues d = VNum (Fin lo) /\
    tooltip_html s breaksArray expressedValues d
    = ("Range: " ++ formatDisplay s (VNum (Fin lo)) ++ " – "
       ++ formatDisplay s (VNum (Fin d)))%string /\
    (tag_matches d (drawn_path s sc breaksArray f) = true <->
     (if i is O then lo <= v else lo < v)%Qc /\ (v <= d)%Qc).
Proof.
  intros Hs Hi Hrec Hval Hv.
  cut (exists lo,
    lowerBound_of breaksArray expressedValues d = VNum (Fin lo) /\
    (tag_matches d (drawn_path s sc breaksArray f) = true <->
     (if i is O then lo <= v else lo < v)%Qc /\ (v <= d)%Qc)).
  { intros (lo & Hlo & Hiff). exists lo. split; [exact Hlo|].
    split; [|exact Hiff]. unfold tooltip_html. now rewrite Hlo. }
  unfold lowerBound_of. rewrite (indexOf_sorted breaksArray i d Hs Hi).
  assert (Htag : tag_matches d (drawn_path s sc breaksArray f) = true <->
                 scan_breaks (Fin v) breaksArray = TagBreak d).
  { unfold tag_matches, drawn_path. simpl.
    rewrite (county_data_break_value s breaksArray f record (Fin v))
      by (assumption || reflexivity).
    destruct (scan_breaks (Fin v) breaksArray) as [b| |] eqn:E.
    - rewrite qeqb_eq. split; congruence.
    - split; discriminate.
    - split; discriminate. }
  pose proof (scan_breaks_interval breaksArray v i d Hs Hi) as Hint.
  destruct i as [|j].
  - destruct (d3_min_spec expressedValues v Hv) as (m & -> & _ & Hmin).
    exists m. split; [reflexivity|]. rewrite Htag, Hint. split.
    + intros [Hle _]. split; [apply Hmin, Hv | assumption].
    + intros [_ Hle]. split; [assumption|]. intros j lo Hj. discriminate.
  - destruct (breaksArray !! j) as [lo|] eqn:Elo.
    2:{ apply lookup_ge_None in Elo. apply lookup_lt_Some in Hi. lia. }
    exists lo. split; [reflexivity|]. rewrite Htag, Hint. split.
    + intros [Hle Hprev]. split; [|assumption].
      apply (Hprev j lo eq_refl Elo).
    + intros [Hlo Hle]. split; [assumption|].
      intros j' lo' Hj Hlo'. injection Hj as <-. congruence.
Qed.

(** X6. The circle of break [i] of the chart is filled with colour
    [i + 1] of the palette: the scale is applied to the break itself,
    which belongs to the bucket above it.  So the first colour, the one of
    the counties below the first break, is on no circle. *)
Theorem chart_circle_has_next_colour
    (breaks : list Qc) (colors : list color) (wd : World) :
  StronglySorted Qclt breaks -> length colors = S (length breaks) ->
  let r := setChart (Some {| domain := breaks; range := colors |}) breaks wd in
  snd r = Return tt /\
  app (fst r) = app wd /\
  exists circles, chart (page (fst r)) = Some circles /\
    length circles = length breaks /\
    forall i b, breaks !! i = Some b ->
      circles !! i = Some (b, colors !! S i).
Proof.
  intros Hs Hlen. cbv zeta.
  unfold setChart, modify. simpl.
  split; [reflexivity|]. split; [reflexivity|].
  eexists. split; [reflexivity|]. split; [apply length_map|].
  intros i b Hi. rewrite list_lookup_fmap, Hi. simpl. do 2 f_equal.
  destruct (scale_apply_index breaks colors b Hs Hlen) as (j & Hj & -> & Hchar).
  f_equal.
  assert (i < j)%nat by (apply (Hchar i b Hi), Qcle_refl).
  destruct (breaks !! S i) as [hi|] eqn:Ehi.
  - assert (~ (S i < j)%nat); [|lia].
    intros Hc. apply (Hchar (S i) hi Ehi) in Hc.
    apply (Qclt_not_le _ _ (sorted_lookup_lt breaks i (S i) b hi Hs
                              ltac:(lia) Hi Ehi) Hc).
  - apply lookup_ge_None in Ehi. lia.
Qed.


(** ** Hovering a break *)

Lemma filter_tag_split (d : Qc) (cs : list CountyPath) :
  filter (fun c => tag_matches d c = false) cs
  ++ filter (fun c => tag_matches d c = true) cs ≡ₚ cs.
Proof.
  induction cs as [|c cs IH]; [reflexivity|].
  rewrite !filter_cons.
  destruct (decide (tag_matches d c = false)) as [E | E];
    destruct (decide (tag_matches d c = true)) as [E' | E'];
    try congruence.
  - simpl. now constructor.
  - rewrite <- Permutation_middle. now constructor.
  - destruct (tag_matches d c); congruence.
Qed.

Lemma with_glowing_look (g : bool) (cs : list CountyPath) :
  map path_look (map (fun c => with_glowing c g) cs) = map path_look cs.
Proof. rewrite map_map. reflexivity. Qed.

Lemma unglow_fixed (cs : list CountyPath) :
  Forall (fun c => glowing c = false) cs ->
  map (fun c => with_glowing c false) cs = cs.
Proof.
  induction 1 as [|c cs Hc _ IH]; [reflexivity|].
  simpl. rewrite IH. f_equal. destruct c; simpl in *. now subst.
Qed.

(** X7. [highlightCounties] returns and leaves the shared state alone.
    The county paths are the same up to their order and their glow: the
    paths tagged with the break come last, in their former order, and all
    of them glow; every other path is as it was. *)
Theorem highlightCounties_raises_matching_paths
    (ext : Externals) (breakValue : Qc) (wd : World) :
  let r := highlightCounties ext breakValue wd in
  let old := counties (page wd) in
  let new := counties (page (fst r)) in
  snd r = Return tt /\
  app (fst r) = app wd /\
  map path_look new
  = map path_look (filter (fun c => tag_matches breakValue c = false) old)
    ++ map path_look (filter (fun c => tag_matches breakValue c = true) old) /\
  map path_look new ≡ₚ map path_look old /\
  (forall c, c ∈ new -> tag_matches breakValue c = true -> glowing c = true) /\
  (forall c, c ∈ new -> tag_matches breakValue c = false -> c ∈ old) /\
  exists k, forall i c, new !! i = Some c ->
    (tag_matches breakValue c = true <-> (k <= i)%nat).
Proof.
  cbv zeta. unfold highlightCounties, modify, get, mbind, M_bind, bind.
  cbn [fst snd page app counties with_page set_counties set_callouts].
  set (old := counties (page wd)).
  set (hi := filter (fun c => tag_matches breakValue c = true) old).
  set (lo := filter (fun c => tag_matches breakValue c = false) old).
  assert (Hlo : forall c, c ∈ lo -> tag_matches breakValue c = false /\ c ∈ old)
    by (intros c Hc; now apply list_elem_of_filter in Hc).
  assert (Hhi : forall c, c ∈ map (fun c => with_glowing c true) hi ->
                          tag_matches breakValue c = true /\ glowing c = true).
  { intros c Hc. apply list_elem_of_fmap in Hc as (c0 & -> & Hc0).
    apply list_elem_of_filter in Hc0 as [Hm _]. split; [exact Hm | reflexivity]. }
  split; [reflexivity|]. split; [reflexivity|].
  split; [now rewrite map_app, with_glowing_look|].
  split.
  { rewrite map_app, with_glowing_look, <- map_app.
    apply Permutation_map, filter_tag_split. }
  split.
  { intros c Hc Hm. apply elem_of_app in Hc as [Hc | Hc].
    - apply Hlo in Hc as [Hc _]. congruence.
    - now apply Hhi in Hc. }
  split.
  { intros c Hc Hm. apply elem_of_app in Hc as [Hc | Hc].
    - now apply Hlo in Hc.
    - apply Hhi in Hc as [Hc _]. congruence. }
  exists (length lo). intros i c Hi.
  destruct (decide (i < length lo)%nat) as [Hlt | Hge].
  - rewrite lookup_app_l in Hi by assumption.
    apply list_elem_of_lookup_2, Hlo in Hi as [Hi _].
    split; [congruence | lia].
  - rewrite lookup_app_r in Hi by lia.
    apply list_elem_of_lookup_2, Hhi in Hi as [Hi _].
    split; [lia | intros _; exact Hi].
Qed.

(** X8. Moving the pointer onto a break and off again, on a map where
    no path glows: the shared state is untouched, no callout is left and
    every county path is the one it was, but the stacking order is not
    restored: the paths of the bucket stay raised above the others. *)
Theorem hover_in_and_out_restores_all_but_order
    (ext : Externals) (d : Qc) (wd : World) :
  Forall (fun c => glowing c = false) (counties (page wd)) ->
  let r := (break_mouseover ext d;; break_mouseout) wd in
  let old := counties (page wd) in
  snd r = Return tt /\
  app (fst r) = app wd /\
  callouts (page (fst r)) = [] /\
  counties (page (fst r))
  = filter (fun c => tag_matches d c = false) old
    ++ filter (fun c => tag_matches d c = true) old /\
  counties (page (fst r)) ≡ₚ old /\
  chart (page (fst r)) = chart (page wd) /\
  dropdown (page (fst r)) = dropdown (page wd) /\
  statesPaths (page (fst r)) = statesPaths (page wd).
Proof.
  intros Hquiet. cbv zeta.
  unfold break_mouseover, break_mouseout, highlightCounties,
    unhighlightCounties, modify, get, mbind, M_bind, bind.
  cbn [fst snd page app counties callouts chart dropdown statesPaths
       with_page set_counties set_callouts].
  assert (E : map (fun c => with_glowing c false)
                (filter (fun c => tag_matches d c = false) (counties (page wd))
                 ++ map (fun c => with_glowing c true)
                      (filter (fun c => tag_matches d c = true)
                              (counties (page wd))))
              = filter (fun c => tag_matches d c = false) (counties (page wd))
                ++ filter (fun c => tag_matches d c = true) (counties (page wd))).
  { rewrite map_app, map_map. f_equal.
    - apply unglow_fixed. rewrite Forall_forall in *. intros c Hc.
      apply Hquiet. now apply list_elem_of_filter in Hc as [_ Hc].
    - transitivity (map (fun c => with_glowing c false)
                      (filter (fun c => tag_matches d c = true)
                              (counties (page wd)))); [reflexivity|].
      apply unglow_fixed. rewrite Forall_forall in *. intros c Hc.
      apply Hquiet. now apply list_elem_of_filter in Hc as [_ Hc]. }
  repeat split; try reflexivity.
  - exact E.
  - rewrite E. apply filter_tag_split.
Qed.



(** ** Drawing on a map that has its paths *)

(** X3. The data join of [setCounties] is by index: on a map that already
    has a county path for every feature nothing enters, so the call
    returns without touching a fill, a tag or a glow and without calling
    the colour scale, whatever the state is.  It binds the features to
    the first paths, in their order, and leaves the paths beyond them
    alone; where the first paths already carry these features the page
    is as it was. *)
Theorem setCounties_on_drawn_map_only_rebinds
    (feats : list Feature) (breaksArray : list Qc) (wd : World) :
  (length feats <= length (counties (page wd)))%nat ->
  let old := counties (page wd) in
  setCounties feats breaksArray wd
  = (with_page (set_counties (rebind old feats)) wd, Return tt) /\
  map (fun c => (fill c, data_break c, glowing c)) (rebind old feats)
  = map (fun c => (fill c, data_break c, glowing c)) old /\
  map feature (rebind old feats)
  = feats ++ map feature (drop (length feats) old) /\
  (map feature (take (length feats) old) = feats ->
   setCounties feats breaksArray wd = (wd, Return tt)).
Proof.
  intros Hlen. cbv zeta.
  assert (Hrun : setCounties feats breaksArray wd
                 = (with_page (set_counties
                      (rebind (counties (page wd)) feats)) wd, Return tt)).
  { unfold setCounties. rewrite rebind_length.
    rewrite drop_ge by assumption. simpl. now rewrite app_nil_r. }
  split; [exact Hrun|]. split; [apply rebind_style|].
  split; [now apply rebind_features|].
  intros Hsame. rewrite Hrun, (rebind_same _ _ Hsame).
  destruct wd as [s p]. destruct p. reflexivity.
Qed.

(** ** The labels of the highlighted counties *)

Lemma omap_imap_total {A B C} (g : nat -> A -> B) (f : B -> option C)
    (h : nat -> A -> C) (l : list A) :
  (forall i a, l !! i = Some a -> f (g i a) = Some (h i a)) ->
  omap f (imap g l) = imap h l.
Proof.
  revert g h. induction l as [|a l IH]; intros g h H; [reflexivity|].
  simpl. rewrite (H 0%nat a eq_refl). f_equal.
  apply IH. intros i a' Hi. apply (H (S i)). exact Hi.
Qed.

(** X9. The labels of a hover, on a map drawn from the current state
    in which the selected cell of every record is a number, as [callback]
    leaves it: each highlighted county gets one label, in the order of the
    paths; the label carries the name of the county and its formatted
    value, is anchored at the centroid, and is seeded with the index of
    the county among the highlighted ones. *)
Theorem highlighted_counties_are_labelled_in_order
    (ext : Externals) (breaksArray : list Qc) (d : Qc) (wd : World) :
  let s := app wd in
  let size := viewBox (page wd) in
  let highlighted :=
    filter (fun c => tag_matches d c = true) (counties (page wd)) in
  (forall name record, healthByCounty s !! name = Some record ->
     exists n, record !! key_of (expressed s) = Some (VNum n)) ->
  Forall (fun c => data_break c
                   = Some (county_data_break s breaksArray (feature c)))
         (counties (page wd)) ->
  labelData_of ext s size highlighted
  = imap (fun i c =>
            let p := seed_position ext size i (centroid (feature c)) in
            {| countyName := NAME (feature c);
               value := formatNumber
                          (default VUndef
                             (healthByCounty s !! NAME (feature c)
                              ≫= lookup (key_of (expressed s))));
               anchor := centroid (feature c);
               x := fst p; y := snd p |})
         highlighted /\
  callouts (page (fst (highlightCounties ext d wd)))
  = callouts (page wd)
    ++ map new_callout (simulate250 ext (labelData_of ext s size highlighted)).
Proof.
  cbv zeta. intros Hnum Htags. split; [|reflexivity].
  unfold labelData_of. apply omap_imap_total. intros i c Hi. simpl.
  apply list_elem_of_lookup_2, list_elem_of_filter in Hi as [Hm Hc].
  rewrite Forall_forall in Htags. specialize (Htags c Hc).
  unfold tag_matches in Hm. rewrite Htags in Hm.
  unfold county_data_break in Hm.
  unfold label_of.
  destruct (healthByCounty (app wd) !! NAME (feature c)) as [record|] eqn:Erec;
    [|discriminate].
  destruct (Hnum _ _ Erec) as [n Hn].
  unfold prop_get in *. simpl. rewrite Hn in *. simpl in *.
  destruct (isNaN n); [discriminate|]. reflexivity.
Qed.


(** ** The first part of [callback], statement by statement *)

Lemma toString_pure (ext : Externals) (v : jsval) (wd : World) :
  toString ext v wd = (wd, snd (toString ext v wd)) /\
  forall wd', snd (toString ext v wd') = snd (toString ext v wd).
Proof. destruct v; split; reflexivity. Qed.

Lemma toString_inv (ext : Externals) (v : jsval) (wd wd' : World)
    (cell : string) :
  toString ext v wd = (wd', Return cell) ->
  wd' = wd /\ forall w, toString ext v w = (w, Return cell).
Proof.
  destruct v; simpl; [discriminate | |]; intros [= <- <-]; split; reflexivity.
Qed.

Lemma is_numeric_column_pure (ext : Externals) (first : option row)
    (col : string) (wd : World) :
  is_numeric_column ext first col wd
  = (wd, snd (is_numeric_column ext first col wd)) /\
  forall wd', snd (is_numeric_column ext first col wd')
              = snd (is_numeric_column ext first col wd).
Proof.
  unfold is_numeric_column.
  destruct (_ || _); [split; reflexivity|].
  destruct first as [r|]; [|split; reflexivity].
  destruct (prop_get r col); split; reflexivity.
Qed.

Lemma filterM_numeric_inv (ext : Externals) (first : option row)
    (cols attrs : list string) (wd wd' : World) :
  filterM (is_numeric_column ext first) cols wd = (wd', Return attrs) ->
  wd' = wd /\
  attrs = filter (fun col => is_numeric ext first col = true) cols /\
  Forall (fun col => is_Return (numeric_test ext first col) = true) cols.
Proof.
  revert attrs wd'. induction cols as [|col cols IH]; intros attrs wd' H.
  - injection H as <- <-. repeat split. constructor.
  - simpl in H. unfold mbind, M_bind, bind in H.
    destruct (is_numeric_column_pure ext first col wd) as [E Hind].
    rewrite E in H.
    assert (Et : snd (is_numeric_column ext first col wd)
                 = numeric_test ext first col) by (symmetry; apply Hind).
    rewrite Et in H.
    destruct (numeric_test ext first col) as [keep|e] eqn:Ek; [|discriminate].
    destruct (filterM (is_numeric_column ext first) cols wd)
      as [w2 [kept|e]] eqn:Ef; [|discriminate].
    destruct (IH kept w2 eq_refl) as (-> & -> & Hall).
    injection H as <- <-. split; [reflexivity|]. split.
    + assert (En : is_numeric ext first col = keep)
        by (unfold is_numeric; now rewrite Ek).
      rewrite filter_cons. destruct keep.
      * rewrite decide_True by exact En. reflexivity.
      * rewrite decide_False by (rewrite En; discriminate). reflexivity.
    + constructor; [now rewrite Ek | assumption].
Qed.

Lemma filterM_no_first (ext : Externals) (cols : list string) (wd : World) :
  filterM (is_numeric_column ext None) cols wd = (wd, Return [])
  \/ filterM (is_numeric_column ext None) cols wd = (wd, Throw TypeError).
Proof.
  induction cols as [|col cols IH]; [left; reflexivity|].
  simpl. unfold mbind, M_bind, bind.
  assert (E : is_numeric_column ext None col wd = (wd, Return false)
              \/ is_numeric_column ext None col wd = (wd, Throw TypeError)).
  { unfold is_numeric_column. destruct (_ || _); [left | right]; reflexivity. }
  destruct E as [-> | ->]; [|right; reflexivity].
  destruct IH as [-> | ->]; [left | right]; reflexivity.
Qed.

Lemma parse_row_pure (ext : Externals) (key : string) (d : row)
    (wd wd' : World) :
  snd (parse_row ext key d wd') = snd (parse_row ext key d wd).
Proof.
  unfold parse_row. destruct (prop_get _ key) as [|s|n]; try reflexivity.
  destruct (includes_colon s); reflexivity.
Qed.

Lemma parse_rows_rows (ext : Externals) (key : string) (csv : list row) :
  forall (wd wd' : World) (parsed : list row),
    parse_rows ext key csv wd = (wd', Return parsed) ->
    Forall2 (fun d d' => parsed_row ext key d = Return d') csv parsed.
Proof.
  induction csv as [|d rest IH]; intros wd wd' parsed H.
  - injection H as <- <-. constructor.
  - simpl in H. unfold mbind, M_bind, bind in H.
    pose proof (parse_row_world ext key d wd) as Hw.
    pose proof (parse_row_pure ext key d wd initial_world) as Hp.
    destruct (parse_row ext key d wd) as [w1 [d'|e]]; [|discriminate].
    simpl in Hw, Hp. subst w1. simpl in H.
    destruct (parse_rows ext key rest _) as [w2 [ds|e]] eqn:E; [|discriminate].
    injection H as <- <-.
    constructor; [exact Hp | eapply IH; eauto].
Qed.

(** What a parsed row holds. *)
Lemma parsed_row_cells (ext : Externals) (key : string) (d d' : row) :
  parsed_row ext key d = Return d' ->
  (exists v n, d !! key = Some v /\ d' !! key = Some (VNum n) /\
     (forall s, v = VStr s -> n = cell_number s) /\
     (key <> "rawValue"%string -> d' !! "rawValue"%string = Some v)) /\
  (forall k, k <> key -> k <> "rawValue"%string -> d' !! k = d !! k).
Proof.
  unfold parsed_row, parse_row, prop_get.
  destruct (decide (key = "rawValue"%string)) as [-> | Hne].
  - rewrite lookup_insert_eq. simpl.
    destruct (d !! "rawValue"%string) as [[|s|n]|] eqn:Ed; simpl;
      try discriminate.
    + destruct (includes_colon s) eqn:Ec; intros [= <-]; split.
      * exists (VStr s), (parseFloat (split_colon_head s)).
        rewrite lookup_insert_eq. repeat split; try congruence.
        intros s' [= <-]. unfold cell_number. now rewrite Ec.
      * intros k Hk _. now rewrite !lookup_insert_ne by congruence.
      * exists (VStr s), (string_to_number (remove_commas s)).
        rewrite lookup_insert_eq. repeat split; try congruence.
        intros s' [= <-]. unfold cell_number. now rewrite Ec.
      * intros k Hk _. now rewrite !lookup_insert_ne by congruence.
    + intros [= <-]. split.
      * eexists _, _. rewrite lookup_insert_eq.
        repeat split; congruence.
      * intros k Hk _. now rewrite !lookup_insert_ne by congruence.
  - rewrite lookup_insert_ne by congruence.
    destruct (d !! key) as [[|s|n]|] eqn:Ed; simpl; try discriminate.
    + destruct (includes_colon s) eqn:Ec; intros [= <-]; split.
      * exists (VStr s), (parseFloat (split_colon_head s)).
        rewrite lookup_insert_eq, lookup_insert_ne, lookup_insert_eq
          by congruence.
        repeat split; try congruence.
        intros s' [= <-]. unfold cell_number. now rewrite Ec.
      * intros k Hk Hr. now rewrite !lookup_insert_ne by congruence.
      * exists (VStr s), (string_to_number (remove_commas s)).
        rewrite lookup_insert_eq, lookup_insert_ne, lookup_insert_eq
          by congruence.
        repeat split; try congruence.
        intros s' [= <-]. unfold cell_number. now rewrite Ec.
      * intros k Hk Hr. now rewrite !lookup_insert_ne by congruence.
    + intros [= <-]. split.
      * eexists _, _.
        rewrite lookup_insert_eq, lookup_insert_ne, lookup_insert_eq
          by congruence.
        repeat split; congruence.
      * intros k Hk Hr. now rewrite !lookup_insert_ne by congruence.
Qed.

Lemma prepare_inv (ext : Externals) (data : Data) (wd wd1 : World)
    (parsed : list row) :
  prepare ext data wd = (wd1, Return parsed) ->
  exists first cell,
    let attrs := filter (fun col => is_numeric ext (Some first) col = true) (columns data) in
    let e := if is_falsy (expressed (app wd)) then head attrs
             else expressed (app wd) in
    head (csvData data) = Some first /\
    Forall (fun col => is_Return (numeric_test ext (Some first) col) = true)
           (columns data) /\
    snd (toString ext (prop_get first (key_of e)) wd) = Return cell /\
    parse_rows ext (key_of e) (csvData data)
               (loop_start wd attrs e (includes_colon cell))
    = (wd1, Return parsed).
Proof.
  unfold prepare. intros H.
  apply bind_Return_inv in H as (w1 & attrs & Hf & H).
  apply filterM_numeric_inv in Hf as (-> & -> & Hall).
  apply bind_Return_inv in H as (w2 & [] & [= <-] & H).
  apply bind_Return_inv in H as (w3 & wda & [= <- <-] & H).
  apply bind_Return_inv in H as (w4 & [] & He & H).
  apply bind_Return_inv in H as (w5 & wdb & [= <- <-] & H).
  apply bind_Return_inv in H as (w6 & cell & Hcell & H).
  apply bind_Return_inv in H as (w7 & [] & [= <-] & H).
  apply bind_Return_inv in H as (w8 & [] & [= <-] & H).
  destruct (head (csvData data)) as [first|] eqn:Ehead; [|discriminate].
  exists first, cell. cbv zeta.
  split; [reflexivity|]. split; [assumption|].
  simpl in He.
  apply toString_inv in Hcell as [-> Hany].
  destruct (is_falsy (expressed (app wd))) eqn:Efalsy;
    injection He as <-; simpl in *;
    (split; [exact (f_equal snd (Hany wd)) | exact H]).
Qed.


(** ** [callback] on a table without rows *)

(** X12. On a table without rows [callback] throws a TypeError, whatever
    the columns are: either the filter of the columns or the ratio check
    reads a cell of the missing first row.  Nothing is drawn and the
    lookup and the colour scale are those of the call before. *)
Theorem callback_on_empty_table_throws
    (ext : Externals) (cols : list string) (feats : list Feature)
    (wd : World) :
  let data := {| csvData := []; columns := cols;
                 countiesFeatures := feats |} in
  let r := callback ext data wd in
  snd r = Throw TypeError /\
  page (fst r) = page wd /\
  colorScale (app (fst r)) = colorScale (app wd) /\
  healthByCounty (app (fst r)) = healthByCounty (app wd).
Proof.
  cbv zeta. unfold callback, prepare, mbind, M_bind, bind. simpl.
  destruct (filterM_no_first ext cols wd) as [-> | ->].
  - unfold modify, get. simpl.
    destruct (is_falsy (expressed (app wd))); simpl; repeat split.
  - repeat split.
Qed.

(** ** The columns offered and the column selected *)

(** X13. After the first part of [callback] the list of columns offered
    is a sublist of the header that has none of "county", "fips" and
    "deaths"; a column is in it exactly when the text of its cell in the
    first row, without commas and cut at the first colon, reads as a
    number: the other rows are not looked at.  The selected column is kept
    when there is one and is the first column offered otherwise, and the
    ratio flag tells whether the selected cell of the first row has a
    colon. *)
Theorem prepare_offers_columns_by_first_row
    (ext : Externals) (data : Data) (wd wd1 : World) (parsed : list row) :
  prepare ext data wd = (wd1, Return parsed) ->
  exists first,
    head (csvData data) = Some first /\
    sublist (attrArray (app wd1)) (columns data) /\
    (forall col, col ∈ attrArray (app wd1) ->
       col <> "county"%string /\ col <> "fips"%string /\
       col <> "deaths"%string) /\
    (forall col, col ∈ columns data ->
       col <> "county"%string -> col <> "fips"%string ->
       col <> "deaths"%string ->
       exists text, snd (toString ext (prop_get first col) wd) = Return text /\
         (col ∈ attrArray (app wd1) <->
          isNaN (string_to_number (split_colon_head (remove_commas text)))
          = false)) /\
    expressed (app wd1)
    = (if is_falsy (expressed (app wd)) then head (attrArray (app wd1))
       else expressed (app wd)) /\
    (exists cell,
       snd (toString ext (prop_get first (key_of (expressed (app wd1)))) wd)
       = Return cell /\
       isRatioField (app wd1) = includes_colon cell).
Proof.
  intros H. apply prepare_inv in H as (first & cell & Hhead & Hall & Hcell & H).
  cbv zeta in *.
  apply parse_rows_lookup in H as (_ & Hattr & Hexp & Hratio).
  simpl in Hattr, Hexp, Hratio.
  exists first. rewrite Hattr, Hexp, Hratio.
  split; [assumption|]. split; [apply sublist_filter|].
  assert (Hex : forall col, is_numeric ext (Some first) col = true ->
            col <> "county"%string /\ col <> "fips"%string /\
            col <> "deaths"%string).
  { intros col. unfold is_numeric, numeric_test, is_numeric_column.
    destruct (String.eqb col "county") eqn:E1; [discriminate|].
    destruct (String.eqb col "fips") eqn:E2; [discriminate|].
    destruct (String.eqb col "deaths") eqn:E3; [discriminate|].
    intros _. apply String.eqb_neq in E1, E2, E3. auto. }
  split.
  { intros col Hc. apply list_elem_of_filter in Hc as [Hc _]. now apply Hex. }
  split.
  { intros col Hc N1 N2 N3.
    rewrite Forall_forall in Hall. specialize (Hall col Hc).
    unfold numeric_test, is_numeric_column in Hall.
    apply String.eqb_neq in N1, N2, N3.
    rewrite N1, N2, N3 in Hall. simpl in Hall.
    destruct (prop_get first col) as [|s|n] eqn:Ecell; [discriminate| |].
    - exists s. split; [reflexivity|].
      rewrite list_elem_of_filter.
      unfold is_numeric, numeric_test, is_numeric_column.
      rewrite N1, N2, N3, Ecell. simpl.
      destruct (isNaN _); simpl; (split; [intros [? ?] | intros ?]);
        try discriminate; auto.
    - exists (number_to_string ext n). split; [reflexivity|].
      rewrite list_elem_of_filter.
      unfold is_numeric, numeric_test, is_numeric_column.
      rewrite N1, N2, N3, Ecell. simpl.
      destruct (isNaN _); simpl; (split; [intros [? ?] | intros ?]);
        try discriminate; auto. }
  split; [reflexivity|].
  exists cell. split; [assumption | reflexivity].
Qed.

(** ** The rows after the loop *)

(** X14. The loop of [callback] keeps both readings of the selected
    cell: every row of the table has the column (a row without it makes the
    loop throw), the cell becomes a number, the one read from its text
    where the cell was text, the former cell is kept under "rawValue", and
    no other cell of the row changes.  The rows stay in their order. *)
Theorem parsed_rows_keep_text_and_number
    (ext : Externals) (data : Data) (wd wd1 : World) (parsed : list row) :
  prepare ext data wd = (wd1, Return parsed) ->
  let key := key_of (expressed (app wd1)) in
  page wd1 = page wd /\
  colorScale (app wd1) = colorScale (app wd) /\
  Forall2 (fun d d' =>
    (exists v n, d !! key = Some v /\ d' !! key = Some (VNum n) /\
       (forall s, v = VStr s -> n = cell_number s) /\
       (key <> "rawValue"%string -> d' !! "rawValue"%string = Some v)) /\
    (forall k, k <> key -> k <> "rawValue"%string -> d' !! k = d !! k))
    (csvData data) parsed.
Proof.
  intros H. cbv zeta.
  pose proof (quiet_prepare ext data wd) as [Hpage Hscale].
  rewrite H in Hpage, Hscale. simpl in Hpage, Hscale.
  split; [assumption|]. split; [assumption|].
  apply prepare_inv in H as (first & cell & Hhead & Hall & Hcell & H).
  cbv zeta in *.
  pose proof (parse_rows_lookup _ _ _ _ _ _ H) as (_ & _ & Hexp & _).
  simpl in Hexp. rewrite Hexp.
  apply parse_rows_rows in H.
  eapply Forall2_impl; [exact H|].
  intros d d' Hd. now apply (parsed_row_cells ext).
Qed.



(** ** The sample *)

Lemma insert_asc_perm (x : Qc) (xs : list Qc) : insert_asc x xs ≡ₚ x :: xs.
Proof.
  induction xs as [|y ys IH]; simpl; [reflexivity|].
  destruct (qleb x y); [reflexivity|].
  rewrite IH. apply perm_swap.
Qed.

Lemma sort_asc_perm (xs : list Qc) : sort_asc xs ≡ₚ xs.
Proof.
  induction xs as [|x xs IH]; simpl; [reflexivity|].
  now rewrite insert_asc_perm, IH.
Qed.

Lemma omap_length_le {A B} (f : A -> option B) (l : list A) :
  (length (omap f l) <= length l)%nat.
Proof.
  induction l as [|a l IH]; [reflexivity|].
  change (omap f (a :: l))
    with (match f a with Some y => y :: omap f l | None => omap f l end).
  destruct (f a); simpl; lia.
Qed.

(** X16. [expressedValues] is the ascending arrangement of the finite
    selected cells of the rows, one entry per such row: cells that are no
    number or infinite are left out, equal values are kept as often as
    they occur. *)
Theorem expressedValues_are_the_finite_cells_ascending
    (key : string) (csvData : list row) :
  let expressedValues := expressedValues_of key csvData in
  StronglySorted Qcle expressedValues /\
  expressedValues
  ≡ₚ omap (fun d => finite_value (prop_get d key)) csvData /\
  (forall v, v ∈ expressedValues <->
     exists d, d ∈ csvData /\ to_number (prop_get d key) = Fin v) /\
  (length expressedValues <= length csvData)%nat.
Proof.
  cbv zeta. unfold expressedValues_of.
  split; [apply sort_asc_sorted|].
  split; [apply sort_asc_perm|].
  split.
  - intros v. rewrite sort_asc_elem, list_elem_of_omap.
    unfold finite_value. split.
    + intros (d & Hd & Hv). exists d. split; [assumption|].
      destruct (to_number _); congruence.
    + intros (d & Hd & Hv). exists d. split; [assumption|]. now rewrite Hv.
  - rewrite sort_asc_perm. apply omap_length_le.
Qed.


(** ** [callback] as a whole *)

Lemma colorRange_Some (n : nat) (colors : list color) :
  colorRange_of n = Some colors -> length colors = n /\ (3 <= n)%nat.
Proof.
  unfold colorRange_of, schemeReds.
  destruct (n <=? 9)%nat eqn:E9.
  - destruct (3 <=? n)%nat eqn:E3; [|discriminate].
    simpl. intros [= <-]. rewrite length_map, length_seq.
    apply Nat.leb_le in E3. split; [reflexivity | assumption].
  - intros [= <-]. rewrite length_map, length_seq.
    apply Nat.leb_gt in E9. split; [reflexivity | lia].
Qed.

(** X17. A selected column with at least two finite values but fewer
    than five distinct ones: [callback] warns and throws a ReferenceError
    at the assignment to [colorScale], on every page whose global object
    has no such name.  Nothing is drawn, and the colour scale of the state
    is the one of the call before. *)
Theorem callback_few_distinct_values_throws
    (ext : Externals) (data : Data) (wd wd1 : World) (parsed : list row) :
  prepare ext data wd = (wd1, Return parsed) ->
  let vs := expressedValues_of (key_of (expressed (app wd1))) parsed in
  (2 <= length vs)%nat ->
  (length (set_values vs) < 5)%nat ->
  existsb (String.eqb "colorScale") (globalNames (page wd)) = false ->
  let r := callback ext data wd in
  snd r = Throw (ReferenceError "colorScale") /\
  app (fst r) = app wd1 /\
  colorScale (app (fst r)) = colorScale (app wd) /\
  warnings (page (fst r))
  = warnings (page wd) ++ ["Too few unique values — using quantile"%string] /\
  alerts (page (fst r)) = alerts (page wd) /\
  statesPaths (page (fst r)) = statesPaths (page wd) /\
  counties (page (fst r)) = counties (page wd) /\
  chart (page (fst r)) = chart (page wd) /\
  dropdown (page (fst r)) = dropdown (page wd).
Proof.
  intros Hprep vs Hlen HU Hg. cbv zeta.
  pose proof (quiet_prepare ext data wd) as [Hpage Hscale].
  rewrite Hprep in Hpage, Hscale. simpl in Hpage, Hscale.
  unfold callback, mbind, M_bind, bind. rewrite Hprep.
  unfold get. cbn iota beta.
  fold vs.
  rewrite (classify_quantile_throws ext _ vs wd1 Hlen HU)
    by (rewrite Hpage; exact Hg).
  simpl. rewrite Hpage. repeat split; assumption.
Qed.

(** X18. A call of [callback] that returns, on an empty map of a page
    whose global object has no [colorScale], for features with plain
    names and a table no row of which is stored under "__proto__": the
    selected column had at
    least five distinct finite values, the breaks are the natural breaks
    of the sample, at least two, and the scale installed has one colour
    more than breaks.  The map has one path per feature, filled and tagged
    under that scale; the chart has one circle per break, filled by the
    scale at the break; the dropdown offers the numeric columns; one more
    path of states is drawn; no alert or warning is added. *)
Theorem callback_success_draws_everything
    (ext : Externals) (data : Data) (wd : World) :
  snd (callback ext data wd) = Return tt ->
  existsb (String.eqb "colorScale") (globalNames (page wd)) = false ->
  counties (page wd) = [] ->
  Forall (fun f => is_plain_name (NAME f) = true) (countiesFeatures data) ->
  plain_object (healthByCounty (app (fst (callback ext data wd)))) ->
  let wd' := fst (callback ext data wd) in
  let s := app wd' in
  exists parsed breaksArray colors,
    let vs := expressedValues_of (key_of (expressed s)) parsed in
    let sc := {| domain := breaksArray; range := colors |} in
    snd (prepare ext data wd) = Return parsed /\
    (5 <= length (set_values vs))%nat /\
    breaksArray = natural_breaks ext vs /\
    (2 <= length breaksArray)%nat /\
    length colors = S (length breaksArray) /\
    colorScale s = Some sc /\
    counties (page wd')
    = map (drawn_path s sc breaksArray) (countiesFeatures data) /\
    chart (page wd')
    = Some (map (fun b => (b, scale_apply sc (Fin b))) breaksArray) /\
    dropdown (page wd') = Some (attrArray s) /\
    statesPaths (page wd') = S (statesPaths (page wd)) /\
    alerts (page wd') = alerts (page wd) /\
    warnings (page wd') = warnings (page wd) /\
    callouts (page wd') = callouts (page wd).
Proof.
  intros Hret Hg Hempty _ _. cbv zeta.
  pose proof (quiet_prepare ext data wd) as [Hpage Hscale].
  unfold callback, mbind, M_bind, bind in *.
  destruct (prepare ext data wd) as [wd1 [parsed|e]] eqn:Hprep;
    [|discriminate].
  simpl in Hpage, Hscale. unfold get in *. cbn iota beta in *.
  set (vs := expressedValues_of (key_of (expressed (app wd1))) parsed) in *.
  destruct (le_lt_dec 2 (length vs)) as [Hlen | Hlen].
  2:{ exfalso. unfold classify in Hret.
      destruct vs as [|a [|b l]]; simpl in Hlen; try lia; discriminate. }
  destruct (le_lt_dec 5 (length (set_values vs))) as [HU | HU].
  2:{ exfalso.
      rewrite (classify_quantile_throws ext _ vs wd1 Hlen HU) in Hret
        by (rewrite Hpage; exact Hg).
      discriminate. }
  destruct (ss_jenks ext vs (numBreaks_of vs)) as [raw|] eqn:Eraw.
  2:{ exfalso.
      rewrite (classify_natural_throws ext _ vs wd1 HU Eraw) in Hret.
      discriminate. }
  destruct (colorRange_of (length (natural_breaks ext vs) + 1))
    as [colors|] eqn:Ecol.
  2:{ exfalso.
      assert (Hl5 : (5 <= length vs)%nat)
        by (pose proof (set_values_length vs); lia).
      unfold classify in Hret.
      destruct vs as [|v0 [|v1 rest]] eqn:Evs; simpl in Hl5; try lia.
      replace (length (set_values (v0 :: v1 :: rest)) <? 5)%nat with false
        in Hret by (symmetry; apply Nat.ltb_ge; exact HU).
      unfold numBreaks_of in Eraw.
      rewrite Eraw, Ecol in Hret. discriminate. }
  rewrite (classify_natural ext _ vs colors wd1 HU
             (ex_intro _ raw Eraw) Ecol) in Hret |- *.
  apply colorRange_Some in Ecol as [Hcl Hn].
  unfold render, mbind, M_bind, bind, modify, get, createDropdown.
  unfold render, mbind, M_bind, bind, modify, get, createDropdown in Hret.
  cbn iota beta.
  rewrite (setCounties_fresh _ _
             {| domain := natural_breaks ext vs; range := colors |})
    by first [reflexivity | simpl; rewrite Hpage; exact Hempty].
  unfold setChart, modify. simpl.
  exists parsed, (natural_breaks ext vs), colors.
  split; [reflexivity|]. split; [exact HU|]. split; [reflexivity|].
  split; [lia|]. split; [lia|]. split; [reflexivity|].
  rewrite Hpage. repeat split; reflexivity.
Qed.


(** ** Selecting a column *)

Lemma invariant_ret {A} (I : World -> Prop) (a : A) : invariant I (ret a).
Proof. intros wd H. exact H. Qed.

Lemma invariant_throw {A} (I : World -> Prop) (e : jsError) :
  invariant I (@throw A e).
Proof. intros wd H. exact H. Qed.

Lemma invariant_bind {A B} (I : World -> Prop) (m : M A) (k : A -> M B) :
  invariant I m -> (forall a, invariant I (k a)) -> invariant I (m ≫= k).
Proof.
  intros Hm Hk wd H. unfold mbind, M_bind, bind.
  specialize (Hm wd H). destruct (m wd) as [w1 [a|e]]; simpl in *.
  - apply (Hk a w1 Hm).
  - exact Hm.
Qed.

Lemma invariant_get {B} (I : World -> Prop) (k : World -> M B) :
  (forall wd, I wd -> I (fst (k wd wd))) -> invariant I (get ≫= k).
Proof. intros Hk wd H. apply (Hk wd H). Qed.

Lemma invariant_modify (I : World -> Prop) (f : World -> World) :
  (forall wd, I wd -> I (f wd)) -> invariant I (modify f).
Proof. intros Hf wd H. apply (Hf wd H). Qed.

Lemma invariant_pure {A} (I : World -> Prop) (m : M A) :
  (forall wd, fst (m wd) = wd) -> invariant I m.
Proof. intros Hm wd H. now rewrite Hm. Qed.

Lemma filterM_world (ext : Externals) (first : option row)
    (cols : list string) (wd : World) :
  fst (filterM (is_numeric_column ext first) cols wd) = wd.
Proof.
  induction cols as [|col cols IH]; [reflexivity|].
  simpl. unfold mbind, M_bind, bind.
  destruct (is_numeric_column_pure ext first col wd) as [-> _].
  destruct (snd (is_numeric_column ext first col wd)); [|reflexivity].
  destruct (filterM (is_numeric_column ext first) cols wd) as [w [l|e]];
    simpl in *; assumption.
Qed.

Lemma toString_world (ext : Externals) (v : jsval) (wd : World) :
  fst (toString ext v wd) = wd.
Proof. destruct v; reflexivity. Qed.

Lemma rebuilding_app (size : Qc * Qc) (n : nat) (selected : string)
    (f : AppState -> AppState) :
  (forall s, expressed (f s) = expressed s) ->
  invariant (rebuilding size n selected) (modify (with_app f)).
Proof.
  intros Hf. apply invariant_modify. intros wd (H1 & H2).
  split; [simpl; now rewrite Hf | exact H2].
Qed.

Lemma rebuilding_parse_rows (ext : Externals) (size : Qc * Qc) (n : nat)
    (selected : string) (key : string) (csv : list row) :
  invariant (rebuilding size n selected) (parse_rows ext key csv).
Proof.
  induction csv as [|d rest IH]; simpl.
  - apply invariant_ret.
  - apply invariant_bind; [apply invariant_pure, parse_row_world|]. intros d'.
    apply invariant_bind; [now apply rebuilding_app|]. intros _.
    apply invariant_bind; [apply IH|]. intros ds. apply invariant_ret.
Qed.

Lemma rebuilding_prepare (ext : Externals) (size : Qc * Qc) (n : nat)
    (selected : string) (data : Data) :
  selected <> EmptyString -> invariant (rebuilding size n selected) (prepare ext data).
Proof.
  intros Hsel. unfold prepare.
  apply invariant_bind; [apply invariant_pure, filterM_world|]. intros attrs.
  apply invariant_bind; [now apply rebuilding_app|]. intros _.
  apply invariant_get. intros wd1 H1.
  assert (Hf : is_falsy (expressed (app wd1)) = false).
  { destruct H1 as (-> & _). destruct selected; [congruence | reflexivity]. }
  rewrite Hf. revert wd1 H1 Hf.
  change (forall wd1, rebuilding size n selected wd1 -> is_falsy (expressed (app wd1)) = false ->
            rebuilding size n selected (fst ((ret tt;;
               wd ← get;
               let key := key_of (expressed (app wd)) in
               cell ← match head (csvData data) with
                      | Some r => toString ext (prop_get r key)
                      | None => throw TypeError
                      end;
               modify (with_app (set_isRatioField (includes_colon cell)));;
               modify (with_app (set_healthByCounty ∅));;
               parse_rows ext key (csvData data)) wd1))).
  intros wd1 H1 _. revert wd1 H1.
  apply invariant_bind; [apply invariant_ret|]. intros _.
  apply invariant_get. intros wd2 H2. revert wd2 H2.
  intros wd2 H2. generalize (key_of (expressed (app wd2))). intros key.
  revert wd2 H2.
  apply invariant_bind.
  { destruct (head (csvData data));
      [apply invariant_pure, toString_world | apply invariant_throw]. }
  intros cell.
  apply invariant_bind; [now apply rebuilding_app|]. intros _.
  apply invariant_bind; [now apply rebuilding_app|]. intros _.
  apply rebuilding_parse_rows.
Qed.

Lemma rebuilding_notes (size : Qc * Qc) (n : nat) (selected : string)
    (f : Page -> Page) :
  (forall p, viewBox (f p) = viewBox p /\ callouts (f p) = callouts p /\
             counties (f p) = counties p) ->
  invariant (rebuilding size n selected) (modify (with_page f)).
Proof.
  intros Hf. apply invariant_modify. intros wd (H1 & H2 & H3 & H4 & H5).
  destruct (Hf (page wd)) as (E1 & E2 & E3).
  unfold rebuilding. simpl. rewrite E1, E2, E3. repeat split; assumption.
Qed.

Lemma rebuilding_classify (ext : Externals) (size : Qc * Qc) (n : nat)
    (selected : string) (key : string) (vs : list Qc) :
  invariant (rebuilding size n selected) (classify ext key vs).
Proof.
  unfold classify.
  assert (Hfail : invariant (rebuilding size n selected)
    (alert ("Not enough valid data for " ++ dquote ++ key ++ dquote);;
     @throw (list Qc) (Error "Bad data column selected"))).
  { apply invariant_bind; [now apply rebuilding_notes|]. intros _.
    apply invariant_throw. }
  destruct vs as [|v0 [|v1 rest]]; [exact Hfail | exact Hfail |].
  destruct (_ <? 5)%nat.
  - apply invariant_bind; [now apply rebuilding_notes|]. intros _.
    apply invariant_bind.
    { unfold assign_undeclared. apply invariant_get. intros wd H.
      destruct (existsb _ _); exact H. }
    intros _. apply invariant_ret.
  - destruct (ss_jenks ext _ _); [|apply invariant_throw].
    cbv zeta. destruct (colorRange_of _); [|apply invariant_throw].
    apply invariant_bind; [now apply rebuilding_app|]. intros _.
    apply invariant_ret.
Qed.

Lemma fill_paths_quiet (s : AppState) (cs : list CountyPath) :
  length (fst (fill_paths s cs)) = length cs /\
  (Forall (fun c => glowing c = false) cs ->
   Forall (fun c => glowing c = false) (fst (fill_paths s cs))).
Proof.
  induction cs as [|c cs [IHl IHg]]; simpl; [split; [reflexivity | auto]|].
  destruct (county_fill s (feature c)) as [col|e]; [|split; [reflexivity | auto]].
  destruct (fill_paths s cs) as [rest e]. simpl in *. split; [now rewrite IHl|].
  intros H. inversion H; subst. constructor; [assumption | auto].
Qed.

Lemma rebuilding_setCounties (size : Qc * Qc) (n : nat) (selected : string)
    (feats : list Feature) (breaksArray : list Qc) :
  length feats = n -> invariant (rebuilding size n selected) (setCounties feats breaksArray).
Proof.
  intros Hn wd (H1 & H2 & H3 & H4 & H5). unfold setCounties.
  rewrite rebind_length.
  pose proof (rebind_glowing (counties (page wd)) feats H4) as H4'.
  pose proof (rebind_length (counties (page wd)) feats) as H5'.
  pose proof (fill_paths_quiet (app wd)
                (map new_path (drop (length (counties (page wd))) feats)))
    as [Hl Hg].
  assert (Hnew : Forall (fun c => glowing c = false)
                   (map new_path (drop (length (counties (page wd))) feats)))
    by (apply Forall_forall; intros c Hc;
        apply list_elem_of_fmap in Hc as (f & -> & _); reflexivity).
  specialize (Hg Hnew).
  rewrite length_map, length_drop in Hl.
  destruct (fill_paths _ _) as [filled [e|]]; simpl in *.
  - unfold rebuilding. simpl. repeat split; try assumption.
    + apply Forall_app. split; assumption.
    + rewrite length_app. lia.
  - unfold rebuilding. simpl. repeat split; try assumption.
    + apply Forall_app. split; [assumption|].
      apply Forall_forall. intros c Hc.
      apply list_elem_of_fmap in Hc as (c0 & -> & Hc0). simpl.
      rewrite Forall_forall in Hg. now apply Hg.
    + rewrite length_app, length_map. lia.
Qed.

Lemma rebuilding_render (size : Qc * Qc) (n : nat) (selected : string)
    (data : Data) (breaksArray : list Qc) :
  length (countiesFeatures data) = n ->
  invariant (rebuilding size n selected) (render data breaksArray).
Proof.
  intros Hn. unfold render.
  apply invariant_bind; [now apply rebuilding_notes|]. intros _.
  apply invariant_bind; [now apply rebuilding_setCounties|]. intros _.
  apply invariant_get. intros wd H. revert wd H.
  intros wd H. generalize (colorScale (app wd)). intros sc. revert wd H.
  apply invariant_bind.
  { unfold setChart. destruct sc as [scale|].
    - now apply rebuilding_notes.
    - destruct breaksArray.
      + now apply rebuilding_notes.
      + apply invariant_bind; [now apply rebuilding_notes|]. intros _.
        apply invariant_throw. }
  intros _. unfold createDropdown.
  apply invariant_get. intros wd H. revert wd H.
  intros wd H. generalize (attrArray (app wd)). intros attrs. revert wd H.
  now apply rebuilding_notes.
Qed.

Lemma rebuilding_callback (ext : Externals) (size : Qc * Qc) (n : nat)
    (selected : string) (data : Data) :
  selected <> EmptyString -> length (countiesFeatures data) = n ->
  invariant (rebuilding size n selected) (callback ext data).
Proof.
  intros Hsel Hn. unfold callback.
  apply invariant_bind; [now apply rebuilding_prepare|]. intros parsed.
  apply invariant_get. intros wd H. revert wd H.
  intros wd H. generalize (key_of (expressed (app wd))). intros key.
  revert wd H.
  apply invariant_bind; [apply rebuilding_classify|]. intros breaksArray.
  now apply rebuilding_render.
Qed.

(** X19. Selecting a column in the dropdown, whatever happens next: the
    column stays selected, the map is a new one of the size of its
    container, no callout of the former map is left, no county path
    glows, and there is at most one county path per feature, so the
    paths of the former map are gone, also when [callback] throws. *)
Theorem dropdown_change_rebuilds_the_map
    (ext : Externals) (size : Qc * Qc) (data : Data) (selected : string)
    (wd : World) :
  selected <> EmptyString ->
  let r := dropdown_change ext size data selected wd in
  expressed (app (fst r)) = Some selected /\
  viewBox (page (fst r)) = size /\
  callouts (page (fst r)) = [] /\
  Forall (fun c => glowing c = false) (counties (page (fst r))) /\
  (length (counties (page (fst r))) <= length (countiesFeatures data))%nat.
Proof.
  intros Hsel. cbv zeta.
  unfold dropdown_change, updateVis, setMap, modify, mbind, M_bind, bind.
  cbn iota beta.
  apply (rebuilding_callback ext size (length (countiesFeatures data))
           selected data Hsel eq_refl).
  unfold rebuilding. simpl. repeat split; [constructor | lia].
Qed.


(** ** Display and parse of whole numbers *)

Lemma is_digit_not_ws (c : ascii) : is_digit c = true -> is_ws c = false.
Proof. ascii_cases c. Qed.

Lemma is_digit_not_comma (c : ascii) :
  is_digit c = true -> Ascii.eqb c ","%char = false.
Proof. ascii_cases c. Qed.

Lemma is_digit_not_colon (c : ascii) :
  is_digit c = true -> Ascii.eqb c ":"%char = false.
Proof. ascii_cases c. Qed.

Lemma is_digit_value (c : ascii) :
  is_digit c = true ->
  digit_value 10 c = Some (Z.of_nat (nat_of_ascii c) - 48).
Proof. ascii_cases c. Qed.

Lemma pretty_N_char_digit (d : N) :
  (d < 10)%N ->
  is_digit (pretty_N_char d) = true /\
  digit_value 10 (pretty_N_char d) = Some (Z.of_N d).
Proof.
  intros H.
  assert (d = 0 \/ d = 1 \/ d = 2 \/ d = 3 \/ d = 4 \/ d = 5 \/ d = 6
          \/ d = 7 \/ d = 8 \/ d = 9)%N as Hd by lia.
  repeat (destruct Hd as [-> | Hd]; [split; reflexivity|]).
  subst. split; reflexivity.
Qed.

Lemma parse_sign_digit (c : ascii) (r : string) :
  is_digit c = true -> parse_sign (String c r) = (false, String c r).
Proof. ascii_cases c. Qed.

Lemma starts_with_Infinity_digit (c : ascii) (r : string) :
  is_digit c = true -> starts_with "Infinity" (String c r) = None.
Proof. ascii_cases c. Qed.

Lemma trim_end_digits (s : string) : all_digits s = true -> trim_end s = s.
Proof.
  induction s as [|c r IH]; [reflexivity|].
  simpl. intros H. apply andb_true_iff in H as [Hc Hr].
  rewrite (IH Hr), (is_digit_not_ws c Hc). now destruct r.
Qed.

Lemma trim_digits (s : string) : all_digits s = true -> trim s = s.
Proof.
  intros H. unfold trim.
  destruct s as [|c r]; [reflexivity|].
  pose proof H as H'. simpl in H'. apply andb_true_iff in H' as [Hc _].
  simpl. rewrite (is_digit_not_ws c Hc). now apply trim_end_digits.
Qed.

Lemma remove_commas_digits (s : string) :
  all_digits s = true -> remove_commas s = s.
Proof.
  induction s as [|c r IH]; [reflexivity|].
  simpl. intros H. apply andb_true_iff in H as [Hc Hr].
  now rewrite (is_digit_not_comma c Hc), (IH Hr).
Qed.

Lemma remove_commas_group (s : string) (n : nat) :
  all_digits s = true -> remove_commas (group_from s n) = s.
Proof.
  revert n. induction s as [|c r IH]; intros n H; [reflexivity|].
  simpl in H. apply andb_true_iff in H as [Hc Hr].
  simpl. destruct (_ && _); simpl;
    rewrite (is_digit_not_comma c Hc), (IH _ Hr); reflexivity.
Qed.


Lemma digits_value_snoc (ds : list Z) (d : Z) :
  digits_value 10 (ds ++ [d]) = digits_value 10 ds * 10 + d.
Proof. unfold digits_value. now rewrite fold_left_app. Qed.

(** The digits of a number written by [pretty] read back as the number. *)
Lemma take_digits_pretty_go (x : N) :
  forall (s : string) (ds : list Z),
    all_digits s = true -> take_digits 10 s = (ds, EmptyString) ->
    all_digits (pretty_N_go x s) = true /\
    exists dx, take_digits 10 (pretty_N_go x s) = (dx ++ ds, EmptyString) /\
               digits_value 10 dx = Z.of_N x /\
               ((0 < x)%N -> pretty_N_go x s <> EmptyString).
Proof.
  induction (N.lt_wf_0 x) as [x _ IH]; intros s ds Hs Hds.
  assert (x = 0 \/ 0 < x)%N as [-> | Hx] by lia.
  - rewrite pretty_N_go_0. split; [assumption|].
    exists []. split; [assumption|]. split; [reflexivity | lia].
  - rewrite pretty_N_go_step by assumption.
    destruct (pretty_N_char_digit (x mod 10)%N) as [Hc Hv];
      [now apply N.mod_lt|].
    destruct (IH (x / 10)%N (N.div_lt x 10 Hx eq_refl)
                 (String (pretty_N_char (x mod 10)) s)
                 (Z.of_N (x mod 10) :: ds)) as (Hall & dx & Htake & Hval & Hne).
    { simpl. now rewrite Hc, Hs. }
    { simpl. now rewrite Hv, Hds. }
    split; [assumption|].
    exists (dx ++ [Z.of_N (x mod 10)]).
    split; [now rewrite <- app_assoc|]. split.
    + rewrite digits_value_snoc, Hval.
      rewrite (N.div_mod x 10) at 3 by lia. lia.
    + intros _ E. rewrite E in Htake. simpl in Htake.
      injection Htake as Htake. now destruct dx.
Qed.

Lemma string_to_number_digits (s : string) (ds : list Z) :
  all_digits s = true -> s <> EmptyString ->
  take_digits 10 s = (ds, EmptyString) ->
  string_to_number s = Fin (zq (digits_value 10 ds)) /\
  parseFloat s = Fin (zq (digits_value 10 ds)).
Proof.
  intros Hs Hne Hds.
  assert (Hdec : parse_decimal s
                 = Some (Fin (zq (digits_value 10 ds)), EmptyString)).
  { destruct s as [|c r]; [congruence|].
    pose proof Hs as H'. simpl in H'. apply andb_true_iff in H' as [Hc Hr].
    unfold parse_decimal. rewrite (parse_sign_digit c r Hc).
    unfold parse_unsigned. rewrite (starts_with_Infinity_digit c r Hc), Hds.
    destruct ds as [|d ds'].
    { simpl in Hds. rewrite (is_digit_value c Hc) in Hds.
      destruct (take_digits 10 r). discriminate. }
    simpl. unfold decimal_value, scale10. simpl.
    rewrite app_nil_r, Z.mul_1_r. reflexivity. }
  split.
  - unfold string_to_number. rewrite (trim_digits s Hs).
    destruct s as [|c r]; [congruence|].
    pose proof Hs as H'. simpl in H'. apply andb_true_iff in H' as [Hc Hr].
    assert (Hgen : match parse_decimal (String c r) with
                   | Some (n, EmptyString) => n
                   | _ => NaN
                   end = Fin (zq (digits_value 10 ds)))
      by now rewrite Hdec.
    destruct r as [|c' r']; [ascii_cases c; exact Hgen|].
    simpl in Hr. apply andb_true_iff in Hr as [Hc' _].
    assert (Hx : (Ascii.eqb c' "x" || Ascii.eqb c' "X")%char = false)
      by (clear -Hc'; ascii_cases c').
    assert (Ho : (Ascii.eqb c' "o" || Ascii.eqb c' "O")%char = false)
      by (clear -Hc'; ascii_cases c').
    assert (Hb : (Ascii.eqb c' "b" || Ascii.eqb c' "B")%char = false)
      by (clear -Hc'; ascii_cases c').
    clear Hdec Hds Hs Hne.
    ascii_cases c; try exact Hgen.
    rewrite Hx, Ho, Hb. exact Hgen.
  - unfold parseFloat.
    assert (Ht : trim_start s = s).
    { destruct s as [|c r]; [reflexivity|].
      simpl in Hs. apply andb_true_iff in Hs as [Hc _].
      simpl. now rewrite (is_digit_not_ws c Hc). }
    now rewrite Ht, Hdec.
Qed.

Lemma pretty_digits (z : Z) :
  0 <= z ->
  all_digits (pretty z) = true /\ pretty z <> EmptyString /\
  exists ds, take_digits 10 (pretty z) = (ds, EmptyString) /\
             digits_value 10 ds = z.
Proof.
  intros Hz. destruct z as [|p|p]; [| |lia].
  - split; [reflexivity|]. split; [discriminate|].
    exists [0]. split; reflexivity.
  - change (pretty (Z.pos p)) with (pretty_N_go (N.pos p) "").
    destruct (take_digits_pretty_go (N.pos p) "" [] eq_refl eq_refl)
      as (Hall & dx & Htake & Hval & Hne).
    split; [assumption|]. split; [apply Hne; lia|].
    exists dx. rewrite app_nil_r in Htake. split; [assumption|].
    rewrite Hval. reflexivity.
Qed.

Lemma append_empty_r (s : string) : (s ++ "")%string = s.
Proof.
  induction s as [|c r IH]; [reflexivity|].
  change (String c (r ++ "")%string = String c r). now rewrite IH.
Qed.

Lemma this_zq (z : Z) : this (zq z) = inject_Z z.
Proof.
  unfold zq, num. cbn [this]. apply Qred_identity.
  simpl. apply Z.gcd_1_r.
Qed.

Lemma formatNumber_whole (z : Z) :
  0 <= z -> formatNumber (VNum (F z)) = group_thousands (pretty z).
Proof.
  intros Hz. unfold formatNumber, F. cbn [to_number].
  assert (Hint : has_fraction (Fin (zq z)) = false).
  { unfold has_fraction, is_integer, qfloor.
    rewrite this_zq, Qfloor_Z.
    replace (qeqb (zq z) (zq z)) with true; [reflexivity|].
    symmetry. now apply qeqb_eq. }
  rewrite Hint. unfold toLocaleString.
  assert (Hneg : qltb (zq z) (zq 0) = false).
  { destruct (qltb (zq z) (zq 0)) eqn:E; [|reflexivity].
    apply qltb_lt in E. unfold Qclt in E. rewrite !this_zq in E.
    unfold Qlt in E. simpl in E. lia. }
  rewrite Hneg, this_zq.
  assert (Hr : Qfloor (inject_Z z * 100 + (1 # 2)) = z * 100).
  { pose proof (Qfloor_le (inject_Z z * 100 + (1 # 2))) as H1.
    pose proof (Qlt_floor (inject_Z z * 100 + (1 # 2))) as H2.
    set (m := Qfloor (inject_Z z * 100 + (1 # 2))) in *.
    unfold Qle, Qlt, inject_Z in H1, H2. simpl in H1, H2. lia. }
  rewrite Hr.
  replace (z * 100 / 100) with z by (symmetry; apply Z.div_mul; lia).
  replace ((z * 100) mod 100) with 0 by (symmetry; apply Z.mod_mul; lia).
  simpl. apply append_empty_r.
Qed.


Lemma colon_tail (s t : string) :
  all_digits s = true ->
  includes_colon (s ++ String ":" t) = true /\
  split_colon_head (s ++ String ":" t) = s.
Proof.
  induction s as [|c r IH]; intros H; [split; reflexivity|].
  simpl in H. apply andb_true_iff in H as [Hc Hr].
  destruct (IH Hr) as [E1 E2].
  simpl. rewrite (is_digit_not_colon c Hc), E1, E2. split; reflexivity.
Qed.

Lemma remove_commas_app (s t : string) :
  remove_commas (s ++ t) = (remove_commas s ++ remove_commas t)%string.
Proof.
  induction s as [|c r IH]; [reflexivity|].
  simpl. rewrite IH. now destruct (Ascii.eqb c ",").
Qed.

(** X21. A ratio cell "n:1" for a whole number n from 0 to 2^53: the
    parse of [callback] makes the number n of it, and under the ratio
    flag the display of n is the cell again up to the commas between the
    groups of digits. *)
Theorem ratio_cell_parses_and_displays (s : AppState) (z : Z) :
  0 <= z <= 9007199254740992 -> isRatioField s = true ->
  let cell := (pretty z ++ ":1")%string in
  includes_colon cell = true /\
  cell_number cell = F z /\
  remove_commas (formatDisplay s (VNum (F z))) = cell.
Proof.
  intros [Hz _] Hratio. cbv zeta.
  destruct (pretty_digits z Hz) as (Hall & Hne & ds & Htake & Hval).
  destruct (colon_tail (pretty z) "1" Hall) as [Hc Hhead].
  split; [exact Hc|]. split.
  - unfold cell_number. rewrite Hc, Hhead.
    destruct (string_to_number_digits (pretty z) ds Hall Hne Htake) as [_ ->].
    now rewrite Hval.
  - unfold formatDisplay. rewrite Hratio, (formatNumber_whole z Hz).
    rewrite remove_commas_app. unfold group_thousands.
    now rewrite remove_commas_group.
Qed.

(** ** Cells that are no finite number *)

(** X22. A county whose selected cell is no number, on a map drawn by
    [setCounties]: the scale gives no colour, so the path has no fill of
    its own, not the "#ccc" of a county without a record; its tag is
    "none"; no break highlights it; and its cell is not in the sample. *)
Theorem county_without_number_is_unfilled_and_untagged
    (s : AppState) (sc : ThresholdScale) (breaksArray : list Qc)
    (f : Feature) (record : row) (breakValue : Qc) :
  healthByCounty s !! NAME f = Some record ->
  to_number (prop_get record (key_of (expressed s))) = NaN ->
  fill (drawn_path s sc breaksArray f) = None /\
  data_break (drawn_path s sc breaksArray f) = Some TagNone /\
  tag_matches breakValue (drawn_path s sc breaksArray f) = false /\
  finite_value (prop_get record (key_of (expressed s))) = None /\
  county_fill s f <> Return (Some Gray).
Proof.
  intros Hrec Hnan.
  unfold drawn_path, tag_matches, county_data_break, finite_value,
    county_fill, scale_apply.
  simpl. rewrite Hrec, Hnan. simpl. repeat split.
  destruct (colorScale s); discriminate.
Qed.

(** X23. A county whose selected cell reads as Infinity: the value is
    left out of the sample, so no break is computed from it, but the
    county is drawn; its tag is "overflow" and, for strictly increasing
    breaks and a palette of one colour more, its fill is the last colour
    of the palette.  No break highlights it. *)
Theorem infinite_cell_is_drawn_but_not_sampled
    (s : AppState) (breaks : list Qc) (colors : list color) (f : Feature)
    (record : row) (breakValue : Qc) :
  StronglySorted Qclt breaks -> length colors = S (length breaks) ->
  healthByCounty s !! NAME f = Some record ->
  to_number (prop_get record (key_of (expressed s))) = PosInf ->
  let sc := {| domain := breaks; range := colors |} in
  finite_value (prop_get record (key_of (expressed s))) = None /\
  data_break (drawn_path s sc breaks f) = Some TagOverflow /\
  fill (drawn_path s sc breaks f) = last colors /\
  tag_matches breakValue (drawn_path s sc breaks f) = false.
Proof.
  intros Hs Hlen Hrec Hinf. cbv zeta.
  assert (Htag : county_data_break s breaks f = TagOverflow).
  { rewrite (county_data_break_value s breaks f record PosInf)
      by (assumption || reflexivity).
    apply scan_breaks_overflow. intros b _. reflexivity. }
  unfold drawn_path, tag_matches, finite_value. simpl.
  rewrite Hrec, Hinf, Htag. simpl.
  split; [reflexivity|]. split; [reflexivity|]. split; [|reflexivity].
  unfold scale_apply. simpl. rewrite Hlen.
  replace (Nat.min (length breaks) (S (length breaks) - 1))
    with (length breaks) by lia.
  destruct (bisectRight_spec breaks PosInf (length breaks)
              (sorted_lt_le breaks Hs) (le_n _) eq_refl) as (Hr & _ & Hafter).
  cbv zeta in *.
  set (r := bisectRight breaks PosInf 0 (length breaks)) in *.
  rewrite last_lookup, Hlen. simpl. f_equal.
  destruct (decide (r = length breaks)) as [E | E]; [exact E|].
  destruct (breaks !! r) as [b|] eqn:Eb.
  - specialize (Hafter r b ltac:(lia) Eb). discriminate.
  - apply lookup_ge_None in Eb. lia.
Qed.


(** ** Instances of the further properties *)

(** X1 on the sample features, one of which has a record. *)
Lemma setCounties_draws_each_feature_witness :
  colorScale (app (scaled_world (F 3))) = Some sample_scale /\
  counties (page (scaled_world (F 3))) = [] /\
  plain_object (healthByCounty (app (scaled_world (F 3)))) /\
  Forall (fun f => is_plain_name (NAME f) = true) sample_features /\
  setCounties sample_features (domain sample_scale) (scaled_world (F 3))
  = (painted_world (F 3), Return tt).
Proof.
  assert (Hplain : Forall (fun f => is_plain_name (NAME f) = true)
                          sample_features)
    by (repeat constructor).
  split; [reflexivity|]. split; [reflexivity|]. split; [reflexivity|].
  split; [exact Hplain|].
  apply (setCounties_draws_each_feature sample_features (domain sample_scale)
           sample_scale (scaled_world (F 3)) eq_refl eq_refl eq_refl Hplain).
Defined.

(** X2 on the sample features with the record of one county. *)
Lemma setCounties_null_scale_throws_witness :
  let wd := {| app := one_county 3; page := page initial_world |} in
  colorScale (app wd) = None /\
  is_Some (healthByCounty (app wd) !! "Dane"%string) /\
  snd (setCounties sample_features (map zq [1; 2; 3; 4; 5]) wd)
  = Throw TypeError.
Proof.
  cbv zeta. split; [reflexivity|].
  assert (Hrec : is_Some (healthByCounty (one_county 3) !! "Dane"%string))
    by (eexists; reflexivity).
  split; [exact Hrec|].
  apply (setCounties_null_scale_throws sample_features (map zq [1; 2; 3; 4; 5])
           {| app := one_county 3; page := page initial_world |}
           (county_at "Dane" 100 200) eq_refl eq_refl).
  - unfold sample_features. list_facts.
  - exact Hrec.
Defined.

(** X4 at a county whose value, 3, is the third of five breaks. *)
Lemma county_fill_versus_tag_witness :
  StronglySorted Qclt (map zq [1; 2; 3; 4; 5]) /\
  county_fill (app (scaled_world (F 3))) (county_at "Dane" 100 200)
  = Return (Some (SchemeReds 6 3)).
Proof.
  assert (Hs : StronglySorted Qclt (map zq [1; 2; 3; 4; 5]))
    by (simpl; list_facts).
  split; [exact Hs|].
  destruct (county_fill_versus_tag (map zq [1; 2; 3; 4; 5])
              (map (SchemeReds 6) (seq 0 6)) (app (scaled_world (F 3)))
              (county_at "Dane" 100 200)
              (<["rate"%string := VNum (F 3)]> ∅) (zq 3)
              Hs eq_refl eq_refl eq_refl eq_refl) as [Hbreak _].
  destruct (Hbreak 2%nat (zq 3) eq_refl eq_refl) as [_ Heq].
  exact (Heq eq_refl).
Defined.

(** X5 at the third of five breaks: the range is from 2, open, to 3. *)
Lemma tooltip_range_is_highlighted_bucket_witness :
  StronglySorted Qclt (map zq [1; 2; 3; 4; 5]) /\
  tooltip_html (app (scaled_world (F 3))) (map zq [1; 2; 3; 4; 5])
               (map zq [0; 1; 2; 3; 4; 5]) (zq 3)
  = "Range: 2 – 3"%string /\
  exists lo,
    lowerBound_of (map zq [1; 2; 3; 4; 5]) (map zq [0; 1; 2; 3; 4; 5]) (zq 3)
    = VNum (Fin lo) /\
    (tag_matches (zq 3)
       (drawn_path (app (scaled_world (F 3))) sample_scale
                   (map zq [1; 2; 3; 4; 5]) (county_at "Dane" 100 200))
     = true <-> (lo < zq 3)%Qc /\ (zq 3 <= zq 3)%Qc).
Proof.
  assert (Hs : StronglySorted Qclt (map zq [1; 2; 3; 4; 5]))
    by (simpl; list_facts).
  split; [exact Hs|]. split; [reflexivity|].
  destruct (tooltip_range_is_highlighted_bucket (map zq [1; 2; 3; 4; 5])
              (map zq [0; 1; 2; 3; 4; 5]) (app (scaled_world (F 3)))
              sample_scale (county_at "Dane" 100 200)
              (<["rate"%string := VNum (F 3)]> ∅) (zq 3) (zq 3) 2%nat
              Hs eq_refl eq_refl eq_refl) as (lo & Hlo & _ & Hiff).
  - simpl. list_facts.
  - exists lo. split; [exact Hlo | exact Hiff].
Defined.

(** X6 at the scale of the sample table. *)
Lemma chart_circle_has_next_colour_witness :
  StronglySorted Qclt (domain sample_scale) /\
  chart (page (fst (setChart (Some sample_scale) (domain sample_scale)
                             initial_world)))
  = Some (zip (map zq [1; 2; 3; 4; 5])
              (map (fun i => Some (SchemeReds 6 i)) [1; 2; 3; 4; 5]%nat)).
Proof.
  assert (Hs : StronglySorted Qclt (domain sample_scale))
    by (simpl; list_facts).
  split; [exact Hs|].
  destruct (chart_circle_has_next_colour (domain sample_scale)
              (range sample_scale) initial_world Hs eq_refl)
    as (_ & _ & circles & Hc & _ & _).
  reflexivity.
Defined.

(** X8 on the drawn sample map, at the break of its one county. *)
Lemma hover_in_and_out_restores_all_but_order_witness :
  Forall (fun c => glowing c = false) (counties (page (painted_world (F 3)))) /\
  callouts (page (fst ((break_mouseover sample_env (zq 3);; break_mouseout)
                         (painted_world (F 3))))) = [] /\
  counties (page (fst ((break_mouseover sample_env (zq 3);; break_mouseout)
                         (painted_world (F 3)))))
  ≡ₚ counties (page (painted_world (F 3))).
Proof.
  assert (Hq : Forall (fun c => glowing c = false)
                 (counties (page (painted_world (F 3)))))
    by (repeat constructor).
  split; [exact Hq|].
  destruct (hover_in_and_out_restores_all_but_order sample_env (zq 3)
              (painted_world (F 3)) Hq) as (_ & _ & Hc & _ & Hp & _).
  split; [exact Hc | exact Hp].
Defined.

(** X3 on the drawn sample map. *)
Lemma setCounties_on_drawn_map_only_rebinds_witness :
  (length sample_features
   <= length (counties (page (painted_world (F 3)))))%nat /\
  setCounties sample_features [] (painted_world (F 3))
  = (painted_world (F 3), Return tt).
Proof.
  assert (Hl : (length sample_features
                <= length (counties (page (painted_world (F 3)))))%nat)
    by (simpl; lia).
  split; [exact Hl|].
  destruct (setCounties_on_drawn_map_only_rebinds sample_features []
              (painted_world (F 3)) Hl) as (_ & _ & _ & Hsame).
  apply Hsame. reflexivity.
Defined.

(** X9 on the drawn sample map: the one highlighted county is
    labelled. *)
Lemma highlighted_counties_are_labelled_in_order_witness :
  map (fun l => (countyName l, value l))
      (labelData_of sample_env (app (painted_world (F 3)))
         (viewBox (page (painted_world (F 3))))
         (filter (fun c => tag_matches (zq 3) c = true)
                 (counties (page (painted_world (F 3))))))
  = [("Dane", "3")]%string.
Proof.
  destruct (highlighted_counties_are_labelled_in_order sample_env
              (domain sample_scale) (zq 3) (painted_world (F 3)))
    as [Hlabels _].
  - intros name record H. simpl in H.
    apply lookup_singleton_Some in H as [_ <-].
    eexists. reflexivity.
  - repeat constructor.
  - rewrite Hlabels. reflexivity.
Defined.

(** X13 on the sample table. *)
Lemma prepare_offers_columns_by_first_row_witness :
  let p := prepare sample_env sample_data initial_world in
  is_Return (snd p) = true /\
  sublist (attrArray (app (fst p))) (columns sample_data) /\
  expressed (app (fst p)) = head (attrArray (app (fst p))).
Proof.
  cbv zeta.
  assert (Hret : is_Return (snd (prepare sample_env sample_data initial_world))
                 = true) by (vm_compute; reflexivity).
  split; [exact Hret|].
  destruct (prepare_offers_columns_by_first_row sample_env sample_data
              initial_world _ _ (returned_pair _ Hret))
    as (first & _ & Hsub & _ & _ & Hexp & _).
  split; [exact Hsub | exact Hexp].
Defined.

(** X14 on the sample table. *)
Lemma parsed_rows_keep_text_and_number_witness :
  let p := prepare sample_env sample_data initial_world in
  is_Return (snd p) = true /\
  page (fst p) = page initial_world /\
  length (returned [] (snd p)) = length (csvData sample_data).
Proof.
  cbv zeta.
  assert (Hret : is_Return (snd (prepare sample_env sample_data initial_world))
                 = true) by (vm_compute; reflexivity).
  split; [exact Hret|].
  destruct (parsed_rows_keep_text_and_number sample_env sample_data
              initial_world _ _ (returned_pair _ Hret))
    as (Hpage & _ & Hrows).
  split; [exact Hpage|].
  symmetry. exact (Forall2_length _ _ _ Hrows).
Defined.


(** X17 on the table of the values 3, 3, 3, 5. *)
Lemma callback_few_distinct_values_throws_witness :
  let p := prepare sample_env few_values_data initial_world in
  is_Return (snd p) = true /\
  snd (callback sample_env few_values_data initial_world)
  = Throw (ReferenceError "colorScale").
Proof.
  cbv zeta.
  assert (Hret : is_Return (snd (prepare sample_env few_values_data
                                         initial_world)) = true)
    by (vm_compute; reflexivity).
  split; [exact Hret|].
  apply (callback_few_distinct_values_throws sample_env few_values_data
           initial_world _ _ (returned_pair _ Hret)).
  - vm_compute. lia.
  - vm_compute. lia.
  - reflexivity.
Defined.

(** X18 on the sample table. *)
Lemma callback_success_draws_everything_witness :
  let wd' := fst (callback sample_env sample_data initial_world) in
  snd (callback sample_env sample_data initial_world) = Return tt /\
  exists breaksArray colors,
    (2 <= length breaksArray)%nat /\
    colorScale (app wd')
    = Some {| domain := breaksArray; range := colors |} /\
    length (counties (page wd')) = length (countiesFeatures sample_data) /\
    dropdown (page wd') = Some (attrArray (app wd')).
Proof.
  cbv zeta.
  assert (Hret : snd (callback sample_env sample_data initial_world)
                 = Return tt) by (vm_compute; reflexivity).
  split; [exact Hret|].
  assert (Hnames : Forall (fun f => is_plain_name (NAME f) = true)
                          (countiesFeatures sample_data))
    by (repeat constructor).
  assert (Hplain : plain_object
                     (healthByCounty
                        (app (fst (callback sample_env sample_data
                                     initial_world)))))
    by (vm_compute; reflexivity).
  destruct (callback_success_draws_everything sample_env sample_data
              initial_world Hret eq_refl eq_refl Hnames Hplain)
    as (parsed & breaksArray & colors & _ & _ & _ & Hb & _ & Hsc & Hc & _
        & Hd & _).
  exists breaksArray, colors.
  split; [exact Hb|]. split; [exact Hsc|]. split; [|exact Hd].
  rewrite Hc. apply length_map.
Defined.

(** X19 on the sample table, selecting "note". *)
Lemma dropdown_change_rebuilds_the_map_witness :
  let r := dropdown_change sample_env (zq 400, zq 300) sample_data "note"
             (fst (callback sample_env sample_data initial_world)) in
  expressed (app (fst r)) = Some "note"%string /\
  viewBox (page (fst r)) = (zq 400, zq 300) /\
  callouts (page (fst r)) = [] /\
  Forall (fun c => glowing c = false) (counties (page (fst r))) /\
  (length (counties (page (fst r)))
   <= length (countiesFeatures sample_data))%nat.
Proof.
  apply (dropdown_change_rebuilds_the_map sample_env (zq 400, zq 300)
           sample_data "note"
           (fst (callback sample_env sample_data initial_world))).
  discriminate.
Defined.


(** X21 at the cell "2331:1". *)
Lemma ratio_cell_parses_and_displays_witness :
  cell_number "2331:1" = F 2331 /\
  remove_commas (formatDisplay (set_isRatioField true (one_county 3))
                               (VNum (F 2331)))
  = "2331:1"%string.
Proof.
  destruct (ratio_cell_parses_and_displays
              (set_isRatioField true (one_county 3)) 2331
              ltac:(lia) eq_refl) as (_ & Hparse & Hshow).
  split; [exact Hparse | exact Hshow].
Defined.

(** X22 at a county whose cell is no number. *)
Lemma county_without_number_is_unfilled_and_untagged_witness :
  fill (drawn_path (app (scaled_world NaN)) sample_scale (domain sample_scale)
                   (county_at "Dane" 100 200)) = None /\
  data_break (drawn_path (app (scaled_world NaN)) sample_scale
                         (domain sample_scale) (county_at "Dane" 100 200))
  = Some TagNone.
Proof.
  destruct (county_without_number_is_unfilled_and_untagged
              (app (scaled_world NaN)) sample_scale (domain sample_scale)
              (county_at "Dane" 100 200) (<["rate"%string := VNum NaN]> ∅)
              (zq 1) eq_refl eq_refl) as (Hf & Ht & _).
  split; [exact Hf | exact Ht].
Defined.

(** X23 at a county whose cell is Infinity. *)
Lemma infinite_cell_is_drawn_but_not_sampled_witness :
  StronglySorted Qclt (domain sample_scale) /\
  data_break (drawn_path (app (scaled_world PosInf)) sample_scale
                         (domain sample_scale) (county_at "Dane" 100 200))
  = Some TagOverflow /\
  fill (drawn_path (app (scaled_world PosInf)) sample_scale
                   (domain sample_scale) (county_at "Dane" 100 200))
  = Some (SchemeReds 6 5).
Proof.
  assert (Hs : StronglySorted Qclt (domain sample_scale))
    by (simpl; list_facts).
  split; [exact Hs|].
  destruct (infinite_cell_is_drawn_but_not_sampled
              (app (scaled_world PosInf)) (domain sample_scale)
              (range sample_scale) (county_at "Dane" 100 200)
              (<["rate"%string := VNum PosInf]> ∅) (zq 1)
              Hs eq_refl eq_refl eq_refl) as (_ & Ht & Hf & _).
  split; [exact Ht | exact Hf].
Defined.

(** The seeds on a 400 by 300 map. *)
Lemma seed_position_in_view_witness :
  (zq 20 <= zq 400)%Qc /\ (zq 20 <= zq 300)%Qc /\
  exists sx sy,
    seed_position sample_env (zq 400, zq 300) 0 (F 100, F 100)
    = (Fin sx, Fin sy) /\
    (zq 10 <= sx)%Qc /\ (sx <= qsub (zq 400) (zq 10))%Qc /\
    (zq 10 <= sy)%Qc /\ (sy <= qsub (zq 300) (zq 10))%Qc.
Proof.
  assert (HX : (zq 20 <= zq 400)%Qc) by discriminate.
  assert (HY : (zq 20 <= zq 300)%Qc) by discriminate.
  split; [exact HX|]. split; [exact HY|].
  apply (seed_position_in_view sample_env (zq 400) (zq 300) 0 (zq 100)
           (zq 100) HX HY).
Defined.

(** The bubble of a label near the top edge of a 400 by 300 map. *)
Lemma reclamp_edges_witness :
  let d := {| countyName := "Adams"; value := "0"; anchor := (F 200, F 8);
              x := F 200; y := F 5 |} in
  (qadd (bubbleWidth_of sample_env d) (zq 12) <= zq 400)%Qc /\
  exists rx ry,
    rect_x (snd (reclamp sample_env (zq 400, zq 300) d)) = Fin rx /\
    rect_y (snd (reclamp sample_env (zq 400, zq 300) d)) = Fin ry /\
    (zq 6 <= rx)%Qc /\ (zq 4 <= ry)%Qc /\ (ry < zq 6)%Qc.
Proof.
  cbv zeta.
  set (d := {| countyName := "Adams"%string; value := "0"%string;
               anchor := (F 200, F 8); x := F 200; y := F 5 |}).
  assert (Hw : (qadd (bubbleWidth_of sample_env d) (zq 12) <= zq 400)%Qc)
    by discriminate.
  split; [exact Hw|].
  destruct (reclamp_edges sample_env (zq 400) (zq 300) d (zq 200) (zq 5)
              eq_refl eq_refl Hw ltac:(discriminate))
    as (rx & ry & Hx & Hy & _ & _ & H6 & _ & _ & H4 & Hlow & _).
  exists rx, ry.
  split; [exact Hx|]. split; [exact Hy|]. split; [exact H6|].
  split; [exact H4|]. apply Hlow. reflexivity.
Defined.


(** ** Blank cells *)

Lemma is_ws_not_mark (c : ascii) :
  is_ws c = true ->
  Ascii.eqb c ":"%char = false /\ Ascii.eqb c ","%char = false.
Proof. ascii_cases c; split; reflexivity. Qed.

Lemma trim_end_blank (s : string) :
  trim_end s = EmptyString ->
  includes_colon s = false /\ remove_commas s = s.
Proof.
  induction s as [|c r IH]; [split; reflexivity|].
  simpl. destruct (trim_end r) eqn:E; [|discriminate].
  destruct (is_ws c) eqn:Ec; [|discriminate].
  intros _. destruct (IH eq_refl) as [H1 H2].
  destruct (is_ws_not_mark c Ec) as [-> ->]. now rewrite H1, H2.
Qed.

Lemma trim_start_blank (s : string) :
  trim_end (trim_start s) = EmptyString -> trim_end s = EmptyString.
Proof.
  induction s as [|c r IH]; [reflexivity|].
  simpl. destruct (is_ws c) eqn:Ec.
  - intros H. now rewrite (IH H).
  - simpl. rewrite Ec. intros H. exact H.
Qed.

(** X24. A cell that is empty or holds white space only is not taken as
    missing: the parse of [callback] makes the number 0 of it, the 0 is
    part of the sample, and the county is tagged with the first break at
    or above 0, or "overflow", never "none". *)
Theorem blank_cell_counts_as_zero
    (cell : string) (s : AppState) (breaksArray : list Qc) (f : Feature)
    (record : row) :
  trim cell = EmptyString ->
  healthByCounty s !! NAME f = Some record ->
  record !! key_of (expressed s) = Some (VNum (cell_number cell)) ->
  cell_number cell = F 0 /\
  finite_value (prop_get record (key_of (expressed s))) = Some (zq 0) /\
  county_data_break s breaksArray f = scan_breaks (F 0) breaksArray /\
  county_data_break s breaksArray f <> TagNone.
Proof.
  intros Hblank Hrec Hcell.
  assert (Hzero : cell_number cell = F 0).
  { destruct (trim_end_blank cell (trim_start_blank cell Hblank)) as [Hc Hr].
    unfold cell_number, string_to_number. now rewrite Hc, Hr, Hblank. }
  assert (Htag : county_data_break s breaksArray f
                 = scan_breaks (F 0) breaksArray).
  { apply (county_data_break_value s breaksArray f record (F 0));
      [assumption | | reflexivity].
    unfold prop_get. now rewrite Hcell, Hzero. }
  split; [exact Hzero|]. split.
  - unfold finite_value, prop_get. now rewrite Hcell, Hzero.
  - split; [exact Htag|]. rewrite Htag. apply scan_breaks_not_none.
Qed.

(** X24 at a cell of two spaces. *)
Lemma blank_cell_counts_as_zero_witness :
  trim "  " = EmptyString /\
  cell_number "  " = F 0 /\
  county_data_break (app (scaled_world (F 0))) (domain sample_scale)
                    (county_at "Dane" 100 200)
  = TagBreak (zq 1).
Proof.
  split; [reflexivity|].
  destruct (blank_cell_counts_as_zero "  " (app (scaled_world (F 0)))
              (domain sample_scale) (county_at "Dane" 100 200)
              (<["rate"%string := VNum (F 0)]> ∅)
              eq_refl eq_refl eq_refl) as (Hz & _ & Ht & _).
  split; [exact Hz | exact Ht].
Defined.

(** ** The buckets as a whole *)

(** X25. In the natural-breaks branch, given the contract of the
    clustering routine, the handlers of the breaks split the sampled
    counties among them: a county drawn by [setCounties] whose value is a
    sample value is highlighted by the handler of exactly one break. *)
Theorem each_sampled_county_is_in_exactly_one_bucket
    (ext : Externals) (vs : list Qc) (s : AppState) (sc : ThresholdScale)
    (f : Feature) (record : row) (v : Qc) :
  (5 <= length (set_values vs))%nat ->
  jenks_contract vs (numBreaks_of vs) (jenks ext vs (numBreaks_of vs)) ->
  v ∈ vs ->
  healthByCounty s !! NAME f = Some record ->
  to_number (prop_get record (key_of (expressed s))) = Fin v ->
  let breaks := natural_breaks ext vs in
  exists b, b ∈ breaks /\ (v <= b)%Qc /\
    forall d, tag_matches d (drawn_path s sc breaks f) = true <-> d = b.
Proof.
  intros HU Hc Hv Hrec Hval. cbv zeta.
  destruct (natural_breaks_facts ext vs HU Hc)
    as (_ & _ & top & _ & Htop & _ & Hmax).
  destruct (scan_breaks_bounded v (natural_breaks ext vs) top Htop (Hmax v Hv))
    as (b & Hb & Hscan & Hle).
  exists b. split; [assumption|]. split; [assumption|].
  intros d. unfold tag_matches, drawn_path. simpl.
  rewrite (county_data_break_value s _ f record (Fin v))
    by (assumption || reflexivity).
  rewrite Hscan, qeqb_eq. split; congruence.
Qed.

(** X26. Colours and tags follow the order of the values.  For strictly
    increasing breaks and a palette of one colour more, the colour of a
    value is the palette entry at its insertion point among the breaks,
    and of two values the larger one has the insertion point, hence the
    palette index, at or after that of the smaller; its break tag is at or
    above that of the smaller, and it is tagged "overflow" whenever the
    smaller one is. *)
Theorem colour_and_tag_follow_the_value
    (breaks : list Qc) (colors : list color) (v1 v2 : Qc) :
  StronglySorted Qclt breaks -> length colors = S (length breaks) ->
  (v1 <= v2)%Qc ->
  let sc := {| domain := breaks; range := colors |} in
  let n := length breaks in
  scale_apply sc (Fin v1) = colors !! bisectRight breaks (Fin v1) 0 n /\
  scale_apply sc (Fin v2) = colors !! bisectRight breaks (Fin v2) 0 n /\
  (bisectRight breaks (Fin v1) 0 n <= bisectRight breaks (Fin v2) 0 n <= n)%nat /\
  (forall b1 b2, scan_breaks (Fin v1) breaks = TagBreak b1 ->
     scan_breaks (Fin v2) breaks = TagBreak b2 -> (b1 <= b2)%Qc) /\
  (scan_breaks (Fin v1) breaks = TagOverflow ->
   scan_breaks (Fin v2) breaks = TagOverflow).
Proof.
  intros Hs Hlen Hle. cbv zeta.
  assert (Hn : Nat.min (length breaks) (length colors - 1) = length breaks)
    by lia.
  split; [unfold scale_apply; simpl; now rewrite Hn|].
  split; [unfold scale_apply; simpl; now rewrite Hn|].
  split.
  - destruct (bisectRight_spec breaks (Fin v1) (length breaks)
                (sorted_lt_le breaks Hs) (le_n _) eq_refl)
      as (Hr1 & Hbelow1 & _).
    destruct (bisectRight_spec breaks (Fin v2) (length breaks)
                (sorted_lt_le breaks Hs) (le_n _) eq_refl)
      as (Hr2 & _ & Hafter2).
    cbv zeta in *.
    set (r1 := bisectRight breaks (Fin v1) 0 (length breaks)) in *.
    set (r2 := bisectRight breaks (Fin v2) 0 (length breaks)) in *.
    split; [|assumption].
    destruct (le_lt_dec r1 r2) as [H | H]; [assumption|]. exfalso.
    destruct (breaks !! r2) as [b|] eqn:Eb.
    2:{ apply lookup_ge_None in Eb. lia. }
    specialize (Hbelow1 r2 b H Eb).
    specialize (Hafter2 r2 b ltac:(lia) Eb).
    rewrite js_le_fin in Hbelow1, Hafter2.
    apply qleb_le in Hbelow1. apply qleb_gt in Hafter2.
    apply (Qclt_not_le _ _ Hafter2).
    exact (Qcle_trans _ _ _ Hbelow1 Hle).
  - split.
    + intros b1 b2 H1 H2.
      apply scan_breaks_break in H1 as (i1 & Hi1 & Hle1 & Hbefore1).
      apply scan_breaks_break in H2 as (i2 & Hi2 & Hle2 & Hbefore2).
      rewrite js_le_fin in Hle1, Hle2.
      apply qleb_le in Hle1. apply qleb_le in Hle2.
      destruct (le_lt_dec i1 i2) as [H | H].
      * exact (sorted_lookup_le breaks i1 i2 b1 b2 (sorted_lt_le breaks Hs)
                 H Hi1 Hi2).
      * exfalso. specialize (Hbefore1 i2 b2 H Hi2).
        rewrite js_le_fin in Hbefore1. apply qleb_gt in Hbefore1.
        apply (Qclt_not_le _ _ Hbefore1).
        exact (Qcle_trans _ _ _ Hle Hle2).
    + rewrite !scan_breaks_overflow. intros H b Hb.
      specialize (H b Hb). rewrite js_le_fin in *.
      apply qleb_gt in H. apply qleb_gt.
      exact (Qclt_le_trans _ _ _ H Hle).
Qed.

(** X25 at the sample of the specification, with a county whose value is
    9. *)
Lemma each_sampled_county_is_in_exactly_one_bucket_witness :
  (5 <= length (set_values spec_sample))%nat /\
  exists b, b ∈ natural_breaks sample_env spec_sample /\ (zq 9 <= b)%Qc /\
    forall d, tag_matches d
                (drawn_path (app (scaled_world (F 9))) sample_scale
                   (natural_breaks sample_env spec_sample)
                   (county_at "Dane" 100 200)) = true <-> d = b.
Proof.
  assert (HU : (5 <= length (set_values spec_sample))%nat)
    by (vm_compute; lia).
  split; [exact HU|].
  apply (each_sampled_county_is_in_exactly_one_bucket sample_env spec_sample
           (app (scaled_world (F 9))) sample_scale (county_at "Dane" 100 200)
           (<["rate"%string := VNum (F 9)]> ∅) (zq 9)
           HU spec_sample_contract).
  - unfold spec_sample. simpl. list_facts.
  - reflexivity.
  - reflexivity.
Defined.

(** X26 at the scale of the sample table and the values 2 and 4. *)
Lemma colour_and_tag_follow_the_value_witness :
  StronglySorted Qclt (domain sample_scale) /\
  (zq 2 <= zq 4)%Qc /\
  scale_apply sample_scale (F 2) = Some (SchemeReds 6 2) /\
  scale_apply sample_scale (F 4) = Some (SchemeReds 6 4) /\
  (bisectRight (domain sample_scale) (F 2) 0 5
   <= bisectRight (domain sample_scale) (F 4) 0 5 <= 5)%nat.
Proof.
  assert (Hs : StronglySorted Qclt (domain sample_scale))
    by (simpl; list_facts).
  assert (Hle : (zq 2 <= zq 4)%Qc) by discriminate.
  split; [exact Hs|]. split; [exact Hle|].
  destruct (colour_and_tag_follow_the_value (domain sample_scale)
              (range sample_scale) (zq 2) (zq 4) Hs eq_refl Hle)
    as (H1 & H2 & Hm & _).
  split; [exact H1|]. split; [exact H2 | exact Hm].
Defined.
